(** * Connection lifecycle of the transport layer, and the JSON Schema parser

    A shallow embedding of

      - [src/mongo/transport/session.cpp]  (the connection endpoint),
      - [src/mongo/transport/service_entry_point_impl.cpp]  (the registry of
        per-connection drivers), and
      - [src/mongo/db/matcher/schema/json_schema_parser.cpp]  (the parser of
        [$jsonSchema]),

    together with the properties of the lifecycle contract and of the
    parser. *)

From Stdlib Require Import ZArith Lia String Sorted.
From stdpp Require Import base decidable option list gmap strings.

Local Open Scope Z_scope.

(** ** Machine integers *)

(** [AtomicUInt64] and [AtomicWord<std::size_t>] hold 64-bit unsigned words;
    [addAndFetch] and [subtractAndFetch] are atomic read-modify-write
    operations that return the new value, wrapping modulo [2^64]. *)
Definition UInt64_modulus : Z := 2 ^ 64.

Definition addAndFetch (word k : Z) : Z := (word + k) mod UInt64_modulus.

Definition subtractAndFetch (word k : Z) : Z := (word - k) mod UInt64_modulus.

(** [static_cast<unsigned>] *)
Definition to_unsigned (z : Z) : Z := z mod 2 ^ 32.

(** * The connection endpoint: [session.cpp] *)

Module Session.

(** A resolved socket address; its contents are opaque here. *)
Inductive SockAddr := MkSockAddr (raw : Z).

(** [HostAndPort], with the optional resolved address that [sockAddr()]
    returns. *)
Record HostAndPort := MkHostAndPort {
  host : string;
  port : Z;
  sockAddr : option SockAddr
}.

(** A [TransportLayer*] is a possibly null pointer: [None] is [nullptr], and
    [Some tl] points to the transport layer number [tl]. *)
Definition TransportLayer := nat.

Definition SessionId := Z.

Record Session := MkSession {
  _id : SessionId;
  _remote : HostAndPort;
  _local : HostAndPort;
  _tl : option TransportLayer
}.

(** The accessors [id()], [remote()] and [local()]. *)
Definition id (s : Session) : SessionId := _id s.
Definition remote (s : Session) : HostAndPort := _remote s.
Definition local (s : Session) : HostAndPort := _local s.

(** A call [tl->end(session)] received by a transport layer: the receiver and
    the identifier of the session that ended. *)
Record EndCall := MkEndCall {
  end_tl : TransportLayer;
  end_session : SessionId
}.

#[global] Instance EndCall_eq_dec : EqDecision EndCall.
Proof. solve_decision. Defined.

(** [AtomicUInt64 sessionIdCounter(0);] *)
Definition sessionIdCounter_init : Z := 0.

(** [Session::Session(HostAndPort remote, HostAndPort local, TransportLayer* tl)]:
    the process-wide counter is threaded through; the new session and the new
    counter value are returned. *)
Definition Session_new (remote local : HostAndPort) (tl : option TransportLayer)
    (sessionIdCounter : Z) : Session * Z :=
  let fetched := addAndFetch sessionIdCounter 1 in
  ({| _id := fetched; _remote := remote; _local := local; _tl := tl |}, fetched).

(** [Session::~Session()]: the calls received by the transport layers are
    collected in a log.  The [invariant(_tl)] inside the branch is guarded by the
    same test and cannot fail. *)
Definition Session_destroy (s : Session) (log : list EndCall) : list EndCall :=
  match _tl s with
  | Some tl => log ++ [MkEndCall tl (_id s)]
  | None => log
  end.

Section Moves.

(** [std::move(other._remote)] leaves the source [HostAndPort] in a valid but
    unspecified state. *)
Variable moved_from : HostAndPort -> HostAndPort.

(** [Session::Session(Session&& other)]: returns the constructed session and
    the state in which [other] is left. *)
Definition Session_move_construct (other : Session) : Session * Session :=
  let this := {| _id := _id other;
                 _remote := _remote other;
                 _local := _local other;
                 _tl := _tl other |} in
  (* other._tl = nullptr; *)
  let other' := {| _id := _id other;
                   _remote := moved_from (_remote other);
                   _local := moved_from (_local other);
                   _tl := None |} in
  (this, other').

(** [Session& Session::operator=(Session&& other)]: returns the new state of
    [*this] and the state in which [other] is left.  The statements are
    followed one by one. *)
Definition Session_move_assign (this other : Session) : Session * Session :=
  (* _id = other._id; *)
  let this1 := {| _id := _id other; _remote := _remote this;
                  _local := _local this; _tl := _tl this |} in
  (* _remote = std::move(other._remote); *)
  let this2 := {| _id := _id this1; _remote := _remote other;
                  _local := _local this1; _tl := _tl this1 |} in
  let other2 := {| _id := _id other; _remote := moved_from (_remote other);
                   _local := _local other; _tl := _tl other |} in
  (* _local = std::move(other._local); *)
  let this3 := {| _id := _id this2; _remote := _remote this2;
                  _local := _local other2; _tl := _tl this2 |} in
  let other3 := {| _id := _id other2; _remote := _remote other2;
                   _local := moved_from (_local other2); _tl := _tl other2 |} in
  (* _tl = other._tl; *)
  let this4 := {| _id := _id this3; _remote := _remote this3;
                  _local := _local this3; _tl := _tl other3 |} in
  (* _tl = nullptr; *)
  let this5 := {| _id := _id this4; _remote := _remote this4;
                  _local := _local this4; _tl := None |} in
  (this5, other3).

(** A chain of [n] move constructions starting from [s]: returns the final
    destination and the moved-from sessions left behind, oldest first. *)
Fixpoint move_chain (n : nat) (s : Session) : Session * list Session :=
  match n with
  | O => (s, [])
  | S n' =>
      let '(dest, husk) := Session_move_construct s in
      let '(final, husks) := move_chain n' dest in
      (final, husk :: husks)
  end.

End Moves.

(** Destroying several sessions one after the other. *)
Definition destroy_all (ss : list Session) (log : list EndCall) : list EndCall :=
  fold_left (fun lg s => Session_destroy s lg) ss log.

(** The sessions constructed by a sequence of constructor calls, in the order in
    which their atomic increments take effect. *)
Definition CtorArgs : Type := HostAndPort * HostAndPort * option TransportLayer.

Fixpoint construct_all (calls : list CtorArgs) (sessionIdCounter : Z)
    : list Session * Z :=
  match calls with
  | [] => ([], sessionIdCounter)
  | (r, l, tl) :: rest =>
      let '(s, c1) := Session_new r l tl sessionIdCounter in
      let '(ss, c2) := construct_all rest c1 in
      (s :: ss, c2)
  end.

Definition assigned_ids (calls : list CtorArgs) : list SessionId :=
  map _id (fst (construct_all calls sessionIdCounter_init)).

(** Identifiers that are pairwise distinct, never zero and increasing in
    construction order. *)
Definition ids_unique_nonzero_increasing (ids : list SessionId) : Prop :=
  NoDup ids /\ Forall (fun i => i <> 0) ids /\ StronglySorted Z.lt ids.

End Session.

(** * The registry of per-connection drivers: [service_entry_point_impl.cpp] *)

Module ServiceEntryPoint.

Import Session.

(** [Session::TagMask]: a bit mask. *)
Definition TagMask := Z.

(** [Session::getTags()] is declared in [session.h], which is not among the
    sources: the tags of a session are left open. *)
Class SessionTags := getTags : Session -> TagMask.

(** [ServiceContext::getServiceExecutor()] returns a possibly null pointer to
    the configured executor. *)
Definition ServiceExecutor := nat.

Record ServiceContext := MkServiceContext {
  getServiceExecutor : option ServiceExecutor
}.

(** [ProcessInfo]: what the host reports about its processing cores. *)
Record ProcessInfo := MkProcessInfo {
  getNumAvailableCores : option Z;
  getNumCores : Z
}.

(** Modelled from the spec: the lifecycle states of [ServiceStateMachine]
    (its header is not among the sources); [Created -> Running -> Ended], with
    [Ended] the only terminal state. *)
Inductive State := Created | Running | Ended.

#[global] Instance State_eq_dec : EqDecision State.
Proof. solve_decision. Defined.

(** The operations of [ServiceStateMachine] that the registry calls.  The class
    is defined in [service_state_machine.cpp], which is not among the sources, so
    the operations act on an arbitrary type [D] of driver states: each changes
    the state of the driver it is called on and of no other. *)
Class Driver (D : Type) := {
  ssm_create : ServiceContext -> Session -> bool -> D;
  ssm_session : D -> Session;
  ssm_state : D -> State;
  ssm_scheduleNext : D -> D;
  ssm_runNext : D -> D;
  ssm_terminate : D -> D
}.

(** Modelled from the spec: the contract of the driver that the registry relies
    on (section 4.2): [create] does not start execution, and [Ended] is terminal
    and irreversible under every operation. *)
Class DriverContract (D : Type) `{Driver D} : Prop := {
  create_not_Ended : forall ctx s sync, ssm_state (ssm_create ctx s sync) <> Ended;
  scheduleNext_Ended : forall d, ssm_state d = Ended -> ssm_state (ssm_scheduleNext d) = Ended;
  runNext_Ended : forall d, ssm_state d = Ended -> ssm_state (ssm_runNext d) = Ended;
  terminate_Ended : forall d, ssm_state d = Ended -> ssm_state (ssm_terminate d) = Ended
}.

(** A [std::shared_ptr<ServiceStateMachine>] is a handle: the index of the
    driver among the drivers allocated so far.  Copies of a handle alias the same
    driver. *)
Abbreviation Handle := nat.

(** [SSMList] is a [std::list] of handles, and an [SSMListIterator] denotes one
    of its nodes.  Every node is given the handle of a newly created driver, so a
    node is denoted by the handle it holds. *)
Abbreviation SSMList := (list Handle).
Abbreviation SSMListIterator := Handle.

(** The closure that [startSession] passes to [setCleanupHook]: it captures the
    registry and [ssmIt]; its body is [run_cleanupHook] below. *)
Inductive CleanupHook := EraseSession (ssmIt : SSMListIterator).

(** The operations of the driver interface, as they appear in the trace. *)
Inductive DriverOp := OpScheduleNext | OpRunNext | OpTerminate.

(** What an execution does, in order. *)
Inductive Event :=
| EvRestrictionEnvironment (session : SessionId) (remoteAddr localAddr : SockAddr)
| EvCreate (ssm : Handle) (sync : bool)
| EvLock
| EvUnlock
| EvEmplace (ssm : Handle)
| EvErase (ssmIt : SSMListIterator)
| EvSetCleanupHook (ssm : Handle)
| EvCall (op : DriverOp) (ssm : Handle)
| EvLaunchWorker (ssm : Handle)
| EvLog (session : SessionId)
| EvSnapshot (ssm : Handle)
| EvYield.

#[global] Instance SockAddr_eq_dec : EqDecision SockAddr.
Proof. solve_decision. Defined.

#[global] Instance DriverOp_eq_dec : EqDecision DriverOp.
Proof. solve_decision. Defined.

#[global] Instance Event_eq_dec : EqDecision Event.
Proof. solve_decision. Defined.

(** Why an execution does not return. *)
Inductive Failure :=
| InvariantFailure
| RelockedMutex
| UnlockedFreeMutex
| DanglingHandle
| NullDereference
| StaleIterator
| OutOfFuel.

Section Registry.

Context {D : Type} `{Driver D} `{SessionTags}.

(** A driver object: the state of the state machine and the cleanup hook, if
    one is installed. *)
Record SSM := MkSSM {
  driver : D;
  cleanupHook : option CleanupHook
}.

(** The members of [ServiceEntryPointImpl], the driver objects that the handles
    point to, and the trace of the execution so far. *)
Record World := MkWorld {
  _svcCtx : ServiceContext;
  _nWorkers : Z;
  _sessionsMutex : bool;
  _sessions : SSMList;
  drivers : list SSM;
  trace : list Event
}.

Definition initial_world (svcCtx : ServiceContext) : World :=
  {| _svcCtx := svcCtx; _nWorkers := 0; _sessionsMutex := false;
     _sessions := []; drivers := []; trace := [] |}.

Inductive Result (A : Type) :=
| Ok (a : A) (w : World)
| Fail (f : Failure).

Arguments Ok {A} a w.
Arguments Fail {A} f.

(** Computations that read and change the world, and may fail. *)
Definition M (A : Type) : Type := World -> Result A.

Definition ret {A} (a : A) : M A := fun w => Ok a w.

Definition bind {A B} (m : M A) (k : A -> M B) : M B :=
  fun w => match m w with
           | Ok a w' => k a w'
           | Fail f => Fail f
           end.

Definition fail {A} (f : Failure) : M A := fun _ => Fail f.

Notation "x <- m ;; k" := (bind m (fun x => k))
  (at level 60, m at next level, right associativity).
Notation "m ;;; k" := (bind m (fun _ => k))
  (at level 60, right associativity).

(** Recording what happens in the trace. *)
Definition add_events (w : World) (evs : list Event) : World :=
  {| _svcCtx := _svcCtx w; _nWorkers := _nWorkers w;
     _sessionsMutex := _sessionsMutex w; _sessions := _sessions w;
     drivers := drivers w; trace := trace w ++ evs |}.

Definition emit (e : Event) : M unit := fun w => Ok tt (add_events w [e]).

(** [invariant(b)] and [dassert(b)]: a failure terminates the process. *)
Definition invariant (b : bool) : M unit :=
  if b then ret tt else fail InvariantFailure.

(** [*p] for an optional value. *)
Definition deref {A} (p : option A) : M A :=
  match p with
  | Some a => ret a
  | None => fail NullDereference
  end.

(** Acquiring and releasing [_sessionsMutex].  Within one call the mutex is
    either free or held by the call itself, and locking a [stdx::mutex] that
    the caller holds is undefined. *)
Definition lock : M unit := fun w =>
  if _sessionsMutex w then Fail RelockedMutex
  else emit EvLock {| _svcCtx := _svcCtx w; _nWorkers := _nWorkers w;
                      _sessionsMutex := true; _sessions := _sessions w;
                      drivers := drivers w; trace := trace w |}.

Definition unlock : M unit := fun w =>
  if _sessionsMutex w
  then emit EvUnlock {| _svcCtx := _svcCtx w; _nWorkers := _nWorkers w;
                        _sessionsMutex := false; _sessions := _sessions w;
                        drivers := drivers w; trace := trace w |}
  else Fail UnlockedFreeMutex.

Definition get_svcCtx : M ServiceContext := fun w => Ok (_svcCtx w) w.

Definition get_sessions : M SSMList := fun w => Ok (_sessions w) w.

Definition set_sessions (l : SSMList) : M unit := fun w =>
  Ok tt {| _svcCtx := _svcCtx w; _nWorkers := _nWorkers w;
           _sessionsMutex := _sessionsMutex w; _sessions := l;
           drivers := drivers w; trace := trace w |}.

Definition set_drivers (ds : list SSM) : M unit := fun w =>
  Ok tt {| _svcCtx := _svcCtx w; _nWorkers := _nWorkers w;
           _sessionsMutex := _sessionsMutex w; _sessions := _sessions w;
           drivers := ds; trace := trace w |}.

Definition set_nWorkers (n : Z) : M unit := fun w =>
  Ok tt {| _svcCtx := _svcCtx w; _nWorkers := n;
           _sessionsMutex := _sessionsMutex w; _sessions := _sessions w;
           drivers := drivers w; trace := trace w |}.

(** [_nWorkers.load()], [_nWorkers.addAndFetch(k)] and
    [_nWorkers.subtractAndFetch(k)] *)
Definition nWorkers_load : M Z := fun w => Ok (_nWorkers w) w.

Definition nWorkers_addAndFetch (k : Z) : M Z :=
  n <- nWorkers_load ;;
  set_nWorkers (addAndFetch n k) ;;;
  ret (addAndFetch n k).

Definition nWorkers_subtractAndFetch (k : Z) : M Z :=
  n <- nWorkers_load ;;
  set_nWorkers (subtractAndFetch n k) ;;;
  ret (subtractAndFetch n k).

(** [ssm->...]: following a handle to its driver object. *)
Definition get_ssm (ssm : Handle) : M SSM := fun w =>
  match drivers w !! ssm with
  | Some c => Ok c w
  | None => Fail DanglingHandle
  end.

Definition put_ssm (ssm : Handle) (c : SSM) : M unit := fun w =>
  set_drivers (<[ssm := c]> (drivers w)) w.

(** [_sessions.emplace(_sessions.begin(), ssm)]: a new first node; the iterator
    to it is returned. *)
Definition sessions_emplace_front (ssm : Handle) : M SSMListIterator :=
  l <- get_sessions ;;
  set_sessions (ssm :: l) ;;;
  emit (EvEmplace ssm) ;;;
  ret ssm.

(** Unlinking the node that an iterator denotes; [None] when the list has no
    such node. *)
Fixpoint list_erase (ssmIt : SSMListIterator) (l : SSMList) : option SSMList :=
  match l with
  | [] => None
  | x :: rest =>
      if decide (x = ssmIt) then Some rest
      else match list_erase ssmIt rest with
           | Some rest' => Some (x :: rest')
           | None => None
           end
  end.

(** [_sessions.erase(ssmIt)]; erasing through an iterator whose node is gone is
    undefined. *)
Definition sessions_erase (ssmIt : SSMListIterator) : M unit :=
  l <- get_sessions ;;
  match list_erase ssmIt l with
  | Some l' => set_sessions l' ;;; emit (EvErase ssmIt)
  | None => fail StaleIterator
  end.

(** The body of the closure built in [startSession]:
    [[this, ssmIt] { lock_guard lk(_sessionsMutex); _sessions.erase(ssmIt); }] *)
Definition run_cleanupHook (hook : CleanupHook) : M unit :=
  match hook with
  | EraseSession ssmIt =>
      lock ;;;
      sessions_erase ssmIt ;;;
      unlock
  end.

Definition get_drivers : M (list SSM) := fun w => Ok (drivers w) w.

(** [ServiceStateMachine::create(svcCtx, session, sync)]: a new driver object
    with no cleanup hook; the handle to it is returned. *)
Definition ServiceStateMachine_create (svcCtx : ServiceContext) (session : Session)
    (sync : bool) : M Handle :=
  ds <- get_drivers ;;
  let ssm := length ds in
  set_drivers (ds ++ [MkSSM (ssm_create svcCtx session sync) None]) ;;;
  emit (EvCreate ssm sync) ;;;
  ret ssm.

(** [ssm->setCleanupHook(hook)] *)
Definition setCleanupHook (ssm : Handle) (hook : CleanupHook) : M unit :=
  c <- get_ssm ssm ;;
  put_ssm ssm (MkSSM (driver c) (Some hook)) ;;;
  emit (EvSetCleanupHook ssm).

Definition driver_op (op : DriverOp) : D -> D :=
  match op with
  | OpScheduleNext => ssm_scheduleNext
  | OpRunNext => ssm_runNext
  | OpTerminate => ssm_terminate
  end.

(** Modelled from the spec: a call of a driver operation
    ([ssm->scheduleNext()], [ssm->runNext()], [ssm->terminate()]; their bodies
    are not among the sources).  The operation changes the state of this
    driver.  The cleanup hook is a one-shot callback: it is invoked
    synchronously at the moment the state becomes [Ended], from the thread that
    drove the transition, and is then spent. *)
Definition ssm_call (op : DriverOp) (ssm : Handle) : M unit :=
  c <- get_ssm ssm ;;
  emit (EvCall op ssm) ;;;
  let d' := driver_op op (driver c) in
  if decide (ssm_state (driver c) <> Ended /\ ssm_state d' = Ended) then
    match cleanupHook c with
    | Some hook => put_ssm ssm (MkSSM d' None) ;;; run_cleanupHook hook
    | None => put_ssm ssm (MkSSM d' None)
    end
  else put_ssm ssm (MkSSM d' (cleanupHook c)).

(** [launchServiceWorkerThread(task)]: the task is handed to a new thread,
    which runs [serviceWorker] below; the caller goes on at once. *)
Definition launchServiceWorkerThread (ssm : Handle) : M unit :=
  emit (EvLaunchWorker ssm).

(** [ServiceEntryPointImpl::startSession(transport::SessionHandle session)] *)
Definition startSession (session : Session) : M unit :=
  let remoteAddr := sockAddr (remote session) in
  let localAddr := sockAddr (local session) in
  invariant (bool_decide (is_Some remoteAddr) && bool_decide (is_Some localAddr)) ;;;
  ra <- deref remoteAddr ;;
  la <- deref localAddr ;;
  emit (EvRestrictionEnvironment (id session) ra la) ;;;
  svcCtx <- get_svcCtx ;;
  let sync := bool_decide (getServiceExecutor svcCtx = None) in
  ssm <- ServiceStateMachine_create svcCtx session sync ;;
  ssmIt <- (lock ;;;
            it <- sessions_emplace_front ssm ;;
            unlock ;;;
            ret it) ;;
  setCleanupHook ssm (EraseSession ssmIt) ;;;
  if negb sync then
    invariant (bool_decide (is_Some (getServiceExecutor svcCtx))) ;;;
    ssm_call OpScheduleNext ssm
  else
    launchServiceWorkerThread ssm.

(** The number of cores that the worker compares [_nWorkers] with. *)
Definition numCores (p : ProcessInfo) : Z :=
  match getNumAvailableCores p with
  | Some availCores => to_unsigned availCores
  | None => to_unsigned (getNumCores p)
  end.

(** One pass through the body of the worker's [while] loop. *)
Definition workerIteration (ssm : Handle) (cores : Z) : M unit :=
  ssm_call OpRunNext ssm ;;;
  n <- nWorkers_load ;;
  if n >? cores then emit EvYield else ret tt.

(** [while (ssm->state() != State::Ended) { ... }], at most [fuel] passes. *)
Fixpoint workerLoop (fuel : nat) (ssm : Handle) (cores : Z) : M unit :=
  match fuel with
  | O => fail OutOfFuel
  | S fuel' =>
      c <- get_ssm ssm ;;
      if decide (ssm_state (driver c) = Ended) then ret tt
      else workerIteration ssm cores ;;; workerLoop fuel' ssm cores
  end.

(** The task that [startSession] hands to [launchServiceWorkerThread]; the
    guard runs when the task is left. *)
Definition serviceWorker (p : ProcessInfo) (fuel : nat) (ssm : Handle) : M unit :=
  nWorkers_addAndFetch 1 ;;;
  let cores := numCores p in
  workerLoop fuel ssm cores ;;;
  nWorkers_subtractAndFetch 1 ;;;
  ret tt.

(** The first loop of [endAllSessions], over the nodes of [_sessions]. *)
Fixpoint collect_connsToEnd (tags : TagMask) (sessions connsToEnd : SSMList)
    : M SSMList :=
  match sessions with
  | [] => ret connsToEnd
  | ssm :: rest =>
      c <- get_ssm ssm ;;
      if decide (Z.land (getTags (ssm_session (driver c))) tags <> 0) then
        emit (EvLog (id (ssm_session (driver c)))) ;;;
        collect_connsToEnd tags rest connsToEnd
      else
        emit (EvSnapshot ssm) ;;;
        collect_connsToEnd tags rest (connsToEnd ++ [ssm])
  end.

(** The second loop of [endAllSessions]. *)
Fixpoint terminate_all (connsToEnd : SSMList) : M unit :=
  match connsToEnd with
  | [] => ret tt
  | ssm :: rest => ssm_call OpTerminate ssm ;;; terminate_all rest
  end.

(** [ServiceEntryPointImpl::endAllSessions(transport::Session::TagMask tags)] *)
Definition endAllSessions (tags : TagMask) : M unit :=
  connsToEnd <- (lock ;;;
                 l <- get_sessions ;;
                 conns <- collect_connsToEnd tags l [] ;;
                 unlock ;;;
                 ret conns) ;;
  terminate_all connsToEnd.

(** [ServiceEntryPointImpl::getNumberOfConnections()] *)
Definition getNumberOfConnections : M Z :=
  lock ;;;
  l <- get_sessions ;;
  unlock ;;;
  ret (Z.of_nat (length l)).

(** ** Executions in which calls do not overlap

    The threads of the process take turns, and no thread is overtaken inside a
    call of an entry point.  A step is a whole call of an entry point of the
    registry, one pass of some worker through its loop, a worker entering or
    leaving its task, or a call of a driver operation by some thread (the
    executor running what [scheduleNext] handed to it, a [terminate]).  The
    steps do not track which worker serves which driver.  The executions in
    which a call of [startSession] or [endAllSessions] is overtaken between
    two of its statements are those of [interleaving] below. *)
Inductive Step :=
| CallStartSession (session : Session)
| CallEndAllSessions (tags : TagMask)
| CallGetNumberOfConnections
| WorkerEnters
| WorkerIterates (ssm : Handle) (cores : Z)
| WorkerLeaves
| DriverCall (op : DriverOp) (ssm : Handle).

Definition run_step (st : Step) : M unit :=
  match st with
  | CallStartSession session => startSession session
  | CallEndAllSessions tags => endAllSessions tags
  | CallGetNumberOfConnections => getNumberOfConnections ;;; ret tt
  | WorkerEnters => nWorkers_addAndFetch 1 ;;; ret tt
  | WorkerIterates ssm cores =>
      c <- get_ssm ssm ;;
      if decide (ssm_state (driver c) = Ended) then ret tt
      else workerIteration ssm cores
  | WorkerLeaves => nWorkers_subtractAndFetch 1 ;;; ret tt
  | DriverCall op ssm => ssm_call op ssm
  end.

(** The worlds that such an execution passes through. *)
Inductive reachable : World -> Prop :=
| reachable_initial svcCtx : reachable (initial_world svcCtx)
| reachable_step w st w' :
    reachable w -> run_step st w = Ok tt w' -> reachable w'.

(** Running a finite execution, step by step. *)
Fixpoint run_steps (sts : list Step) : M unit :=
  match sts with
  | [] => ret tt
  | st :: rest => run_step st ;;; run_steps rest
  end.

(** ** Executions in which calls overlap

    A call of [startSession] holds the mutex only while it adds the node
    (l.60-63).  Other threads can run before it takes the mutex, when the
    driver is created (l.59); after it has released the mutex and before it
    installs the cleanup hook (l.65); and after the hook is installed, before
    the execution of the driver is started (l.70).  A call of [endAllSessions]
    holds the mutex during its first loop (l.111-120); other threads can run
    before each call of [terminate] in its second loop (l.127-129). *)

(** [startSession], l.49-59: up to the creation of the driver.  The handle of
    the driver and [sync] are returned. *)
Definition startSession_create (session : Session) : M (Handle * bool) :=
  let remoteAddr := sockAddr (remote session) in
  let localAddr := sockAddr (local session) in
  invariant (bool_decide (is_Some remoteAddr) && bool_decide (is_Some localAddr)) ;;;
  ra <- deref remoteAddr ;;
  la <- deref localAddr ;;
  emit (EvRestrictionEnvironment (id session) ra la) ;;;
  svcCtx <- get_svcCtx ;;
  let sync := bool_decide (getServiceExecutor svcCtx = None) in
  ssm <- ServiceStateMachine_create svcCtx session sync ;;
  ret (ssm, sync).

(** [startSession], l.60-63: the node is added under the mutex. *)
Definition startSession_register (ssm : Handle) : M SSMListIterator :=
  lock ;;;
  it <- sessions_emplace_front ssm ;;
  unlock ;;;
  ret it.

(** [startSession], l.70-99: the execution of the driver is started;
    [_svcCtx] is read again for the [dassert]. *)
Definition startSession_start (sync : bool) (ssm : Handle) : M unit :=
  if negb sync then
    svcCtx <- get_svcCtx ;;
    invariant (bool_decide (is_Some (getServiceExecutor svcCtx))) ;;;
    ssm_call OpScheduleNext ssm
  else
    launchServiceWorkerThread ssm.

(** [endAllSessions], l.103-120: the first loop, under the mutex. *)
Definition endAllSessions_scan (tags : TagMask) : M SSMList :=
  lock ;;;
  l <- get_sessions ;;
  conns <- collect_connsToEnd tags l [] ;;
  unlock ;;;
  ret conns.

(** The local variables of a call of [startSession] at the points where it
    can be overtaken, and once it has returned. *)
Inductive Frame :=
| AtLock (sync : bool)
| AtSetCleanupHook (sync : bool) (ssmIt : SSMListIterator)
| AtStart (sync : bool)
| Returned (sync : bool).

(** The process: the world, the frame of the call of [startSession] that
    created each driver (by handle), and [connsToEnd] of each call of
    [endAllSessions] that has reached its second loop: the handles it has yet
    to call [terminate] on. *)
Record Process := MkProcess {
  world : World;
  frames : list Frame;
  ending : list SSMList
}.

Definition initial_process (svcCtx : ServiceContext) : Process :=
  MkProcess (initial_world svcCtx) [] [].

(** What a thread does between two points at which it can be overtaken.  A
    call of [startSession] takes four turns, and the last three are named by
    the handle of the driver created in the first.  A call of [endAllSessions]
    takes one turn for its first loop and one for each call of [terminate];
    these are named by the position of the call in [ending].  A worker and the
    executor run the driver of [ssm] only once [startSession] has started it,
    without and with a service executor. *)
Inductive Action :=
| StartSessionCreates (session : Session)
| StartSessionRegisters (ssm : Handle)
| StartSessionSetsCleanupHook (ssm : Handle)
| StartSessionStarts (ssm : Handle)
| EndAllSessionsScans (tags : TagMask)
| EndAllSessionsTerminates (call : nat)
| GetNumberOfConnectionsRuns
| WorkerEntersTask
| WorkerRunsLoop (ssm : Handle) (cores : Z)
| WorkerLeavesTask
| ExecutorCalls (op : DriverOp) (ssm : Handle).

(** The world that a computation leaves behind when it returns. *)
Definition returns {A} (r : Result A) : option (A * World) :=
  match r with
  | Ok a w => Some (a, w)
  | Fail _ => None
  end.

(** One turn of a thread; [None] when the thread is not at that point, or
    when the turn ends the process on a failure. *)
Definition turn (a : Action) (s : Process) : option Process :=
  match a with
  | StartSessionCreates session =>
      match returns (startSession_create session (world s)) with
      | Some ((_, sync), w') => Some (MkProcess w' (frames s ++ [AtLock sync]) (ending s))
      | None => None
      end
  | StartSessionRegisters ssm =>
      match frames s !! ssm with
      | Some (AtLock sync) =>
          match returns (startSession_register ssm (world s)) with
          | Some (ssmIt, w') =>
              Some (MkProcess w' (<[ssm := AtSetCleanupHook sync ssmIt]> (frames s))
                              (ending s))
          | None => None
          end
      | _ => None
      end
  | StartSessionSetsCleanupHook ssm =>
      match frames s !! ssm with
      | Some (AtSetCleanupHook sync ssmIt) =>
          match returns (setCleanupHook ssm (EraseSession ssmIt) (world s)) with
          | Some (_, w') =>
              Some (MkProcess w' (<[ssm := AtStart sync]> (frames s)) (ending s))
          | None => None
          end
      | _ => None
      end
  | StartSessionStarts ssm =>
      match frames s !! ssm with
      | Some (AtStart sync) =>
          match returns (startSession_start sync ssm (world s)) with
          | Some (_, w') =>
              Some (MkProcess w' (<[ssm := Returned sync]> (frames s)) (ending s))
          | None => None
          end
      | _ => None
      end
  | EndAllSessionsScans tags =>
      match returns (endAllSessions_scan tags (world s)) with
      | Some (connsToEnd, w') => Some (MkProcess w' (frames s) (ending s ++ [connsToEnd]))
      | None => None
      end
  | EndAllSessionsTerminates call =>
      match ending s !! call with
      | Some (ssm :: rest) =>
          match returns (ssm_call OpTerminate ssm (world s)) with
          | Some (_, w') => Some (MkProcess w' (frames s) (<[call := rest]> (ending s)))
          | None => None
          end
      | _ => None
      end
  | GetNumberOfConnectionsRuns =>
      match returns (getNumberOfConnections (world s)) with
      | Some (_, w') => Some (MkProcess w' (frames s) (ending s))
      | None => None
      end
  | WorkerEntersTask =>
      match returns (run_step WorkerEnters (world s)) with
      | Some (_, w') => Some (MkProcess w' (frames s) (ending s))
      | None => None
      end
  | WorkerRunsLoop ssm cores =>
      match frames s !! ssm with
      | Some (Returned true) =>
          match returns (run_step (WorkerIterates ssm cores) (world s)) with
          | Some (_, w') => Some (MkProcess w' (frames s) (ending s))
          | None => None
          end
      | _ => None
      end
  | WorkerLeavesTask =>
      match returns (run_step WorkerLeaves (world s)) with
      | Some (_, w') => Some (MkProcess w' (frames s) (ending s))
      | None => None
      end
  | ExecutorCalls op ssm =>
      match frames s !! ssm with
      | Some (Returned false) =>
          match returns (ssm_call op ssm (world s)) with
          | Some (_, w') => Some (MkProcess w' (frames s) (ending s))
          | None => None
          end
      | _ => None
      end
  end.

(** The states that the process passes through, whatever the order in which
    its threads take their turns. *)
Inductive interleaving : Process -> Prop :=
| interleaving_initial svcCtx : interleaving (initial_process svcCtx)
| interleaving_turn s a s' :
    interleaving s -> turn a s = Some s' -> interleaving s'.

(** Running a finite schedule, turn by turn. *)
Fixpoint run_turns (schedule : list Action) (s : Process) : option Process :=
  match schedule with
  | [] => Some s
  | a :: rest =>
      match turn a s with
      | Some s' => run_turns rest s'
      | None => None
      end
  end.


(** ** Vocabulary of the properties *)

(** The drivers that have not reached [Ended]. *)
Definition live (c : SSM) : bool := bool_decide (ssm_state (driver c) <> Ended).



(** The registry is consistent: the mutex is free, every node of
    [_sessions] holds the handle of an allocated driver, no two nodes hold the
    same handle, and an installed hook denotes the node of its own driver. *)
Record consistent (w : World) : Prop := {
  mutex_free : _sessionsMutex w = false;
  sessions_allocated : Forall (fun ssm => (ssm < length (drivers w))%nat) (_sessions w);
  sessions_NoDup : NoDup (_sessions w);
  hooks_valid : forall ssm c ssmIt,
    drivers w !! ssm = Some c -> cleanupHook c = Some (EraseSession ssmIt) ->
    ssmIt = ssm /\ ssm ∈ _sessions w
}.

(** The calls of driver operations in a trace, in order. *)
Definition driver_calls (evs : list Event) : list (DriverOp * Handle) :=
  omap (fun e => match e with EvCall op ssm => Some (op, ssm) | _ => None end) evs.

(** The identifiers in the log lines "Skip closing connection for connection #". *)
Definition logged (evs : list Event) : list SessionId :=
  omap (fun e => match e with EvLog i => Some i | _ => None end) evs.

(** The handles copied to [connsToEnd] in a trace, in order. *)
Definition snapshots (evs : list Event) : list Handle :=
  omap (fun e => match e with EvSnapshot ssm => Some ssm | _ => None end) evs.

Definition launched (evs : list Event) : list Handle :=
  omap (fun e => match e with EvLaunchWorker ssm => Some ssm | _ => None end) evs.

Definition yields (evs : list Event) : nat :=
  length (filter (fun e => e = EvYield) evs).

(** Following the mutex through a trace that starts with the mutex [held] or
    free: [None] when a driver is called (created, given its hook, or asked to
    run an operation) while the mutex is held, when [_sessions] is read or
    changed (a node added, erased or copied to a snapshot) while it is free, or
    when the mutex is locked twice or released while free; otherwise whether
    the mutex is held at the end. *)
Fixpoint follow_mutex (held : bool) (evs : list Event) : option bool :=
  match evs with
  | [] => Some held
  | EvLock :: rest => if held then None else follow_mutex true rest
  | EvUnlock :: rest => if held then follow_mutex false rest else None
  | (EvEmplace _ | EvErase _ | EvSnapshot _) :: rest =>
      if held then follow_mutex held rest else None
  | (EvCreate _ _ | EvSetCleanupHook _ | EvCall _ _) :: rest =>
      if held then None else follow_mutex held rest
  | _ :: rest => follow_mutex held rest
  end.

(** The tags of the session of a driver intersect the filter. *)
Definition tags_intersect (tags : TagMask) (c : SSM) : bool :=
  bool_decide (Z.land (getTags (ssm_session (driver c))) tags <> 0).

(** The registered drivers that [endAllSessions tags] is to terminate, and
    those it is to skip, in the order of [_sessions]. *)
Definition skips (tags : TagMask) (w : World) (ssm : Handle) : bool :=
  match drivers w !! ssm with
  | Some c => tags_intersect tags c
  | None => false
  end.

Definition to_terminate (tags : TagMask) (w : World) : list Handle :=
  filter (fun ssm => skips tags w ssm = false) (_sessions w).

Definition to_skip (tags : TagMask) (w : World) : list Handle :=
  filter (fun ssm => skips tags w ssm = true) (_sessions w).

(** The identifiers of the sessions of the drivers to skip. *)
Definition skipped_ids (tags : TagMask) (w : World) : list SessionId :=
  omap (fun ssm => match drivers w !! ssm with
                   | Some c => Some (id (ssm_session (driver c)))
                   | None => None
                   end) (to_skip tags w).

(** The events of a call of a driver operation: the call itself and, when it
    drives the state to [Ended] with a hook installed, the events of the hook. *)
Definition call_events (op : DriverOp) (ssm : Handle) (evs : list Event) : Prop :=
  evs = [EvCall op ssm] \/ evs = [EvCall op ssm; EvLock; EvErase ssm; EvUnlock].

(** The events of one pass of a worker through its loop, when it finds
    [_nWorkers] at [n]: a call of [runNext], then a yield if [n] exceeds the
    number of cores. *)
Definition iteration_events (ssm : Handle) (cores n : Z) (evs : list Event) : Prop :=
  exists call, call_events OpRunNext ssm call /\
               evs = call ++ (if n >? cores then [EvYield] else []).

(** The event of the first loop of [endAllSessions] at one node. *)
Definition scan_event (tags : TagMask) (w : World) (ssm : Handle) : Event :=
  match drivers w !! ssm with
  | Some c =>
      if tags_intersect tags c then EvLog (id (ssm_session (driver c)))
      else EvSnapshot ssm
  | None => EvSnapshot ssm
  end.

(** The world in which [startSession] starts the execution of the new driver:
    the driver is created, registered and given its cleanup hook. *)
Definition registered (session : Session) (remoteAddr localAddr : SockAddr)
    (w : World) : World :=
  let ssm := length (drivers w) in
  let sync := bool_decide (getServiceExecutor (_svcCtx w) = None) in
  {| _svcCtx := _svcCtx w; _nWorkers := _nWorkers w; _sessionsMutex := false;
     _sessions := ssm :: _sessions w;
     drivers := drivers w ++
                [MkSSM (ssm_create (_svcCtx w) session sync) (Some (EraseSession ssm))];
     trace := trace w ++
              [EvRestrictionEnvironment (id session) remoteAddr localAddr;
               EvCreate ssm sync; EvLock; EvEmplace ssm; EvUnlock;
               EvSetCleanupHook ssm] |}.

(** The driver needs exactly [k] more calls of [runNext] to reach [Ended]. *)
Fixpoint ends_after (k : nat) (d : D) : bool :=
  match k with
  | O => bool_decide (ssm_state d = Ended)
  | S k' => bool_decide (ssm_state d <> Ended) && ends_after k' (ssm_runNext d)
  end.

(** The handle that a step follows, if it is a step of a worker's loop or a
    call of a driver operation. *)
Definition step_handle (st : Step) : option Handle :=
  match st with
  | WorkerIterates ssm _ => Some ssm
  | DriverCall _ ssm => Some ssm
  | _ => None
  end.

(** Every node of the registry holds a driver that has not reached [Ended]
    and has its cleanup hook installed. *)
Definition registered_live (w : World) : Prop :=
  forall ssm, ssm ∈ _sessions w ->
    exists c, drivers w !! ssm = Some c /\ live c = true /\
              cleanupHook c = Some (EraseSession ssm).







(** What holds of the driver of [ssm] at each point of the call of
    [startSession] that created it. *)
Definition frame_inv (w : World) (ssm : Handle) (fr : Frame) (c : SSM) : Prop :=
  match fr with
  | AtLock _ => (ssm ∉ _sessions w) /\ cleanupHook c = None /\ live c = true
  | AtSetCleanupHook _ ssmIt =>
      ssmIt = ssm /\ ssm ∈ _sessions w /\ cleanupHook c = None
  | AtStart _ | Returned _ =>
      (cleanupHook c = None \/ cleanupHook c = Some (EraseSession ssm)) /\
      (ssm ∈ _sessions w <-> cleanupHook c <> None) /\
      (live c = true -> cleanupHook c <> None)
  end.

(** The driver is registered: its call of [startSession] is past l.63. *)
Definition past_lock (fr : Frame) : bool :=
  match fr with
  | AtLock _ => false
  | _ => true
  end.

(** Between turns every driver has the frame of its call, the mutex is free,
    no two nodes hold the same handle, every driver is as its frame says, and
    the calls of [endAllSessions] hold registered drivers only. *)
Record well_formed (s : Process) : Prop := {
  wf_frames : length (frames s) = length (drivers (world s));
  wf_mutex : _sessionsMutex (world s) = false;
  wf_NoDup : NoDup (_sessions (world s));
  wf_allocated :
    Forall (fun ssm => (ssm < length (drivers (world s)))%nat) (_sessions (world s));
  wf_frame : forall ssm fr c,
    frames s !! ssm = Some fr -> drivers (world s) !! ssm = Some c ->
    frame_inv (world s) ssm fr c;
  wf_ending : forall connsToEnd ssm,
    connsToEnd ∈ ending s -> ssm ∈ connsToEnd ->
    exists fr, frames s !! ssm = Some fr /\ past_lock fr = true
}.


(** The call of a driver operation takes the driver from another state to
    [Ended]. *)
Definition ends (op : DriverOp) (c : SSM) : bool :=
  bool_decide (ssm_state (driver c) <> Ended /\
               ssm_state (driver_op op (driver c)) = Ended).


(** [n] calls of [runNext]. *)
Definition runNext_times (n : nat) (d : D) : D := Nat.iter n ssm_runNext d.

End Registry.

Arguments World : clear implicits.
Arguments Process : clear implicits.
Arguments SSM : clear implicits.
Arguments M : clear implicits.
Arguments Result : clear implicits.
Arguments Ok {D A} a w.
Arguments Fail {D A} f.

End ServiceEntryPoint.

(** * A driver to run the registry with *)

Module Sample.

Import Session ServiceEntryPoint.

(** A driver that serves a given number of requests and then finds that the
    client has closed the connection; [terminate] forces it to [Ended], and
    [scheduleNext] only hands it to the executor. *)
Record Conn := MkConn {
  conn_session : Session;
  conn_state : State;
  conn_requests : nat
}.

Definition conn_runNext (d : Conn) : Conn :=
  match conn_state d with
  | Ended => d
  | _ =>
      match conn_requests d with
      | O => MkConn (conn_session d) Ended O
      | S n => MkConn (conn_session d) Running n
      end
  end.

Definition conn_terminate (d : Conn) : Conn :=
  MkConn (conn_session d) Ended (conn_requests d).

#[global] Instance conn_driver : Driver Conn := {|
  ssm_create := fun _ session _ => MkConn session Created 2;
  ssm_session := conn_session;
  ssm_state := conn_state;
  ssm_scheduleNext := fun d => d;
  ssm_runNext := conn_runNext;
  ssm_terminate := conn_terminate
|}.

(** Sessions from the host "internal" carry the tag 1, the others none. *)
#[global] Instance host_tags : SessionTags := fun s =>
  if String.eqb (host (remote s)) "internal" then 1 else 0.

Definition resolved (h : string) (p : Z) : HostAndPort :=
  MkHostAndPort h p (Some (MkSockAddr p)).

Definition internal_session : Session :=
  MkSession 1 (resolved "internal" 5001) (resolved "server" 27017) (Some 0%nat).

Definition client_session : Session :=
  MkSession 2 (resolved "client" 5002) (resolved "server" 27017) (Some 0%nat).

Definition unresolved_session : Session :=
  MkSession 3 (MkHostAndPort "client" 5003 None) (resolved "server" 27017) (Some 0%nat).

(** A driver that goes on serving requests for ever: no operation takes it
    to [Ended]. *)
Definition endless_driver : Driver Session := {|
  ssm_create := fun _ session _ => session;
  ssm_session := fun d => d;
  ssm_state := fun _ => Running;
  ssm_scheduleNext := fun d => d;
  ssm_runNext := fun d => d;
  ssm_terminate := fun d => d
|}.

(** The world after [steps], or the initial world if they fail. *)
Definition world_after (svcCtx : ServiceContext) (steps : list Step) : World Conn :=
  match run_steps steps (initial_world svcCtx) with
  | Ok _ w => w
  | Fail _ => initial_world svcCtx
  end.

Definition two_sessions : list Step :=
  [CallStartSession internal_session; CallStartSession client_session].

(** Two registered connections, without and with a service executor. *)
Definition sync_world : World Conn := world_after (MkServiceContext None) two_sessions.

Definition async_world : World Conn :=
  world_after (MkServiceContext (Some 0%nat)) two_sessions.

(** One registered connection served by the endless driver. *)
Definition endless_world : World Session :=
  match run_steps (H:=endless_driver) [CallStartSession client_session]
          (initial_world (MkServiceContext None)) with
  | Ok _ w => w
  | Fail _ => initial_world (MkServiceContext None)
  end.

(** The process after [schedule], or the initial process if a turn of the
    schedule cannot be taken. *)
Definition process_after (svcCtx : ServiceContext) (schedule : list Action)
    : Process Conn :=
  default (initial_process svcCtx) (run_turns schedule (initial_process svcCtx)).


(** A call of [startSession] has registered its driver and released the
    mutex; a call of [endAllSessions] has run its first loop and holds the
    driver in [connsToEnd]. *)
Definition overtaking : list Action :=
  [StartSessionCreates client_session; StartSessionRegisters 0;
   EndAllSessionsScans 0].

(** The call of [endAllSessions] then calls [terminate], and returns. *)
Definition overtaken : list Action := overtaking ++ [EndAllSessionsTerminates 0].

(** The call of [startSession] then installs the hook, launches the worker
    and returns; the worker finds the driver in [Ended] and leaves. *)
Definition overtaken_returned : list Action :=
  overtaken ++
  [StartSessionSetsCleanupHook 0; StartSessionStarts 0; WorkerEntersTask;
   WorkerRunsLoop 0 4; WorkerLeavesTask].

(** After that a second connection is started and not overtaken. *)
Definition overtaken_and_served : list Action :=
  overtaken_returned ++
  [StartSessionCreates internal_session; StartSessionRegisters 1;
   StartSessionSetsCleanupHook 1; StartSessionStarts 1].


End Sample.

(** * The JSON Schema parser: [json_schema_parser.cpp] *)

Module JSONSchema.

#[local] Set Warnings "-register-all".

(** ** BSON *)

(** The types of BSON values other than strings and embedded objects. *)
Inductive OtherType :=
| MinKey | NumberDouble | Array | BinData | Undefined | jstOID | Bool | Date
| jstNULL | RegEx | DBRef | Code | Symbol | CodeWScope | NumberInt
| bsonTimestamp | NumberLong | NumberDecimal | MaxKey.

(** [BSONType]; [EOO] is the type of the empty element. *)
Inductive BSONType :=
| EOO
| String
| Object
| Other (t : OtherType).

#[global] Instance OtherType_eq_dec : EqDecision OtherType.
Proof. solve_decision. Defined.

#[global] Instance BSONType_eq_dec : EqDecision BSONType.
Proof. solve_decision. Defined.

(** [isNumericBSONType] *)
Definition isNumericBSONType (t : BSONType) : bool :=
  match t with
  | Other (NumberDouble | NumberInt | NumberLong | NumberDecimal) => true
  | _ => false
  end.

(** A BSON value: an embedded object with its elements in order, a string, or
    a value of another type with the bytes that encode it. *)
Inductive BSONValue :=
| ValObject (elements : list (string * BSONValue))
| ValString (s : string)
| ValOther (t : OtherType) (raw : list Z).

(** A non-empty [BSONElement]: a field name and a value.  The empty element
    is [None] where an element may be empty. *)
Abbreviation BSONElement := (string * BSONValue)%type.

(** A [BSONObj]: its elements in order. *)
Abbreviation BSONObj := (list BSONElement).

Definition fieldNameStringData (elt : BSONElement) : string := fst elt.

Definition type (elt : BSONElement) : BSONType :=
  match snd elt with
  | ValObject _ => Object
  | ValString _ => String
  | ValOther t _ => Other t
  end.

Definition isNumber (elt : BSONElement) : bool := isNumericBSONType (type elt).

(** [embeddedObject()] and [valueStringData()]; the parser calls them on
    elements of type [Object] and [String] only. *)
Definition embeddedObject (elt : BSONElement) : BSONObj :=
  match snd elt with
  | ValObject elements => elements
  | _ => []
  end.

Definition valueStringData (elt : BSONElement) : string :=
  match snd elt with
  | ValString s => s
  | _ => ""
  end.

(** ** Results *)

(** The error codes that the parser returns itself, and those that come back
    from the matcher library. *)
Inductive ErrorCodes :=
| TypeMismatch
| FailedToParse
| LibraryError (code : Z).

(** A [Status]. *)
Inductive Status :=
| StatusOK
| StatusError (code : ErrorCodes) (reason : string).

(** A [StatusWith<T>]: a value or an error status. *)
Inductive StatusWith (T : Type) :=
| Value (v : T)
| Error (code : ErrorCodes) (reason : string).

Arguments Value {T} v.
Arguments Error {T} code reason.

(** What a call of the parser does: it returns, or the process is terminated
    by a failed [invariant], or the recursion is cut off. *)
Inductive Run (T : Type) :=
| Returns (r : StatusWith T)
| InvariantFailure
| OutOfFuel.

Arguments Returns {T} r.
Arguments InvariantFailure {T}.
Arguments OutOfFuel {T}.

(** A call whose result is returned at once unless it is a value:
    [if (!result.isOK()) return result.getStatus();] *)
Definition and_then {A B} (m : Run A) (k : A -> Run B) : Run B :=
  match m with
  | Returns (Value v) => k v
  | Returns (Error code reason) => Returns (Error code reason)
  | InvariantFailure => InvariantFailure
  | OutOfFuel => OutOfFuel
  end.

(** A [Status] as a result without a value. *)
Definition of_status (s : Status) : Run unit :=
  match s with
  | StatusOK => Returns (Value tt)
  | StatusError code reason => Returns (Error code reason)
  end.

(** [invariantOK(status)] *)
Definition invariantOK (s : Status) : Run unit :=
  match s with
  | StatusOK => Returns (Value tt)
  | StatusError _ _ => InvariantFailure
  end.

(** [invariant(b)] *)
Definition invariant (b : bool) : Run unit :=
  if b then Returns (Value tt) else InvariantFailure.

(** ** Match expressions *)

(** [TypeMatchExpression::Type] *)
Record Type_ := MkType {
  allNumbers : bool;
  bsonType : BSONType
}.

(** The contents of a [TypeMatchExpression]: its path and its type, with the
    accessors [matchesAllNumbers()] and [getBSONType()]. *)
Record TypeMatch := MkTypeMatch {
  typePath : string;
  typeOf : Type_
}.

Definition matchesAllNumbers (e : TypeMatch) : bool := allNumbers (typeOf e).
Definition getBSONType (e : TypeMatch) : BSONType := bsonType (typeOf e).

(** The match expressions that the parser builds. *)
Inductive MatchExpression :=
| AndMatchExpression (children : list MatchExpression)
| OrMatchExpression (children : list MatchExpression)
| NotMatchExpression (child : MatchExpression)
| TypeMatchExpression (e : TypeMatch)
| LTEMatchExpression (path : string) (rhs : BSONElement)
| InternalSchemaObjectMatchExpression (path : string) (sub : MatchExpression)
| FalseMatchExpression (path : string).

(** [MatchExpression::path()]: the path of a leaf or of an object match; tree
    nodes have the empty path. *)
Definition path (e : MatchExpression) : string :=
  match e with
  | TypeMatchExpression t => typePath t
  | LTEMatchExpression p _ => p
  | InternalSchemaObjectMatchExpression p _ => p
  | FalseMatchExpression p => p
  | _ => ""
  end.

(** The functions of the matcher library that the parser calls; they are
    defined in files that are not among the sources. *)
Class MatcherLibrary := {
  (** [MatchExpressionParser::parseTypeFromAlias(path, typeAlias)] *)
  parseTypeFromAlias : string -> string -> StatusWith TypeMatch;
  (** [TypeMatchExpression::Type()] and the conversion [Type(BSONType)] *)
  Type_default : Type_;
  Type_from : BSONType -> Type_;
  (** [TypeMatchExpression::init(path, type)] *)
  TypeMatchExpression_init : string -> Type_ -> Status;
  (** [ComparisonMatchExpression::init(path, rhs)], for [LTEMatchExpression] *)
  LTEMatchExpression_init : string -> BSONElement -> Status;
  (** [InternalSchemaObjectMatchExpression::init(expr, path)] *)
  InternalSchemaObjectMatchExpression_init : MatchExpression -> string -> Status
}.

Section Parser.

Context `{MatcherLibrary}.

Notation "x <- m ;; k" := (and_then m (fun x => k))
  (at level 60, m at next level, right associativity).
Notation "m ;;; k" := (and_then m (fun _ => k))
  (at level 60, right associativity).

(** JSON Schema keyword constants. *)
Definition kSchemaMaximumKeyword : string := "maximum".
Definition kSchemaPropertiesKeyword : string := "properties".
Definition kSchemaTypeKeyword : string := "type".

(** [makeRestriction(restrictionType, restrictionExpr, statedType)] *)
Definition makeRestriction (restrictionType : Type_) (restrictionExpr : MatchExpression)
    (statedType : option TypeMatch) : Run MatchExpression :=
  match statedType with
  | Some stated =>
      let bothNumeric :=
        allNumbers restrictionType &&
        (matchesAllNumbers stated || isNumericBSONType (getBSONType stated)) in
      let bsonTypesMatch :=
        bool_decide (bsonType restrictionType = getBSONType stated) in
      if bothNumeric || bsonTypesMatch then Returns (Value restrictionExpr)
      else Returns (Value (AndMatchExpression []))
  | None =>
      invariant (negb (bool_decide (is_Some statedType))) ;;;
      invariantOK (TypeMatchExpression_init (path restrictionExpr) restrictionType) ;;;
      let typeExprForNot :=
        TypeMatchExpression (MkTypeMatch (path restrictionExpr) restrictionType) in
      let notExpr := NotMatchExpression typeExprForNot in
      Returns (Value (OrMatchExpression [notExpr; restrictionExpr]))
  end.

(** [parseType(path, typeElt)]: [typeElt] may be the empty element, and the
    value returned may be the null pointer. *)
Definition parseType (path : string) (typeElt : option BSONElement)
    : Run (option TypeMatch) :=
  match typeElt with
  | None => Returns (Value None)
  | Some typeElt =>
      if decide (type typeElt <> String) then
        Returns (Error TypeMismatch
          ("$jsonSchema keyword '" +:+ kSchemaTypeKeyword +:+ "' must be a string"))
      else
        e <- Returns (parseTypeFromAlias path (valueStringData typeElt)) ;;
        Returns (Value (Some e))
  end.

(** [parseMaximum(path, maximum, typeExpr)] *)
Definition parseMaximum (path : string) (maximum : BSONElement)
    (typeExpr : option TypeMatch) : Run MatchExpression :=
  if negb (isNumber maximum) then
    Returns (Error TypeMismatch
      ("$jsonSchema keyword '" +:+ kSchemaMaximumKeyword +:+ "' must be a number"))
  else if decide (path = "") then Returns (Value (AndMatchExpression []))
  else
    of_status (LTEMatchExpression_init path maximum) ;;;
    let lteExpr := LTEMatchExpression path maximum in
    let restrictionType := MkType true (bsonType Type_default) in
    makeRestriction restrictionType lteExpr typeExpr.

(** The loop of [_parseProperties] over the elements of [propertiesObj];
    [parse] is the recursive call of [_parse], and [andExpr] holds the children
    added so far. *)
Fixpoint parseProperties_loop (parse : string -> BSONObj -> Run MatchExpression)
    (properties : list BSONElement) (andExpr : list MatchExpression)
    : Run (list MatchExpression) :=
  match properties with
  | [] => Returns (Value andExpr)
  | property :: rest =>
      if decide (type property <> Object) then
        Returns (Error TypeMismatch
          ("Nested schema for $jsonSchema property '" +:+
           fieldNameStringData property +:+ "' must be an object"))
      else
        nestedSchemaMatch <-
          parse (fieldNameStringData property) (embeddedObject property) ;;
        parseProperties_loop parse rest (andExpr ++ [nestedSchemaMatch])
  end.

(** [JSONSchemaParser::_parseProperties(path, propertiesElt, typeExpr)] *)
Definition _parseProperties_with (parse : string -> BSONObj -> Run MatchExpression)
    (path : string) (propertiesElt : BSONElement) (typeExpr : option TypeMatch)
    : Run MatchExpression :=
  if decide (type propertiesElt <> Object) then
    Returns (Error TypeMismatch
      ("$jsonSchema keyword '" +:+ kSchemaPropertiesKeyword +:+ "' must be an object"))
  else
    let propertiesObj := embeddedObject propertiesElt in
    children <- parseProperties_loop parse propertiesObj [] ;;
    let andExpr := AndMatchExpression children in
    if decide (path = "") then Returns (Value andExpr)
    else
      of_status (InternalSchemaObjectMatchExpression_init andExpr path) ;;;
      makeRestriction (Type_from Object)
        (InternalSchemaObjectMatchExpression path andExpr) typeExpr.

(** The [StringMap<BSONElement> keywordMap] of [_parse]: each keyword is
    mapped to its element of the schema, or to the empty element. *)
Definition keywordMap_init : gmap string (option BSONElement) :=
  <[kSchemaTypeKeyword := None]>
    (<[kSchemaPropertiesKeyword := None]>
       (<[kSchemaMaximumKeyword := None]> ∅)).

(** [keywordMap[keyword]] *)
Definition keyword (keywordMap : gmap string (option BSONElement)) (k : string)
    : option BSONElement :=
  default None (keywordMap !! k).

(** The first loop of [_parse], over the elements of the schema. *)
Fixpoint collect_keywords (schema : list BSONElement)
    (keywordMap : gmap string (option BSONElement))
    : Run (gmap string (option BSONElement)) :=
  match schema with
  | [] => Returns (Value keywordMap)
  | elt :: rest =>
      match keywordMap !! fieldNameStringData elt with
      | None =>
          Returns (Error FailedToParse
            ("Unknown $jsonSchema keyword: " +:+ fieldNameStringData elt))
      | Some (Some _) =>
          Returns (Error FailedToParse
            ("Duplicate $jsonSchema keyword: " +:+ fieldNameStringData elt))
      | Some None =>
          collect_keywords rest (<[fieldNameStringData elt := Some elt]> keywordMap)
      end
  end.

(** What [_parse] does once [keywordMap] is filled; [parse] is the recursive
    call of [_parse]. *)
Definition parse_keywords (parse : string -> BSONObj -> Run MatchExpression)
    (path : string) (keywordMap : gmap string (option BSONElement))
    : Run MatchExpression :=
  typeExpr <- parseType path (keyword keywordMap kSchemaTypeKeyword) ;;
  let andExpr := [] in
  andExpr <-
    match keyword keywordMap kSchemaPropertiesKeyword with
    | Some propertiesElt =>
        propertiesExpr <- _parseProperties_with parse path propertiesElt typeExpr ;;
        Returns (Value (andExpr ++ [propertiesExpr]))
    | None => Returns (Value andExpr)
    end ;;
  andExpr <-
    match keyword keywordMap kSchemaMaximumKeyword with
    | Some maximumElt =>
        maxExpr <- parseMaximum path maximumElt typeExpr ;;
        Returns (Value (andExpr ++ [maxExpr]))
    | None => Returns (Value andExpr)
    end ;;
  match typeExpr with
  | Some te =>
      if decide (path = "") then
        if decide (getBSONType te <> Object)
        then Returns (Value (FalseMatchExpression ""))
        else Returns (Value (AndMatchExpression andExpr))
      else
        Returns (Value (AndMatchExpression (andExpr ++ [TypeMatchExpression te])))
  | None => Returns (Value (AndMatchExpression andExpr))
  end.

(** [JSONSchemaParser::_parse(path, schema)], with at most [fuel] nested
    calls. *)
Fixpoint _parse (fuel : nat) (path : string) (schema : BSONObj)
    : Run MatchExpression :=
  match fuel with
  | O => OutOfFuel
  | S fuel' =>
      keywordMap <- collect_keywords schema keywordMap_init ;;
      parse_keywords (_parse fuel') path keywordMap
  end.

(** [JSONSchemaParser::_parseProperties] with its recursive calls. *)
Definition _parseProperties (fuel : nat) :=
  _parseProperties_with (_parse fuel).

(** [JSONSchemaParser::parse(schema)] *)
Definition parse (fuel : nat) (schema : BSONObj) : Run MatchExpression :=
  _parse fuel "" schema.

(** ** Vocabulary of the properties *)

(** The keywords that the parser knows. *)
Definition known_keyword (k : string) : Prop :=
  k = kSchemaTypeKeyword \/ k = kSchemaPropertiesKeyword \/ k = kSchemaMaximumKeyword.

(** The field names of a schema are known keywords, each used once. *)
Definition keywords_well_formed (schema : BSONObj) : Prop :=
  Forall (fun elt => known_keyword (fieldNameStringData elt)) schema /\
  NoDup (map fieldNameStringData schema).

#[global] Instance keywords_well_formed_dec schema :
  Decision (keywords_well_formed schema).
Proof. unfold keywords_well_formed, known_keyword. apply _. Defined.

(** The schema has the keyword [k]. *)
Definition has_keyword (k : string) (schema : BSONObj) : bool :=
  bool_decide (k ∈ map fieldNameStringData schema).

(** Down to [depth] levels of nesting, a schema below the top level that has
    [maximum] or [properties] has [type] as well. *)
Fixpoint states_types (depth : nat) (path : string) (schema : BSONObj) : bool :=
  match depth with
  | O => true
  | S depth' =>
      (bool_decide (path = "") ||
       negb (has_keyword kSchemaMaximumKeyword schema ||
             has_keyword kSchemaPropertiesKeyword schema) ||
       has_keyword kSchemaTypeKeyword schema) &&
      forallb
        (fun elt =>
           negb (bool_decide (fieldNameStringData elt = kSchemaPropertiesKeyword)) ||
           forallb (fun property =>
                      states_types depth' (fieldNameStringData property)
                        (embeddedObject property))
                   (embeddedObject elt))
        schema
  end.

(** What the first loop of [_parse] does to [keywordMap] for an element that
    it accepts. *)
Definition store (m : gmap string (option BSONElement)) (elt : BSONElement)
    : gmap string (option BSONElement) :=
  <[fieldNameStringData elt := Some elt]> m.

(** Every element of the schema finds its keyword in the map, still mapped to
    the empty element, and no field name is repeated. *)
Definition keywords_free (schema : BSONObj) (m : gmap string (option BSONElement))
    : Prop :=
  Forall (fun elt => m !! fieldNameStringData elt = Some None) schema /\
  NoDup (map fieldNameStringData schema).

(** The value of a keyword has the type that the parser asks for. *)
Definition well_typed_keyword (elt : BSONElement) : Prop :=
  (fieldNameStringData elt = kSchemaTypeKeyword -> type elt = String) /\
  (fieldNameStringData elt = kSchemaPropertiesKeyword ->
   type elt = Object /\
   Forall (fun property => type property = Object) (embeddedObject elt)) /\
  (fieldNameStringData elt = kSchemaMaximumKeyword -> isNumber elt = true).

(** [children] are the nested schemas of [properties], parsed by [parse] in
    order, each with the name of its property as path. *)
Definition nested_matches (parse : string -> BSONObj -> Run MatchExpression)
    (properties : list BSONElement) (children : list MatchExpression) : Prop :=
  Forall2 (fun property child =>
             type property = Object /\
             parse (fieldNameStringData property) (embeddedObject property) =
             Returns (Value child))
          properties children.

(** The depth to which objects are nested in the elements of an object. *)
Fixpoint value_depth (v : BSONValue) : nat :=
  match v with
  | ValObject elements =>
      S ((fix elements_depth (l : list (string * BSONValue)) : nat :=
            match l with
            | [] => O
            | (_, x) :: rest => Nat.max (value_depth x) (elements_depth rest)
            end) elements)
  | _ => O
  end.

Fixpoint object_depth (obj : BSONObj) : nat :=
  match obj with
  | [] => O
  | (_, x) :: rest => Nat.max (value_depth x) (object_depth rest)
  end.

End Parser.

(** ** A matcher library to run the parser with, and sample schemas *)

(** The type aliases of the sample library. *)
Definition alias_type (typeAlias : string) : option Type_ :=
  if String.eqb typeAlias "number" then Some (MkType true EOO)
  else if String.eqb typeAlias "object" then Some (MkType false Object)
  else if String.eqb typeAlias "string" then Some (MkType false String)
  else if String.eqb typeAlias "int" then Some (MkType false (Other NumberInt))
  else if String.eqb typeAlias "double" then Some (MkType false (Other NumberDouble))
  else if String.eqb typeAlias "bool" then Some (MkType false (Other Bool))
  else None.

#[global] Instance sample_library : MatcherLibrary := {|
  parseTypeFromAlias := fun path typeAlias =>
    match alias_type typeAlias with
    | Some t => Value (MkTypeMatch path t)
    | None => Error (LibraryError 2) ("Unknown string alias for $type: " +:+ typeAlias)
    end;
  Type_default := MkType false EOO;
  Type_from := fun t => MkType false t;
  TypeMatchExpression_init := fun _ _ => StatusOK;
  LTEMatchExpression_init := fun _ _ => StatusOK;
  InternalSchemaObjectMatchExpression_init := fun _ _ => StatusOK
|}.

(** [{type: "object", properties: {age: {type: "int", maximum: 150},
      name: {type: "string"}}}] *)
Definition person_schema : BSONObj :=
  [("type", ValString "object");
   ("properties",
    ValObject
      [("age", ValObject [("type", ValString "int");
                          ("maximum", ValOther NumberInt [150])]);
       ("name", ValObject [("type", ValString "string")])])].

(** [{type: "int", maximum: 150}], the schema of [age]. *)
Definition age_schema : BSONObj :=
  [("type", ValString "int"); ("maximum", ValOther NumberInt [150])].

(** [{minimum: 0}]: a keyword that the parser does not know. *)
Definition minimum_schema : BSONObj := [("minimum", ValOther NumberInt [0])].

(** [{type: 2}]: a type that is given as a number. *)
Definition numeric_type_schema : BSONObj := [("type", ValOther NumberInt [2])].

(** [{type: "string", maximum: 3}] *)
Definition string_schema : BSONObj :=
  [("type", ValString "string"); ("maximum", ValOther NumberInt [3])].

(** [properties: {a: {}, b: {minimum: 0}, c: "x"}] *)
Definition broken_properties : BSONElement :=
  ("properties",
   ValObject [("a", ValObject []); ("b", ValObject minimum_schema);
              ("c", ValString "x")]).

(** A matcher library whose [TypeMatchExpression::init] refuses every path
    and type. *)
Definition refusing_library : MatcherLibrary := {|
  parseTypeFromAlias := fun path typeAlias =>
    match alias_type typeAlias with
    | Some t => Value (MkTypeMatch path t)
    | None => Error (LibraryError 2) ("Unknown string alias for $type: " +:+ typeAlias)
    end;
  Type_default := MkType false EOO;
  Type_from := fun t => MkType false t;
  TypeMatchExpression_init := fun _ _ => StatusError (LibraryError 2) "refused";
  LTEMatchExpression_init := fun _ _ => StatusOK;
  InternalSchemaObjectMatchExpression_init := fun _ _ => StatusOK
|}.

(** [{properties: {age: {maximum: 150}}}]: a restriction without a type. *)
Definition untyped_schema : BSONObj :=
  [("properties",
    ValObject [("age", ValObject [("maximum", ValOther NumberInt [150])])])].

End JSONSchema.

(** * Properties of the connection endpoint *)

Module SessionProps.

Import Session.

(** ** Moves *)

(** The move constructor copies the identifier, the addresses and the
    transport-layer reference to the new session and clears the reference of
    the source. *)
Lemma move_construct_transfers moved_from other :
  let '(this, other') := Session_move_construct moved_from other in
  _id this = _id other /\ _remote this = _remote other /\
  _local this = _local other /\ _tl this = _tl other /\ _tl other' = None.
Proof. destruct other; cbn; auto. Qed.

(** C1 (move assignment): the identifier and the addresses are copied to the
    destination, but the last statement, [_tl = nullptr], clears the reference
    that was just copied to the destination: after [a = std::move(b)] the
    destination [a] holds no transport-layer reference and the source [b]
    still holds its own. *)
Theorem move_assign_clears_destination moved_from this other :
  let '(this', other') := Session_move_assign moved_from this other in
  _id this' = _id other /\ _remote this' = _remote other /\
  _local this' = _local other /\
  _tl this' = None /\ _tl other' = _tl other.
Proof. destruct this, other; cbn; auto. Qed.

(** An attached session that is the source of a move assignment. *)
Example move_assign_attached_source :
  let a := MkSession 1 (MkHostAndPort "a" 1 None) (MkHostAndPort "b" 2 None) None in
  let b := MkSession 2 (MkHostAndPort "c" 3 None) (MkHostAndPort "d" 4 None) (Some 7%nat) in
  let '(a', b') := Session_move_assign (fun hp => hp) a b in
  _tl a' = None /\ _tl b' = Some 7%nat.
Proof. cbn. auto. Qed.

Lemma destroy_detached s log : _tl s = None -> Session_destroy s log = log.
Proof. unfold Session_destroy. intros ->. reflexivity. Qed.

Lemma destroy_all_detached ss log :
  Forall (fun s => _tl s = None) ss -> destroy_all ss log = log.
Proof.
  unfold destroy_all. induction 1 as [|s ss Hs _ IH]; cbn; [reflexivity|].
  rewrite (destroy_detached s log Hs). exact IH.
Qed.

Lemma move_chain_spec moved_from n : forall s,
  let '(final, husks) := move_chain moved_from n s in
  _id final = _id s /\ _tl final = _tl s /\ Forall (fun h => _tl h = None) husks.
Proof.
  induction n as [|n IH]; intros s; cbn.
  - auto.
  - specialize (IH {| _id := _id s; _remote := _remote s;
                      _local := _local s; _tl := _tl s |}).
    destruct (move_chain moved_from n _) as [final husks].
    cbn in IH. destruct IH as (Hid & Htl & Hh).
    repeat split; try assumption. constructor; [reflexivity | assumption].
Qed.

(** X1: along a chain of move constructions, destroying the moved-from sessions
    notifies no transport layer, and destroying the final destination of an
    attached session notifies its transport layer once. *)
Lemma move_construct_chain_notifies_once moved_from n s log :
  let '(final, husks) := move_chain moved_from n s in
  destroy_all husks log = log /\
  Session_destroy final log = Session_destroy s log.
Proof.
  pose proof (move_chain_spec moved_from n s) as Hc.
  destruct (move_chain moved_from n s) as [final husks].
  destruct Hc as (Hid & Htl & Hh). split.
  - apply destroy_all_detached, Hh.
  - unfold Session_destroy. rewrite Htl, Hid. reflexivity.
Qed.

(** C2 (move assignment): after [a = std::move(b)], destroying the moved-from
    session [b] notifies the transport layer exactly as destroying the original
    would have, and destroying the destination [a] notifies nobody. *)
Theorem move_assign_source_still_notifies moved_from this other log :
  let '(this', other') := Session_move_assign moved_from this other in
  Session_destroy other' log = Session_destroy other log /\
  Session_destroy this' log = log.
Proof. destruct this, other; cbn. auto. Qed.

(** The notification of an attached source of a move assignment, on a
    concrete pair of sessions. *)
Example move_assign_source_notifies :
  let a := MkSession 1 (MkHostAndPort "a" 1 None) (MkHostAndPort "b" 2 None) None in
  let b := MkSession 2 (MkHostAndPort "c" 3 None) (MkHostAndPort "d" 4 None) (Some 7%nat) in
  let '(a', b') := Session_move_assign (fun hp => hp) a b in
  Session_destroy b' [] = [MkEndCall 7%nat 2] /\ Session_destroy a' [] = [].
Proof. cbn. auto. Qed.

(** ** Identifiers *)

Lemma construct_all_ids calls : forall c,
  map _id (fst (construct_all calls c)) =
  map (fun k => (c + Z.of_nat k) mod UInt64_modulus) (seq 1 (length calls)) /\
  snd (construct_all calls c) =
  (if calls is [] then c else (c + Z.of_nat (length calls)) mod UInt64_modulus).
Proof.
  induction calls as [|[[r l] tl] calls IH]; intros c; cbn [construct_all].
  - split; reflexivity.
  - unfold Session_new. specialize (IH (addAndFetch c 1)).
    destruct (construct_all calls (addAndFetch c 1)) as [ss c2].
    cbn [fst snd] in *. destruct IH as [IH1 IH2]. split.
    + cbn [map length seq _id]. f_equal.
      rewrite IH1, <- (seq_shift (length calls) 1), map_map. apply map_ext. intros k.
      unfold addAndFetch. rewrite Zplus_mod_idemp_l. f_equal. lia.
    + rewrite IH2. destruct calls as [|x calls]; cbn [length].
      * unfold addAndFetch. f_equal.
      * unfold addAndFetch. rewrite Zplus_mod_idemp_l. f_equal. lia.
Qed.

Lemma small_ids n :
  Z.of_nat n < UInt64_modulus ->
  map (fun k => (sessionIdCounter_init + Z.of_nat k) mod UInt64_modulus) (seq 1 n) =
  map Z.of_nat (seq 1 n).
Proof.
  intros Hn. apply map_ext_in. intros k Hk. apply in_seq in Hk.
  unfold sessionIdCounter_init. rewrite Z.add_0_l. apply Z.mod_small. lia.
Qed.

Lemma count_from_sorted n : forall a, StronglySorted Z.lt (map Z.of_nat (seq a n)).
Proof.
  induction n as [|n IH]; intros a; cbn; constructor.
  - apply IH.
  - apply List.Forall_forall. intros x Hx. apply in_map_iff in Hx.
    destruct Hx as (k & <- & Hk). apply in_seq in Hk. lia.
Qed.

(** C5, amended: as long as fewer than [2^64] sessions are constructed, the
    k-th session constructed is given the identifier [k], the value of the
    counter after its own increment; the identifiers are pairwise distinct,
    never zero and increasing in construction order. *)
Theorem assigned_ids_unique_nonzero_increasing calls :
  Z.of_nat (length calls) < UInt64_modulus ->
  assigned_ids calls = map Z.of_nat (seq 1 (length calls)) /\
  ids_unique_nonzero_increasing (assigned_ids calls).
Proof.
  intros Hn. unfold assigned_ids.
  destruct (construct_all_ids calls sessionIdCounter_init) as [-> _].
  rewrite (small_ids _ Hn). split; [reflexivity|].
  repeat split.
  - apply NoDup_fmap_2; [intros x y; lia | apply NoDup_ListNoDup, seq_NoDup].
  - apply List.Forall_forall. intros x Hx. apply in_map_iff in Hx.
    destruct Hx as (k & <- & Hk). apply in_seq in Hk. lia.
  - apply count_from_sorted.
Qed.

Lemma assigned_ids_unique_nonzero_increasing_witness :
  let hp := MkHostAndPort "h" 27017 None in
  let calls := [(hp, hp, None); (hp, hp, Some 1%nat); (hp, hp, None)] in
  assigned_ids calls = map Z.of_nat (seq 1 (length calls)) /\
  ids_unique_nonzero_increasing (assigned_ids calls).
Proof.
  apply (assigned_ids_unique_nonzero_increasing
           [(MkHostAndPort "h" 27017 None, MkHostAndPort "h" 27017 None, None);
            (MkHostAndPort "h" 27017 None, MkHostAndPort "h" 27017 None, Some 1%nat);
            (MkHostAndPort "h" 27017 None, MkHostAndPort "h" 27017 None, None)]).
  vm_compute. reflexivity.
Defined.

(** C5 as stated fails: the counter is a 64-bit word, and the session
    constructed by the [2^64]-th call is given the identifier zero. *)
Lemma ids_wrap_around :
  ~ (forall calls, ids_unique_nonzero_increasing (assigned_ids calls)).
Proof.
  intros Hall.
  assert (exists n : nat, Z.of_nat n = UInt64_modulus) as [n Hn].
  { exists (Z.to_nat UInt64_modulus). apply Z2Nat.id. unfold UInt64_modulus. lia. }
  set (hp := MkHostAndPort "h" 27017 None).
  destruct (Hall (repeat (hp, hp, None) n)) as (_ & Hnz & _).
  unfold assigned_ids in Hnz.
  destruct (construct_all_ids (repeat (hp, hp, None) n) sessionIdCounter_init) as [Hids _].
  rewrite Hids, repeat_length in Hnz.
  rewrite List.Forall_forall in Hnz. apply (Hnz 0); [|reflexivity].
  apply in_map_iff. exists n. split.
  - unfold sessionIdCounter_init. rewrite Hn, Z.add_0_l. apply Z_mod_same_full.
  - apply in_seq. unfold UInt64_modulus in Hn. lia.
Qed.

End SessionProps.

(** * Properties of the registry *)

Module RegistryProps.

Import Session ServiceEntryPoint.

(** ** Erasing a node *)

Lemma list_erase_elem_of (x : Handle) (l : SSMList) :
  x ∈ l -> exists l', list_erase x l = Some l'.
Proof.
  induction l as [|y l IH]; intros Hx; [by apply elem_of_nil in Hx|].
  cbn. destruct (decide (y = x)) as [->|Hne]; [eauto|].
  apply elem_of_cons in Hx as [->|Hx]; [done|].
  destruct (IH Hx) as [l' ->]. eauto.
Qed.

Lemma list_erase_Some (x : Handle) (l l' : SSMList) :
  list_erase x l = Some l' ->
  exists l1 l2, l = l1 ++ x :: l2 /\ l' = l1 ++ l2 /\ x ∉ l1.
Proof.
  revert l'. induction l as [|y l IH]; intros l' Hl; [discriminate|].
  cbn in Hl. destruct (decide (y = x)) as [->|Hne].
  - injection Hl as <-. exists [], l. repeat split. apply not_elem_of_nil.
  - destruct (list_erase x l) as [r|] eqn:Hr; [|discriminate].
    injection Hl as <-. destruct (IH r eq_refl) as (l1 & l2 & -> & -> & Hx).
    exists (y :: l1), l2. repeat split. intros [?|?]%elem_of_cons; congruence.
Qed.


Lemma list_erase_NoDup (x : Handle) (l l' : SSMList) :
  NoDup l -> list_erase x l = Some l' ->
  NoDup l' /\ forall y, y ∈ l' <-> y ∈ l /\ y <> x.
Proof.
  intros Hnd (l1 & l2 & -> & -> & Hx1)%list_erase_Some.
  apply NoDup_app in Hnd as (Hn1 & Hdisj & Hn2).
  apply NoDup_cons in Hn2 as [Hx2 Hn2]. split.
  - apply NoDup_app. repeat split; try done.
    intros y Hy1 Hy2. apply (Hdisj y Hy1). by right.
  - intros y. rewrite !elem_of_app, elem_of_cons. split.
    + intros [Hy|Hy]; (split; [tauto|]); intros ->; done.
    + intros [[Hy|[->|Hy]] Hne]; tauto.
Qed.

Lemma insert_snoc {A} (l : list A) (x y : A) :
  <[length l := y]> (l ++ [x]) = l ++ [y].
Proof.
  pose proof (insert_app_r l [x] 0 y) as Hi.
  rewrite Nat.add_0_r in Hi. exact Hi.
Qed.

(** ** Running computations *)

Section Run.

Context {D : Type} `{Driver D} `{SessionTags}.

Lemma bind_Ok {A B} (m : M D A) (k : A -> M D B) w a w' :
  m w = Ok a w' -> bind m k w = k a w'.
Proof. unfold bind. intros ->. reflexivity. Qed.

Lemma consistent_same_sessions (w w' : World D) ssm c c' :
  consistent w -> drivers w !! ssm = Some c ->
  _sessionsMutex w' = false -> _sessions w' = _sessions w ->
  drivers w' = <[ssm := c']> (drivers w) ->
  (cleanupHook c' = cleanupHook c \/ cleanupHook c' = None) ->
  consistent w'.
Proof.
  intros [Hmx Hal Hnd Hhk] Hssm Hmx' Hs Hd Hhook.
  pose proof (lookup_lt_Some _ _ _ Hssm) as Hlt.
  split; rewrite ?Hs, ?Hd, ?length_insert; try done.
  intros h ch it Hh Hit.
  destruct (decide (h = ssm)) as [->|Hne].
  - rewrite list_lookup_insert_eq in Hh by done. injection Hh as <-.
    destruct Hhook as [Heq|Heq]; rewrite Heq in Hit; [|done]. eauto.
  - rewrite list_lookup_insert_ne in Hh by done. eauto.
Qed.

Lemma consistent_erased (w w' : World D) ssm c c' :
  consistent w -> drivers w !! ssm = Some c ->
  _sessionsMutex w' = false ->
  list_erase ssm (_sessions w) = Some (_sessions w') ->
  drivers w' = <[ssm := c']> (drivers w) ->
  cleanupHook c' = None ->
  consistent w'.
Proof.
  intros [Hmx Hal Hnd Hhk] Hssm Hmx' Hs Hd Hhook.
  pose proof (lookup_lt_Some _ _ _ Hssm) as Hlt.
  destruct (list_erase_NoDup _ _ _ Hnd Hs) as [Hnd' Hin'].
  split; rewrite ?Hd, ?length_insert; try done.
  - apply Forall_forall. intros h [Hh _]%Hin'. rewrite Forall_forall in Hal. by apply Hal.
  - intros h ch it Hh Hit.
    destruct (decide (h = ssm)) as [->|Hne].
    + rewrite list_lookup_insert_eq in Hh by done. injection Hh as <-. congruence.
    + rewrite list_lookup_insert_ne in Hh by done.
      destruct (Hhk h ch it Hh Hit) as [-> Hin]. split; [done|]. apply Hin'. by split.
Qed.

(** What a call of a driver operation returns and leaves behind. *)
Lemma ssm_call_spec op ssm (w : World D) c :
  consistent w -> drivers w !! ssm = Some c ->
  let d' := driver_op op (driver c) in
  let ends := bool_decide (ssm_state (driver c) <> Ended /\ ssm_state d' = Ended) in
  exists w',
    ssm_call op ssm w = Ok tt w' /\ consistent w' /\
    _svcCtx w' = _svcCtx w /\ _nWorkers w' = _nWorkers w /\
    drivers w' = <[ssm := MkSSM d' (if ends then None else cleanupHook c)]> (drivers w) /\
    ((ends = true /\ cleanupHook c = Some (EraseSession ssm) /\
      list_erase ssm (_sessions w) = Some (_sessions w') /\
      trace w' = trace w ++ [EvCall op ssm; EvLock; EvErase ssm; EvUnlock]) \/
     ((ends = false \/ cleanupHook c = None) /\
      _sessions w' = _sessions w /\
      trace w' = trace w ++ [EvCall op ssm])).
Proof.
  intros Hc Hssm d' ends.
  pose proof Hc as [Hmx Hal Hnd Hhk].
  unfold ssm_call, bind, get_ssm. rewrite Hssm. cbn [emit].
  fold d'. destruct (decide _) as [Hends|Hends].
  - assert (ends = true) as -> by (by apply bool_decide_eq_true).
    destruct (cleanupHook c) as [[ssmIt]|] eqn:Hhook.
    + destruct (Hhk ssm c ssmIt Hssm Hhook) as [-> Hin].
      destruct (list_erase_elem_of _ _ Hin) as [l' Hl'].
      unfold put_ssm, set_drivers, run_cleanupHook, bind, lock, sessions_erase, bind,
        get_sessions, unlock, set_sessions, emit; cbn.
      rewrite Hmx. cbn. rewrite Hl'. cbn.
      eexists; split; [reflexivity|]. cbn. split.
      { eapply consistent_erased; eauto; done. }
      repeat split. left. repeat split; try done.
      by rewrite <- !app_assoc.
    + unfold put_ssm, set_drivers; cbn. eexists; split; [reflexivity|]. cbn. split.
      { eapply consistent_same_sessions; eauto; cbn; auto. }
      repeat split; try done. right. auto.
  - assert (ends = false) as -> by (by apply bool_decide_eq_false).
    unfold put_ssm, set_drivers; cbn. eexists; split; [reflexivity|]. cbn. split.
    { eapply consistent_same_sessions; eauto; cbn; auto. }
    repeat split; try done. right. auto.
Qed.

Lemma ssm_call_dangling op ssm (w : World D) :
  drivers w !! ssm = None -> ssm_call op ssm w = Fail DanglingHandle.
Proof. intros Hn. unfold ssm_call, bind, get_ssm. by rewrite Hn. Qed.

(** ** Traces *)

Lemma driver_calls_app (a b : list Event) :
  driver_calls (a ++ b) = driver_calls a ++ driver_calls b.
Proof. apply omap_app. Qed.

Lemma logged_app (a b : list Event) : logged (a ++ b) = logged a ++ logged b.
Proof. apply omap_app. Qed.

Lemma follow_mutex_app (a b : list Event) : forall held,
  follow_mutex held (a ++ b) =
  match follow_mutex held a with
  | Some held' => follow_mutex held' b
  | None => None
  end.
Proof.
  induction a as [|e a IH]; intros held; [reflexivity|].
  destruct e, held; cbn; auto.
Qed.

Lemma call_events_calls op ssm evs :
  call_events op ssm evs ->
  driver_calls evs = [(op, ssm)] /\ logged evs = [] /\
  follow_mutex false evs = Some false.
Proof. intros [->| ->]; cbn; auto. Qed.

Lemma calls_concat op conns evss :
  Forall2 (call_events op) conns evss ->
  driver_calls (concat evss) = map (fun ssm => (op, ssm)) conns /\
  logged (concat evss) = [] /\
  follow_mutex false (concat evss) = Some false.
Proof.
  induction 1 as [|ssm evs conns evss Hev _ IH]; cbn; [auto|].
  destruct (call_events_calls _ _ _ Hev) as (Hc & Hl & Hm).
  destruct IH as (IHc & IHl & IHm).
  rewrite driver_calls_app, logged_app, follow_mutex_app, Hc, Hl, Hm, IHc, IHl.
  auto.
Qed.

(** ** [endAllSessions] *)

Lemma add_events_nil (w : World D) : add_events w [] = w.
Proof. destruct w. unfold add_events. cbn. by rewrite app_nil_r. Qed.

Lemma add_events_app (w : World D) a b :
  add_events (add_events w a) b = add_events w (a ++ b).
Proof. unfold add_events. cbn. by rewrite app_assoc. Qed.

Lemma consistent_add_events (w : World D) evs :
  consistent w -> consistent (add_events w evs).
Proof. intros [? ? ? ?]. by split. Qed.

Lemma allocated_is_Some (w : World D) (l : SSMList) :
  Forall (fun ssm => (ssm < length (drivers w))%nat) l ->
  Forall (fun ssm => is_Some (drivers w !! ssm)) l.
Proof.
  intros Hl. eapply Forall_impl; [exact Hl|].
  intros ssm. apply lookup_lt_is_Some.
Qed.

Lemma collect_connsToEnd_spec tags l : forall acc (w : World D),
  Forall (fun ssm => is_Some (drivers w !! ssm)) l ->
  collect_connsToEnd tags l acc w =
  Ok (acc ++ filter (fun ssm => skips tags w ssm = false) l)
     (add_events w (map (scan_event tags w) l)).
Proof.
  induction l as [|ssm l IH]; intros acc w Hl; cbn [collect_connsToEnd].
  - unfold ret. cbn. by rewrite app_nil_r, add_events_nil.
  - apply Forall_cons in Hl as [[c Hc] Hl]. unfold bind at 1, get_ssm. rewrite Hc.
    assert (skips tags w ssm = tags_intersect tags c) as Hskip
      by (unfold skips; by rewrite Hc).
    assert (scan_event tags w ssm =
            if tags_intersect tags c then EvLog (id (ssm_session (driver c)))
            else EvSnapshot ssm) as Hscan
      by (unfold scan_event; by rewrite Hc).
    cbn [map]. rewrite Hscan. unfold tags_intersect in *.
    destruct (decide _) as [Hi|Hi].
    + rewrite bool_decide_eq_true_2 in * by done.
      unfold bind, emit. rewrite (IH acc (add_events w _)) by done.
      rewrite add_events_app. cbn [app].
      rewrite filter_cons_False by (rewrite Hskip; done). reflexivity.
    + rewrite bool_decide_eq_false_2 in * by done.
      unfold bind, emit. rewrite (IH (acc ++ [ssm]) (add_events w _)) by done.
      rewrite add_events_app. cbn [app].
      rewrite filter_cons_True by done. by rewrite <- app_assoc.
Qed.

Lemma terminate_all_spec conns : forall (w : World D),
  consistent w -> NoDup conns ->
  Forall (fun ssm => is_Some (drivers w !! ssm)) conns ->
  exists w' evss,
    terminate_all conns w = Ok tt w' /\ consistent w' /\
    _svcCtx w' = _svcCtx w /\ _nWorkers w' = _nWorkers w /\
    length (drivers w') = length (drivers w) /\
    trace w' = trace w ++ concat evss /\
    Forall2 (call_events OpTerminate) conns evss /\
    (forall ssm, ssm ∉ conns -> drivers w' !! ssm = drivers w !! ssm) /\
    (forall ssm c, ssm ∈ conns -> drivers w !! ssm = Some c ->
       exists hook, drivers w' !! ssm = Some (MkSSM (ssm_terminate (driver c)) hook)).
Proof.
  induction conns as [|ssm conns IH]; intros w Hc Hnd Hall; cbn [terminate_all].
  - exists w, []. cbn. rewrite app_nil_r.
    do 6 (split; [done|]). split; [constructor|]. split; [done|].
    intros ssm c Hin. by apply elem_of_nil in Hin.
  - apply NoDup_cons in Hnd as [Hnin Hnd].
    apply Forall_cons in Hall as [[c Hssm] Hall].
    destruct (ssm_call_spec OpTerminate ssm w c Hc Hssm)
      as (w1 & Hrun & Hc1 & Hctx1 & Hn1 & Hd1 & Hev1).
    pose proof (lookup_lt_Some _ _ _ Hssm) as Hlt.
    assert (Forall (fun ssm => is_Some (drivers w1 !! ssm)) conns) as Hall1.
    { eapply Forall_impl; [exact Hall|]. intros h Hh.
      apply lookup_lt_is_Some. rewrite Hd1, length_insert. by apply lookup_lt_is_Some. }
    destruct (IH w1 Hc1 Hnd Hall1)
      as (w' & evss & Hrun' & Hc' & Hctx' & Hn' & Hlen' & Htr' & Hevs' & Hframe & Heff).
    assert (exists evs, call_events OpTerminate ssm evs /\ trace w1 = trace w ++ evs)
      as (evs & Hevs & Htr1).
    { destruct Hev1 as [(_ & _ & _ & ->)|(_ & _ & ->)]; eexists; split; try done;
        [by right | by left]. }
    exists w', (evs :: evss). rewrite (bind_Ok _ _ _ _ _ Hrun).
    split; [done|]. split; [done|].
    split; [congruence|]. split; [congruence|].
    split; [by rewrite Hlen', Hd1, length_insert|].
    split; [by rewrite Htr', Htr1; cbn; rewrite app_assoc|].
    split; [by constructor|]. split.
    + intros h [Hne Hh]%not_elem_of_cons.
      rewrite (Hframe h Hh), Hd1. by apply list_lookup_insert_ne.
    + intros h ch [->|Hh]%elem_of_cons Hch.
      * rewrite (Hframe ssm Hnin), Hd1, list_lookup_insert_eq by done.
        assert (ch = c) as -> by congruence. eauto.
      * apply (Heff h ch Hh). rewrite Hd1, list_lookup_insert_ne; [done|].
        intros <-. done.
Qed.

Lemma endAllSessions_run tags (w : World D) :
  consistent w ->
  exists w' evss,
    endAllSessions tags w = Ok tt w' /\ consistent w' /\
    _svcCtx w' = _svcCtx w /\ _nWorkers w' = _nWorkers w /\
    length (drivers w') = length (drivers w) /\
    trace w' = trace w ++ [EvLock] ++ map (scan_event tags w) (_sessions w)
                       ++ [EvUnlock] ++ concat evss /\
    Forall2 (call_events OpTerminate) (to_terminate tags w) evss /\
    (forall ssm, ssm ∉ to_terminate tags w -> drivers w' !! ssm = drivers w !! ssm) /\
    (forall ssm c, ssm ∈ to_terminate tags w -> drivers w !! ssm = Some c ->
       exists hook, drivers w' !! ssm = Some (MkSSM (ssm_terminate (driver c)) hook)).
Proof.
  intros Hc. pose proof Hc as [Hmx Hal Hnd Hhk].
  set (w2 := add_events w ([EvLock] ++ map (scan_event tags w) (_sessions w) ++ [EvUnlock])).
  assert (consistent w2) as Hc2 by (by apply consistent_add_events).
  assert (NoDup (to_terminate tags w)) as Hnd2 by (by apply NoDup_filter).
  assert (Forall (fun ssm => is_Some (drivers w2 !! ssm)) (to_terminate tags w)) as Hall2.
  { apply allocated_is_Some. unfold to_terminate.
    apply Forall_forall. intros h [_ Hh]%list_elem_of_filter.
    rewrite Forall_forall in Hal. by apply Hal. }
  destruct (terminate_all_spec _ w2 Hc2 Hnd2 Hall2)
    as (w' & evss & Hrun & Hc' & Hctx & Hn & Hlen & Htr & Hevs & Hframe & Heff).
  exists w', evss. split.
  - unfold endAllSessions, bind at 1 2, lock. rewrite Hmx. cbn [emit].
    unfold bind at 1, get_sessions. cbn [add_events _sessions].
    unfold bind at 1. rewrite collect_connsToEnd_spec; cycle 1.
    { apply allocated_is_Some. apply Hal. }
    unfold bind at 1, unlock. cbn. unfold ret.
    rewrite <- Hrun. f_equal. unfold w2, add_events. cbn.
    rewrite <- !app_assoc. rewrite <- Hmx. reflexivity.
  - split; [done|]. repeat split; try done.
    rewrite Htr. unfold w2, add_events. cbn [trace].
    by rewrite <- !app_assoc.
Qed.

(** ** [startSession] *)

Lemma startSession_unresolved session (w : World D) :
  sockAddr (remote session) = None \/ sockAddr (local session) = None ->
  startSession session w = Fail InvariantFailure.
Proof.
  intros Hno. unfold startSession, bind at 1.
  destruct (sockAddr (remote session)), (sockAddr (local session));
    try reflexivity. by destruct Hno.
Qed.

(** With both addresses resolved, [startSession] creates and registers the
    driver, installs its hook, and only then starts its execution. *)
Lemma startSession_resolved session remoteAddr localAddr (w : World D) :
  _sessionsMutex w = false ->
  sockAddr (remote session) = Some remoteAddr ->
  sockAddr (local session) = Some localAddr ->
  startSession session w =
  (if bool_decide (getServiceExecutor (_svcCtx w) = None)
   then launchServiceWorkerThread (length (drivers w))
   else ssm_call OpScheduleNext (length (drivers w)))
    (registered session remoteAddr localAddr w).
Proof.
  intros Hmx Hr Hl. unfold startSession. rewrite Hr, Hl.
  unfold bind, invariant, deref, ret, emit, get_svcCtx, ServiceStateMachine_create,
    get_drivers, set_drivers, lock, sessions_emplace_front, bind, get_sessions,
    set_sessions, emit, unlock, ret, setCleanupHook, bind, get_ssm, put_ssm,
    set_drivers, emit, add_events.
  cbn. rewrite Hmx. cbn.
  rewrite list_lookup_middle by done. cbn.
  replace (<[length (drivers w):=_]> (drivers w ++ [_]))
    with (drivers w ++ [MkSSM (ssm_create (_svcCtx w) session
            (bool_decide (getServiceExecutor (_svcCtx w) = None)))
            (Some (EraseSession (length (drivers w))))]); cycle 1.
  { symmetry. apply insert_snoc. }
  unfold registered. rewrite <- !app_assoc. cbn [app].
  destruct (getServiceExecutor (_svcCtx w)); reflexivity.
Qed.

Lemma registered_consistent session remoteAddr localAddr (w : World D) :
  consistent w -> consistent (registered session remoteAddr localAddr w).
Proof.
  intros [Hmx Hal Hnd Hhk]. rewrite Forall_forall in Hal.
  split; cbn.
  - done.
  - rewrite length_app. cbn. apply Forall_cons. split; [lia|].
    apply Forall_forall. intros h Hh%Hal. lia.
  - apply NoDup_cons. split; [|done]. intros Hin%Hal. lia.
  - intros h c it Hh Hit.
    destruct (decide (h < length (drivers w))%nat) as [Hlt|Hge].
    + rewrite lookup_app_l in Hh by done.
      destruct (Hhk h c it Hh Hit) as [-> Hin]. split; [done|]. by right.
    + rewrite lookup_app_r in Hh by lia.
      destruct (h - length (drivers w))%nat as [|k] eqn:Hk; cbn in Hh; [|done].
      injection Hh as <-. cbn in Hit. injection Hit as <-.
      assert (h = length (drivers w)) as -> by (apply lookup_ge_None_1 in Hge || lia).
      split; [done|]. by left.
Qed.

Lemma bind_inv {A B} (m : M D A) (k : A -> M D B) w b w' :
  bind m k w = Ok b w' -> exists a w1, m w = Ok a w1 /\ k a w1 = Ok b w'.
Proof. unfold bind. destruct (m w) as [a w1|f]; [eauto|done]. Qed.

Lemma ssm_call_inv op ssm (w w' : World D) :
  ssm_call op ssm w = Ok tt w' -> exists c, drivers w !! ssm = Some c.
Proof.
  destruct (drivers w !! ssm) as [c|] eqn:Hc; [eauto|].
  by rewrite ssm_call_dangling.
Qed.

Lemma endAllSessions_unfold tags (w : World D) :
  consistent w ->
  endAllSessions tags w =
  terminate_all (to_terminate tags w)
    (add_events w ([EvLock] ++ map (scan_event tags w) (_sessions w) ++ [EvUnlock])).
Proof.
  intros [Hmx Hal Hnd Hhk].
  unfold endAllSessions, bind at 1 2, lock. rewrite Hmx. cbn [emit].
  unfold bind at 1, get_sessions. cbn [add_events _sessions].
  unfold bind at 1. rewrite collect_connsToEnd_spec; cycle 1.
  { apply allocated_is_Some. apply Hal. }
  unfold bind at 1, unlock. cbn. unfold ret.
  f_equal. unfold add_events. cbn.
  rewrite <- !app_assoc. rewrite <- Hmx. reflexivity.
Qed.

Lemma getNumberOfConnections_run (w : World D) :
  _sessionsMutex w = false ->
  getNumberOfConnections w =
  Ok (Z.of_nat (length (_sessions w))) (add_events w [EvLock; EvUnlock]).
Proof.
  intros Hmx. unfold getNumberOfConnections, bind, lock, get_sessions, unlock, ret, emit.
  rewrite Hmx. cbn. f_equal. unfold add_events. cbn.
  rewrite <- !app_assoc. rewrite <- Hmx. reflexivity.
Qed.

(** ** Invariants of executions *)

Lemma terminate_all_preserves (P : World D -> Prop) :
  (forall op ssm w w', P w -> ssm_call op ssm w = Ok tt w' -> P w') ->
  forall conns w w', P w -> terminate_all conns w = Ok tt w' -> P w'.
Proof.
  intros Hcall. induction conns as [|ssm conns IH]; intros w w' HP Hrun.
  - cbn in Hrun. unfold ret in Hrun. by injection Hrun as <-.
  - cbn in Hrun. apply bind_inv in Hrun as ([] & w1 & H1 & H2). eauto.
Qed.

Lemma run_step_preserves (P : World D -> Prop) :
  (forall w, P w -> consistent w) ->
  (forall w evs, P w -> P (add_events w evs)) ->
  (forall w n w', P w -> set_nWorkers n w = Ok tt w' -> P w') ->
  (forall op ssm w w', P w -> ssm_call op ssm w = Ok tt w' -> P w') ->
  (forall s ra la w, P w -> P (registered s ra la w)) ->
  forall st w w', P w -> run_step st w = Ok tt w' -> P w'.
Proof.
  intros Hcons Hev Hnw Hcall Hreg st w w' HP Hrun.
  pose proof (Hcons w HP) as Hc. pose proof (mutex_free w Hc) as Hmx.
  destruct st as [session|tags| | |ssm cores| |op ssm]; cbn [run_step] in Hrun.
  - destruct (sockAddr (remote session)) as [ra|] eqn:Hra;
      [|rewrite startSession_unresolved in Hrun by auto; done].
    destruct (sockAddr (local session)) as [la|] eqn:Hla;
      [|rewrite startSession_unresolved in Hrun by auto; done].
    rewrite (startSession_resolved session ra la w Hmx Hra Hla) in Hrun.
    destruct (bool_decide _).
    + unfold launchServiceWorkerThread, emit in Hrun. injection Hrun as <-.
      apply Hev, Hreg, HP.
    + eapply Hcall; [|exact Hrun]. apply Hreg, HP.
  - rewrite endAllSessions_unfold in Hrun by done.
    eapply terminate_all_preserves; [exact Hcall| |exact Hrun]. by apply Hev.
  - unfold bind in Hrun. rewrite getNumberOfConnections_run in Hrun by done.
    unfold ret in Hrun. injection Hrun as <-. by apply Hev.
  - unfold nWorkers_addAndFetch, bind, nWorkers_load in Hrun.
    destruct (set_nWorkers _ w) as [[] w1|] eqn:Hs; [|done].
    unfold ret in Hrun. injection Hrun as <-. eauto.
  - apply bind_inv in Hrun as (c & w1 & H1 & H2).
    unfold get_ssm in H1. destruct (drivers w !! ssm); [|done].
    injection H1 as <- <-.
    destruct (decide _); [unfold ret in H2; by injection H2 as <-|].
    unfold workerIteration in H2.
    apply bind_inv in H2 as ([] & w2 & H2 & H3).
    pose proof (Hcall _ _ _ _ HP H2) as HP2.
    unfold bind, nWorkers_load in H3.
    destruct (_ >? _); unfold emit, ret in H3; injection H3 as <-; auto.
  - unfold nWorkers_subtractAndFetch, bind, nWorkers_load in Hrun.
    destruct (set_nWorkers _ w) as [[] w1|] eqn:Hs; [|done].
    unfold ret in Hrun. injection Hrun as <-. eauto.
  - eauto.
Qed.

Lemma reachable_invariant (P : World D -> Prop) :
  (forall svcCtx, P (initial_world svcCtx)) ->
  (forall st w w', P w -> run_step st w = Ok tt w' -> P w') ->
  forall w, reachable w -> P w.
Proof. intros Hinit Hstep w. induction 1; eauto. Qed.

Lemma ssm_call_consistent op ssm (w w' : World D) :
  consistent w -> ssm_call op ssm w = Ok tt w' -> consistent w'.
Proof.
  intros Hc Hrun. destruct (ssm_call_inv _ _ _ _ Hrun) as [c Hssm].
  destruct (ssm_call_spec op ssm w c Hc Hssm) as (w1 & Hrun1 & Hc1 & _).
  congruence.
Qed.

Lemma initial_consistent svcCtx : consistent (initial_world (D:=D) svcCtx).
Proof.
  split; cbn; try done. constructor.
Qed.

(** Every world that an execution passes through is consistent. *)
Lemma reachable_consistent (w : World D) : reachable w -> consistent w.
Proof.
  apply reachable_invariant; [apply initial_consistent|].
  apply run_step_preserves.
  - done.
  - intros. by apply consistent_add_events.
  - intros w0 n w' [? ? ? ?] Hs. unfold set_nWorkers in Hs. injection Hs as <-. by split.
  - apply ssm_call_consistent.
  - intros. by apply registered_consistent.
Qed.

Section Contract.

Context `{!DriverContract D}.

Lemma driver_op_Ended op d :
  ssm_state d = Ended -> ssm_state (driver_op op d) = Ended.
Proof.
  destruct op; cbn;
    [apply scheduleNext_Ended | apply runNext_Ended | apply terminate_Ended].
Qed.

End Contract.

(** ** The worker *)

Lemma yields_app (a b : list Event) : yields (a ++ b) = (yields a + yields b)%nat.
Proof. unfold yields. by rewrite filter_app, length_app. Qed.

Lemma iteration_events_calls ssm cores n evs :
  iteration_events ssm cores n evs ->
  driver_calls evs = [(OpRunNext, ssm)] /\
  yields evs = (if n >? cores then 1 else 0)%nat /\
  follow_mutex false evs = Some false.
Proof.
  intros (call & [-> | ->] & ->); destruct (n >? cores); cbn; auto.
Qed.

Lemma iterations_concat ssm cores n evss :
  Forall (iteration_events ssm cores n) evss ->
  driver_calls (concat evss) = replicate (length evss) (OpRunNext, ssm) /\
  yields (concat evss) = (if n >? cores then length evss else 0)%nat /\
  follow_mutex false (concat evss) = Some false.
Proof.
  induction 1 as [|evs evss Hev _ IH]; cbn [concat length replicate].
  - by destruct (n >? cores).
  - destruct (iteration_events_calls _ _ _ _ Hev) as (Hc & Hy & Hm).
    destruct IH as (IHc & IHy & IHm).
    rewrite driver_calls_app, yields_app, follow_mutex_app, Hc, Hy, Hm, IHc, IHy.
    by destruct (n >? cores).
Qed.

Lemma workerIteration_spec ssm cores (w : World D) c :
  consistent w -> drivers w !! ssm = Some c ->
  exists w' evs hook,
    workerIteration ssm cores w = Ok tt w' /\ consistent w' /\
    _nWorkers w' = _nWorkers w /\
    trace w' = trace w ++ evs /\
    iteration_events ssm cores (_nWorkers w) evs /\
    drivers w' !! ssm = Some (MkSSM (ssm_runNext (driver c)) hook).
Proof.
  intros Hc Hssm.
  destruct (ssm_call_spec OpRunNext ssm w c Hc Hssm)
    as (w1 & Hrun & Hc1 & _ & Hn1 & Hd1 & Hev1). cbv zeta in Hd1, Hev1.
  pose proof (lookup_lt_Some _ _ _ Hssm) as Hlt.
  assert (exists call, call_events OpRunNext ssm call /\ trace w1 = trace w ++ call)
    as (call & Hcall & Htr1).
  { destruct Hev1 as [(_ & _ & _ & ->)|(_ & _ & ->)]; eexists; split; try done;
      [by right | by left]. }
  unfold workerIteration. rewrite (bind_Ok _ _ _ _ _ Hrun).
  unfold bind, nWorkers_load. rewrite Hn1.
  destruct (_nWorkers w >? cores) eqn:Hgt.
  - eexists _, (call ++ [EvYield]), _. unfold emit.
    split; [reflexivity|]. split; [by apply consistent_add_events|].
    split; [done|]. split; [by cbn; rewrite Htr1, <- app_assoc|].
    split; [exists call; by rewrite Hgt|].
    cbn. rewrite Hd1. by apply list_lookup_insert_eq.
  - eexists _, call, _. unfold ret.
    split; [reflexivity|]. split; [done|].
    split; [done|]. split; [done|].
    split; [exists call; by rewrite Hgt, app_nil_r|].
    rewrite Hd1. by apply list_lookup_insert_eq.
Qed.

Lemma workerLoop_spec ssm cores k : forall fuel (w : World D) c,
  consistent w -> drivers w !! ssm = Some c ->
  ends_after k (driver c) = true -> (k < fuel)%nat ->
  exists w' evss c',
    workerLoop fuel ssm cores w = Ok tt w' /\ consistent w' /\
    _nWorkers w' = _nWorkers w /\
    trace w' = trace w ++ concat evss /\
    length evss = k /\
    Forall (iteration_events ssm cores (_nWorkers w)) evss /\
    drivers w' !! ssm = Some c' /\ ssm_state (driver c') = Ended.
Proof.
  induction k as [|k IH]; intros fuel w c Hc Hssm Hends Hfuel;
    (destruct fuel as [|fuel]; [lia|]); cbn [workerLoop];
    unfold bind at 1, get_ssm; rewrite Hssm; cbn in Hends.
  - apply bool_decide_eq_true in Hends. rewrite decide_True by done.
    exists w, [], c. unfold ret. cbn. rewrite app_nil_r.
    do 5 (split; [done|]). split; [constructor|done].
  - apply andb_true_iff in Hends as [Hlive%bool_decide_eq_true Hends].
    rewrite decide_False by done.
    destruct (workerIteration_spec ssm cores w c Hc Hssm)
      as (w1 & evs & hook & Hrun & Hc1 & Hn1 & Htr1 & Hev & Hssm1).
    rewrite (bind_Ok _ _ _ _ _ Hrun).
    destruct (IH fuel w1 _ Hc1 Hssm1 Hends ltac:(lia))
      as (w' & evss & c' & Hrun' & Hc' & Hn' & Htr' & Hlen & Hevs & Hssm' & Hst).
    exists w', (evs :: evss), c'.
    split; [done|]. split; [done|]. split; [congruence|].
    split; [by rewrite Htr', Htr1; cbn; rewrite app_assoc|].
    split; [by cbn; rewrite Hlen|].
    split; [|done]. constructor; [done|]. by rewrite <- Hn1.
Qed.

Lemma fetch_restores n :
  subtractAndFetch (addAndFetch n 1) 1 = n mod UInt64_modulus.
Proof.
  unfold subtractAndFetch, addAndFetch.
  rewrite Zminus_mod_idemp_l. f_equal. lia.
Qed.

Lemma serviceWorker_spec p fuel ssm k (w : World D) c :
  consistent w -> drivers w !! ssm = Some c ->
  ends_after k (driver c) = true -> (k < fuel)%nat ->
  exists w' evss c',
    serviceWorker p fuel ssm w = Ok tt w' /\ consistent w' /\
    _nWorkers w' = _nWorkers w mod UInt64_modulus /\
    trace w' = trace w ++ concat evss /\
    length evss = k /\
    Forall (iteration_events ssm (numCores p) (addAndFetch (_nWorkers w) 1)) evss /\
    drivers w' !! ssm = Some c' /\ ssm_state (driver c') = Ended.
Proof.
  intros Hc Hssm Hends Hfuel.
  set (w0 := {| _svcCtx := _svcCtx w; _nWorkers := addAndFetch (_nWorkers w) 1;
                _sessionsMutex := _sessionsMutex w; _sessions := _sessions w;
                drivers := drivers w; trace := trace w |}).
  assert (consistent w0) as Hc0 by (destruct Hc; by split).
  destruct (workerLoop_spec ssm (numCores p) k fuel w0 c Hc0 Hssm Hends Hfuel)
    as (w1 & evss & c' & Hrun & Hc1 & Hn1 & Htr1 & Hlen & Hevs & Hssm1 & Hst).
  assert (serviceWorker p fuel ssm w =
          match workerLoop fuel ssm (numCores p) w0 with
          | Ok _ w1 =>
              Ok tt {| _svcCtx := _svcCtx w1;
                       _nWorkers := subtractAndFetch (_nWorkers w1) 1;
                       _sessionsMutex := _sessionsMutex w1; _sessions := _sessions w1;
                       drivers := drivers w1; trace := trace w1 |}
          | Fail f => Fail f
          end) as -> by reflexivity.
  rewrite Hrun. eexists _, evss, c'.
  split; [reflexivity|]. cbn.
  split; [destruct Hc1; by split|].
  split; [by rewrite Hn1; cbn; apply fetch_restores|].
  done.
Qed.

(** ** The events of the first loop of [endAllSessions] *)

Lemma snapshots_app (a b : list Event) :
  snapshots (a ++ b) = snapshots a ++ snapshots b.
Proof. apply omap_app. Qed.

Lemma call_events_no_snapshot op conns evss :
  Forall2 (call_events op) conns evss -> snapshots (concat evss) = [].
Proof.
  induction 1 as [|ssm evs conns evss Hev _ IH]; cbn [concat]; [done|].
  rewrite snapshots_app, IH. by destruct Hev as [-> | ->].
Qed.

Lemma scan_events_spec tags (w : World D) (l : SSMList) :
  driver_calls (map (scan_event tags w) l) = [] /\
  follow_mutex true (map (scan_event tags w) l) = Some true /\
  snapshots (map (scan_event tags w) l) =
    filter (fun ssm => skips tags w ssm = false) l /\
  logged (map (scan_event tags w) l) =
    omap (fun ssm => match drivers w !! ssm with
                     | Some c => Some (id (ssm_session (driver c)))
                     | None => None
                     end) (filter (fun ssm => skips tags w ssm = true) l).
Proof.
  induction l as [|ssm l (IH1 & IH2 & IH3 & IH4)]; [done|].
  assert ((skips tags w ssm = true /\
           exists c, drivers w !! ssm = Some c /\
                     scan_event tags w ssm = EvLog (id (ssm_session (driver c)))) \/
          (skips tags w ssm = false /\ scan_event tags w ssm = EvSnapshot ssm))
    as [(Hs & c & Hc & He)|(Hs & He)].
  { unfold skips, scan_event. destruct (drivers w !! ssm) as [c|]; [|by right].
    destruct (tags_intersect tags c); [left; eauto|by right]. }
  - cbn [map]. rewrite He.
    rewrite filter_cons_False by (rewrite Hs; done).
    rewrite filter_cons_True by done. cbn. rewrite Hc. cbn.
    repeat split; first [assumption | f_equal; assumption].
  - cbn [map]. rewrite He.
    rewrite filter_cons_True by done.
    rewrite filter_cons_False by (rewrite Hs; done). cbn.
    repeat split; first [assumption | f_equal; assumption].
Qed.

Lemma to_terminate_spec tags (w : World D) ssm :
  consistent w ->
  ssm ∈ to_terminate tags w <->
  ssm ∈ _sessions w /\
  exists c, drivers w !! ssm = Some c /\
            Z.land (getTags (ssm_session (driver c))) tags = 0.
Proof.
  intros [_ Hal _ _]. rewrite Forall_forall in Hal.
  unfold to_terminate. rewrite list_elem_of_filter. unfold skips, tags_intersect.
  cbn beta. split.
  - intros [Hs Hin]. split; [done|].
    destruct (lookup_lt_is_Some_2 _ _ (Hal _ Hin)) as [c Hc]. rewrite Hc in Hs.
    exists c. split; [done|]. apply bool_decide_eq_false in Hs.
    by destruct (decide (Z.land (getTags (ssm_session (driver c))) tags = 0)).
  - intros [Hin (c & Hc & Hz)]. split; [|done]. rewrite Hc.
    apply bool_decide_eq_false. intros Hx. by apply Hx.
Qed.

Lemma to_skip_spec tags (w : World D) ssm :
  ssm ∈ to_skip tags w <->
  ssm ∈ _sessions w /\
  exists c, drivers w !! ssm = Some c /\
            Z.land (getTags (ssm_session (driver c))) tags <> 0.
Proof.
  unfold to_skip. rewrite list_elem_of_filter. unfold skips, tags_intersect.
  cbn beta. split.
  - intros [Hs Hin]. split; [done|].
    destruct (drivers w !! ssm) as [c|]; [|done].
    exists c. split; [done|]. by apply bool_decide_eq_true in Hs.
  - intros [Hin (c & Hc & Hz)]. split; [|done]. rewrite Hc.
    by apply bool_decide_eq_true.
Qed.

(** ** The entry points *)

(** C3: [endAllSessions tags] returns, and calls [terminate] on the registered
    drivers whose session's tags do not intersect [tags], once each, in the
    order of the registry, and calls no other driver operation; it writes one
    log line for each driver whose tags intersect [tags], and leaves the driver
    objects of those drivers as they were. *)
Theorem endAllSessions_terminates_unmatched tags (w : World D) :
  consistent w ->
  (forall ssm, ssm ∈ to_terminate tags w <->
     ssm ∈ _sessions w /\
     exists c, drivers w !! ssm = Some c /\
               Z.land (getTags (ssm_session (driver c))) tags = 0) /\
  (forall ssm, ssm ∈ to_skip tags w <->
     ssm ∈ _sessions w /\
     exists c, drivers w !! ssm = Some c /\
               Z.land (getTags (ssm_session (driver c))) tags <> 0) /\
  exists w' evs,
    endAllSessions tags w = Ok tt w' /\
    trace w' = trace w ++ evs /\
    driver_calls evs = map (fun ssm => (OpTerminate, ssm)) (to_terminate tags w) /\
    NoDup (to_terminate tags w) /\
    logged evs = skipped_ids tags w /\
    (forall ssm c, ssm ∈ to_terminate tags w -> drivers w !! ssm = Some c ->
       exists hook,
         drivers w' !! ssm = Some (MkSSM (ssm_terminate (driver c)) hook)) /\
    (forall ssm, ssm ∈ to_skip tags w -> drivers w' !! ssm = drivers w !! ssm).
Proof.
  intros Hc.
  split; [intros ssm; by apply to_terminate_spec|].
  split; [intros ssm; by apply to_skip_spec|].
  destruct (endAllSessions_run tags w Hc)
    as (w' & evss & Hrun & _ & _ & _ & _ & Htr & Hevs & Hframe & Heff).
  destruct (calls_concat _ _ _ Hevs) as (Hcalls & Hlog & _).
  destruct (scan_events_spec tags w (_sessions w)) as (Hs1 & _ & _ & Hs4).
  exists w', ([EvLock] ++ map (scan_event tags w) (_sessions w)
                ++ [EvUnlock] ++ concat evss).
  split; [done|]. split; [done|]. split.
  { rewrite !driver_calls_app, Hs1, Hcalls. reflexivity. }
  split; [apply NoDup_filter, Hc|]. split.
  { rewrite !logged_app, Hs4, Hlog. cbn. by rewrite app_nil_r. }
  split; [done|].
  intros ssm [Hs _]%list_elem_of_filter. apply Hframe.
  intros [Hs' _]%list_elem_of_filter. congruence.
Qed.

(** With the empty tag mask nothing is skipped: [endAllSessions 0] calls
    [terminate] on every registered driver. *)
Lemma endAllSessions_empty_mask (w : World D) :
  consistent w -> to_terminate 0 w = _sessions w /\ to_skip 0 w = [].
Proof.
  intros Hc. unfold to_terminate, to_skip.
  assert (forall ssm, skips 0 w ssm = false) as Hs.
  { intros ssm. unfold skips, tags_intersect. destruct (drivers w !! ssm); [|done].
    rewrite Z.land_0_r. apply bool_decide_eq_false_2. intros Hx. by apply Hx. }
  split.
  - induction (_sessions w) as [|ssm l IH]; [done|].
    by rewrite filter_cons_True, IH by apply Hs.
  - induction (_sessions w) as [|ssm l IH]; [done|].
    rewrite filter_cons_False; [done|]. by rewrite Hs.
Qed.

(** C7: [endAllSessions] locks the mutex, goes through the registry copying
    the handles of the drivers to terminate while it holds the mutex, releases
    the mutex, and only then calls [terminate]: no handle is copied after the
    release, no driver is called before it, and every call of a driver is made
    with the mutex free (the hook of a driver that ends takes the mutex itself). *)
Theorem endAllSessions_releases_before_terminate tags (w : World D) :
  consistent w ->
  exists w' scan calls,
    endAllSessions tags w = Ok tt w' /\
    trace w' = trace w ++ [EvLock] ++ scan ++ [EvUnlock] ++ calls /\
    scan = map (scan_event tags w) (_sessions w) /\
    snapshots scan = to_terminate tags w /\
    driver_calls scan = [] /\
    follow_mutex true scan = Some true /\
    snapshots calls = [] /\
    driver_calls calls = map (fun ssm => (OpTerminate, ssm)) (to_terminate tags w) /\
    follow_mutex false calls = Some false /\
    follow_mutex false ([EvLock] ++ scan ++ [EvUnlock] ++ calls) = Some false.
Proof.
  intros Hc.
  destruct (endAllSessions_run tags w Hc)
    as (w' & evss & Hrun & _ & _ & _ & _ & Htr & Hevs & _).
  destruct (calls_concat _ _ _ Hevs) as (Hcalls & _ & Hmx).
  destruct (scan_events_spec tags w (_sessions w)) as (Hs1 & Hs2 & Hs3 & _).
  exists w', (map (scan_event tags w) (_sessions w)), (concat evss).
  do 5 (split; [done|]). split; [done|].
  split; [by eapply call_events_no_snapshot|].
  split; [done|]. split; [done|].
  cbn [app follow_mutex]. rewrite follow_mutex_app, Hs2. cbn. done.
Qed.

Lemma startSession_run session remoteAddr localAddr (w : World D) :
  consistent w ->
  sockAddr (remote session) = Some remoteAddr ->
  sockAddr (local session) = Some localAddr ->
  let ssm := length (drivers w) in
  let w0 := registered session remoteAddr localAddr w in
  exists w' tail c,
    startSession session w = Ok tt w' /\ consistent w' /\
    trace w' = trace w0 ++ tail /\
    drivers w' = drivers w ++ [c] /\
    match getServiceExecutor (_svcCtx w) with
    | None =>
        tail = [EvLaunchWorker ssm] /\ _sessions w' = _sessions w0 /\
        drivers w' = drivers w0
    | Some _ => call_events OpScheduleNext ssm tail
    end.
Proof.
  intros Hc Hra Hla ssm w0.
  pose proof (registered_consistent session remoteAddr localAddr w Hc) as Hc0.
  rewrite (startSession_resolved session remoteAddr localAddr w (mutex_free w Hc) Hra Hla).
  fold w0 ssm. destruct (getServiceExecutor (_svcCtx w)) as [ex|] eqn:Hex.
  - rewrite bool_decide_eq_false_2 by done.
    assert (drivers w0 !! ssm = Some (MkSSM (ssm_create (_svcCtx w) session
              (bool_decide (getServiceExecutor (_svcCtx w) = None)))
              (Some (EraseSession ssm)))) as Hssm
      by (by apply list_lookup_middle).
    destruct (ssm_call_spec OpScheduleNext ssm w0 _ Hc0 Hssm)
      as (w' & Hrun & Hc' & _ & _ & Hd & Hev). cbv zeta in Hd, Hev.
    assert (exists tail, call_events OpScheduleNext ssm tail /\
                         trace w' = trace w0 ++ tail) as (tail & Hcall & Htr).
    { destruct Hev as [(_ & _ & _ & ->)|(_ & _ & ->)]; eexists; split; try done;
        [by right | by left]. }
    eexists w', tail, _. split; [done|]. split; [done|]. split; [done|].
    split; [rewrite Hd; apply insert_snoc | done].
  - rewrite bool_decide_eq_true_2 by done.
    unfold launchServiceWorkerThread, emit.
    eexists _, _, _. split; [reflexivity|].
    split; [by apply consistent_add_events|]. by cbn.
Qed.

(** C8: [startSession] terminates the process on the failed invariant when
    the remote or the local address of the session is not resolved, and only
    then; with both addresses resolved it returns, and it fails in no other
    way. *)
Theorem startSession_fails_iff_unresolved session (w : World D) :
  consistent w ->
  (startSession session w = Fail InvariantFailure <->
     sockAddr (remote session) = None \/ sockAddr (local session) = None) /\
  ((exists w', startSession session w = Ok tt w') <->
     is_Some (sockAddr (remote session)) /\ is_Some (sockAddr (local session))) /\
  (forall f, startSession session w = Fail f -> f = InvariantFailure).
Proof.
  intros Hc.
  destruct (sockAddr (remote session)) as [ra|] eqn:Hra;
    [destruct (sockAddr (local session)) as [la|] eqn:Hla|].
  - destruct (startSession_run session ra la w Hc Hra Hla)
      as (w' & tail & c & Hrun & _).
    rewrite Hrun. split; [|split].
    + split; [done|]. by intros [?|?].
    + split; [eauto|]. intros _. eauto.
    + done.
  - rewrite startSession_unresolved by (rewrite Hla; auto).
    split; [|split].
    + split; auto.
    + split; [by intros [w' ?]|]. by intros [_ [? ?]].
    + by intros f [= <-].
  - rewrite startSession_unresolved by (rewrite Hra; auto).
    split; [|split].
    + split; auto.
    + split; [by intros [w' ?]|]. by intros [[? ?] _].
    + by intros f [= <-].
Qed.

(** C6: with a service executor configured, [startSession] calls
    [scheduleNext] on the new driver once, calls nothing else and launches no
    worker; without one, it launches one worker for the new driver and calls no
    driver operation itself.  The worker of a driver that needs [k] calls of
    [runNext] to reach [Ended] makes exactly these [k] calls and returns; it
    runs its loop with [_nWorkers] incremented and leaves with the increment
    undone.  After each call of [runNext] the worker yields exactly when
    [_nWorkers] exceeds the number of cores: the number of available cores
    that the host reports, or its number of cores when it reports none, as an
    [unsigned]; this is the number itself when it is below [2 ^ 32]. *)
Theorem startSession_execution_strategy :
  (forall session remoteAddr localAddr (w : World D),
     consistent w ->
     sockAddr (remote session) = Some remoteAddr ->
     sockAddr (local session) = Some localAddr ->
     exists w' evs,
       startSession session w = Ok tt w' /\
       trace w' = trace w ++ evs /\
       match getServiceExecutor (_svcCtx w) with
       | Some _ =>
           driver_calls evs = [(OpScheduleNext, length (drivers w))] /\
           launched evs = []
       | None =>
           driver_calls evs = [] /\ launched evs = [length (drivers w)]
       end) /\
  (forall p fuel k ssm (w : World D) c,
     consistent w -> drivers w !! ssm = Some c ->
     ends_after k (driver c) = true -> (k < fuel)%nat ->
     exists w' evs c',
       serviceWorker p fuel ssm w = Ok tt w' /\
       trace w' = trace w ++ evs /\
       driver_calls evs = replicate k (OpRunNext, ssm) /\
       yields evs =
         (if addAndFetch (_nWorkers w) 1 >?
             match getNumAvailableCores p with
             | Some availCores => availCores
             | None => getNumCores p
             end mod 2 ^ 32
          then k else 0)%nat /\
       drivers w' !! ssm = Some c' /\ ssm_state (driver c') = Ended /\
       _nWorkers w' = _nWorkers w mod UInt64_modulus) /\
  (forall p n,
     0 <= n < 2 ^ 32 ->
     getNumAvailableCores p = Some n \/
     getNumAvailableCores p = None /\ getNumCores p = n ->
     numCores p = n) /\
  (forall ssm cores (w : World D) c,
     consistent w -> drivers w !! ssm = Some c ->
     exists w' call,
       workerIteration ssm cores w = Ok tt w' /\
       call_events OpRunNext ssm call /\
       trace w' = trace w ++ call ++
                  (if _nWorkers w >? cores then [EvYield] else [])).
Proof.
  split; [|split; [|split]].
  - intros session ra la w Hc Hra Hla.
    destruct (startSession_run session ra la w Hc Hra Hla)
      as (w' & tail & c & Hrun & _ & Htr & _ & Hcase).
    eexists w', _. split; [done|].
    split; [by rewrite Htr; cbn; rewrite <- app_assoc|].
    destruct (getServiceExecutor (_svcCtx w)).
    + by destruct Hcase as [-> | ->].
    + by destruct Hcase as (-> & _).
  - intros p fuel k ssm w c Hc Hssm Hends Hfuel.
    destruct (serviceWorker_spec p fuel ssm k w c Hc Hssm Hends Hfuel)
      as (w' & evss & c' & Hrun & _ & Hn & Htr & Hlen & Hevs & Hssm' & Hst).
    destruct (iterations_concat _ _ _ _ Hevs) as (Hcalls & Hy & _).
    rewrite Hlen in Hcalls, Hy. exists w', (concat evss), c'.
    repeat split; try done. rewrite Hy. unfold numCores, to_unsigned.
    by destruct (getNumAvailableCores p).
  - intros p n Hn Hp. unfold numCores, to_unsigned.
    destruct Hp as [-> |[-> ->]]; by apply Z.mod_small.
  - intros ssm cores w c Hc Hssm.
    destruct (workerIteration_spec ssm cores w c Hc Hssm)
      as (w' & evs & hook & Hrun & _ & _ & Htr & (call & Hcall & ->) & _).
    by exists w', call.
Qed.

(** ** Calls that overlap *)

Lemma endAllSessions_blocks tags :
  endAllSessions (D:=D) tags =
  bind (endAllSessions_scan tags) terminate_all.
Proof. reflexivity. Qed.

Lemma startSession_blocks session (w : World D) :
  startSession session w =
  bind (startSession_create session)
    (fun '(ssm, sync) =>
       bind (startSession_register ssm)
         (fun ssmIt =>
            bind (setCleanupHook ssm (EraseSession ssmIt))
              (fun _ => startSession_start sync ssm))) w.
Proof.
  unfold startSession, startSession_create, startSession_register, startSession_start.
  destruct (sockAddr (remote session)) as [ra|]; [|reflexivity].
  destruct (sockAddr (local session)) as [la|]; [|reflexivity].
  unfold bind, invariant, deref, ret, emit, get_svcCtx, ServiceStateMachine_create,
    get_drivers, set_drivers, lock, sessions_emplace_front, bind, get_sessions,
    set_sessions, emit, unlock, ret, setCleanupHook, bind, get_ssm, put_ssm,
    set_drivers, emit, add_events.
  cbn. destruct (_sessionsMutex w); [reflexivity|]. cbn.
  rewrite list_lookup_middle by done. cbn.
  destruct (getServiceExecutor (_svcCtx w)) eqn:Hex; cbn; rewrite ?Hex; reflexivity.
Qed.

(** ** What the turns keep *)

Lemma well_formed_consistent (s : Process D) :
  well_formed s -> consistent (world s).
Proof.
  intros [Hfr Hmx Hnd Hal Hinv Hend]. split; try done.
  intros ssm c ssmIt Hssm Hhook.
  pose proof (lookup_lt_Some _ _ _ Hssm) as Hlt. rewrite <- Hfr in Hlt.
  destruct (lookup_lt_is_Some_2 _ _ Hlt) as [fr Hf].
  specialize (Hinv ssm fr c Hf Hssm).
  destruct fr; cbn in Hinv.
  - destruct Hinv as (_ & Hno & _). congruence.
  - destruct Hinv as (_ & _ & Hno). congruence.
  - destruct Hinv as ([Hno|Hyes] & Hin & _); [congruence|].
    split; [congruence|]. apply Hin. congruence.
  - destruct Hinv as ([Hno|Hyes] & Hin & _); [congruence|].
    split; [congruence|]. apply Hin. congruence.
Qed.

Lemma frame_inv_trace (w : World D) evs ssm fr c :
  frame_inv w ssm fr c -> frame_inv (add_events w evs) ssm fr c.
Proof. by destruct fr. Qed.

Lemma well_formed_add_events (s : Process D) evs :
  well_formed s ->
  well_formed (MkProcess (add_events (world s) evs) (frames s) (ending s)).
Proof. intros [? ? ? ? ? ?]. split; try done. Qed.

Lemma initial_well_formed svcCtx : well_formed (initial_process (D:=D) svcCtx).
Proof.
  split; cbn; try done; [constructor|].
  intros ? ? Hcontra. by apply elem_of_nil in Hcontra.
Qed.

Lemma frame_inv_sessions (w w' : World D) ssm fr c :
  (ssm ∈ _sessions w' <-> ssm ∈ _sessions w) ->
  frame_inv w ssm fr c -> frame_inv w' ssm fr c.
Proof.
  intros Hs. destruct fr; cbn; rewrite ?Hs; try done.
Qed.

Lemma well_formed_world (s : Process D) (w' : World D) e' :
  well_formed s ->
  _sessionsMutex w' = _sessionsMutex (world s) ->
  _sessions w' = _sessions (world s) ->
  drivers w' = drivers (world s) ->
  (forall conns h, conns ∈ e' -> h ∈ conns ->
     exists conns0, conns0 ∈ ending s /\ h ∈ conns0) ->
  well_formed (MkProcess w' (frames s) e').
Proof.
  intros [Hfr Hmx Hnd Hal Hinv Hend] Hmx' Hs' Hd' He'.
  split; cbn; rewrite ?Hmx', ?Hs', ?Hd'; try done.
  - intros ssm fr c Hf Hc. apply (frame_inv_sessions (world s)); [by rewrite Hs'|].
    by apply Hinv.
  - intros conns h Hconns Hh. destruct (He' conns h Hconns Hh) as (conns0 & ? & ?).
    by apply (Hend conns0).
Qed.

Lemma ending_same (s : Process D) conns h :
  conns ∈ ending s -> h ∈ conns -> exists conns0, conns0 ∈ ending s /\ h ∈ conns0.
Proof. eauto. Qed.

Lemma ending_tail (s : Process D) call ssm rest conns h :
  ending s !! call = Some (ssm :: rest) ->
  conns ∈ <[call := rest]> (ending s) -> h ∈ conns ->
  exists conns0, conns0 ∈ ending s /\ h ∈ conns0.
Proof.
  intros Hcall Hconns Hh.
  apply list_elem_of_lookup in Hconns as [i Hi].
  destruct (decide (i = call)) as [->|Hne].
  - rewrite list_lookup_insert_eq in Hi by (by eapply lookup_lt_Some).
    injection Hi as <-. exists (ssm :: rest).
    split; [by eapply list_elem_of_lookup_2|by right].
  - rewrite list_lookup_insert_ne in Hi by done.
    exists conns. split; [by eapply list_elem_of_lookup_2|done].
Qed.

(** What the blocks of [startSession] and [endAllSessions] return. *)
Lemma startSession_create_run session (w w' : World D) ssm sync :
  startSession_create session w = Ok (ssm, sync) w' ->
  exists remoteAddr localAddr,
    sockAddr (remote session) = Some remoteAddr /\
    sockAddr (local session) = Some localAddr /\
    ssm = length (drivers w) /\
    sync = bool_decide (getServiceExecutor (_svcCtx w) = None) /\
    w' = {| _svcCtx := _svcCtx w; _nWorkers := _nWorkers w;
            _sessionsMutex := _sessionsMutex w; _sessions := _sessions w;
            drivers := drivers w ++ [MkSSM (ssm_create (_svcCtx w) session sync) None];
            trace := trace w ++
                     [EvRestrictionEnvironment (id session) remoteAddr localAddr;
                      EvCreate ssm sync] |}.
Proof.
  unfold startSession_create.
  destruct (sockAddr (remote session)) as [ra|]; [|done].
  destruct (sockAddr (local session)) as [la|]; [|done].
  unfold bind, invariant, deref, ret, emit, get_svcCtx, ServiceStateMachine_create,
    get_drivers, set_drivers, bind, emit, ret, add_events. cbn.
  intros [= <- <- <-]. exists ra, la. repeat split.
  by rewrite <- !app_assoc.
Qed.

Lemma startSession_register_run ssm (w : World D) :
  _sessionsMutex w = false ->
  startSession_register ssm w =
  Ok ssm {| _svcCtx := _svcCtx w; _nWorkers := _nWorkers w;
            _sessionsMutex := false; _sessions := ssm :: _sessions w;
            drivers := drivers w;
            trace := trace w ++ [EvLock; EvEmplace ssm; EvUnlock] |}.
Proof.
  intros Hmx.
  unfold startSession_register, bind, lock, sessions_emplace_front, bind,
    get_sessions, set_sessions, emit, unlock, ret, add_events.
  rewrite Hmx. cbn. unfold add_events. cbn. by rewrite <- !app_assoc.
Qed.

Lemma setCleanupHook_run ssm hook (w : World D) c :
  drivers w !! ssm = Some c ->
  setCleanupHook ssm hook w =
  Ok tt {| _svcCtx := _svcCtx w; _nWorkers := _nWorkers w;
           _sessionsMutex := _sessionsMutex w; _sessions := _sessions w;
           drivers := <[ssm := MkSSM (driver c) (Some hook)]> (drivers w);
           trace := trace w ++ [EvSetCleanupHook ssm] |}.
Proof.
  intros Hssm.
  unfold setCleanupHook, bind, get_ssm, put_ssm, set_drivers, emit, add_events.
  by rewrite Hssm.
Qed.

Lemma endAllSessions_scan_run tags (w : World D) :
  consistent w ->
  endAllSessions_scan tags w =
  Ok (to_terminate tags w)
     (add_events w ([EvLock] ++ map (scan_event tags w) (_sessions w) ++ [EvUnlock])).
Proof.
  intros [Hmx Hal Hnd Hhk].
  unfold endAllSessions_scan, bind at 1, lock. rewrite Hmx. cbn [emit].
  unfold bind at 1, get_sessions. cbn [add_events _sessions].
  unfold bind at 1. rewrite collect_connsToEnd_spec; cycle 1.
  { apply allocated_is_Some. apply Hal. }
  unfold bind at 1, unlock. cbn. unfold ret.
  f_equal. unfold add_events. cbn.
  rewrite <- !app_assoc. rewrite <- Hmx. reflexivity.
Qed.

Lemma well_formed_allocated (s : Process D) ssm :
  well_formed s -> (ssm < length (drivers (world s)))%nat ->
  exists fr c, frames s !! ssm = Some fr /\ drivers (world s) !! ssm = Some c.
Proof.
  intros Hwf Hlt.
  destruct (lookup_lt_is_Some_2 (drivers (world s)) ssm Hlt) as [c Hc].
  rewrite <- (wf_frames s Hwf) in Hlt.
  destruct (lookup_lt_is_Some_2 (frames s) ssm Hlt) as [fr Hf]. eauto.
Qed.

Lemma registered_past_lock (s : Process D) ssm :
  well_formed s -> ssm ∈ _sessions (world s) ->
  exists fr, frames s !! ssm = Some fr /\ past_lock fr = true.
Proof.
  intros Hwf Hin.
  pose proof (wf_allocated s Hwf) as Hal. rewrite Forall_forall in Hal.
  destruct (well_formed_allocated s ssm Hwf (Hal ssm Hin)) as (fr & c & Hf & Hc).
  exists fr. split; [done|].
  pose proof (wf_frame s Hwf ssm fr c Hf Hc) as Hinv.
  destruct fr; try done. by destruct Hinv as (? & _).
Qed.

Lemma well_formed_retag (s : Process D) ssm sync :
  well_formed s -> frames s !! ssm = Some (AtStart sync) ->
  well_formed (MkProcess (world s) (<[ssm := Returned sync]> (frames s)) (ending s)).
Proof.
  intros [Hfr Hmx Hnd Hal Hinv Hend] Hf.
  pose proof (lookup_lt_Some _ _ _ Hf) as Hlt.
  split; cbn; try done.
  - by rewrite length_insert.
  - intros h fr c Hf' Hc.
    destruct (decide (h = ssm)) as [->|Hne].
    + rewrite list_lookup_insert_eq in Hf' by done. injection Hf' as <-.
      by apply (Hinv ssm (AtStart sync) c).
    + rewrite list_lookup_insert_ne in Hf' by done. by apply Hinv.
  - intros conns h Hconns Hh. destruct (Hend conns h Hconns Hh) as (fr & Hfr' & Hp).
    destruct (decide (h = ssm)) as [->|Hne].
    + exists (Returned sync). by rewrite list_lookup_insert_eq.
    + exists fr. by rewrite list_lookup_insert_ne.
Qed.

Lemma register_well_formed (s : Process D) ssm sync ssmIt w' :
  well_formed s -> frames s !! ssm = Some (AtLock sync) ->
  startSession_register ssm (world s) = Ok ssmIt w' ->
  well_formed (MkProcess w' (<[ssm := AtSetCleanupHook sync ssmIt]> (frames s))
                         (ending s)) /\
  ssmIt = ssm /\ _sessions w' = ssm :: _sessions (world s) /\
  drivers w' = drivers (world s).
Proof.
  intros Hwf Hf Hrun.
  pose proof (lookup_lt_Some _ _ _ Hf) as Hlt.
  destruct (well_formed_allocated s ssm Hwf) as (fr & c & Hf' & Hc);
    [by rewrite <- (wf_frames s Hwf)|].
  assert (fr = AtLock sync) as -> by congruence.
  destruct Hwf as [Hfr Hmx Hnd Hal Hinv Hend].
  rewrite startSession_register_run in Hrun by done.
  injection Hrun as <- <-.
  destruct (Hinv ssm _ c Hf Hc) as (Hnin & Hhook & _).
  split; [|done]. split; cbn.
  - by rewrite length_insert.
  - done.
  - by apply NoDup_cons.
  - apply Forall_cons. split; [by rewrite <- Hfr|done].
  - intros h fr c' Hfh Hch.
    destruct (decide (h = ssm)) as [->|Hne].
    + rewrite list_lookup_insert_eq in Hfh by done. injection Hfh as <-.
      assert (c' = c) as -> by congruence. cbn.
      split; [done|]. split; [by left|done].
    + rewrite list_lookup_insert_ne in Hfh by done.
      apply (frame_inv_sessions (world s)); [|by apply Hinv].
      cbn. rewrite elem_of_cons. split; [by intros [?|?]|by right].
  - intros conns h Hconns Hh. destruct (Hend conns h Hconns Hh) as (fr & Hfh & Hp).
    destruct (decide (h = ssm)) as [->|Hne].
    + eexists. by rewrite list_lookup_insert_eq.
    + exists fr. by rewrite list_lookup_insert_ne.
Qed.

Lemma hook_well_formed (s : Process D) ssm sync ssmIt w' :
  well_formed s -> frames s !! ssm = Some (AtSetCleanupHook sync ssmIt) ->
  setCleanupHook ssm (EraseSession ssmIt) (world s) = Ok tt w' ->
  well_formed (MkProcess w' (<[ssm := AtStart sync]> (frames s)) (ending s)) /\
  _sessions w' = _sessions (world s).
Proof.
  intros Hwf Hf Hrun.
  pose proof (lookup_lt_Some _ _ _ Hf) as Hlt.
  destruct (well_formed_allocated s ssm Hwf) as (fr & c & Hf' & Hc);
    [by rewrite <- (wf_frames s Hwf)|].
  assert (fr = AtSetCleanupHook sync ssmIt) as -> by congruence.
  destruct Hwf as [Hfr Hmx Hnd Hal Hinv Hend].
  rewrite (setCleanupHook_run _ _ _ c) in Hrun by done.
  injection Hrun as <-.
  destruct (Hinv ssm _ c Hf Hc) as (-> & Hin & Hhook).
  split; [|done]. split; cbn.
  - by rewrite !length_insert.
  - done.
  - done.
  - by rewrite length_insert.
  - intros h fr c' Hfh Hch.
    destruct (decide (h = ssm)) as [->|Hne].
    + rewrite list_lookup_insert_eq in Hfh by done. injection Hfh as <-.
      rewrite list_lookup_insert_eq in Hch by (by rewrite <- Hfr).
      injection Hch as <-. cbn. split; [by right|]. split; [done|done].
    + rewrite list_lookup_insert_ne in Hfh by done.
      rewrite list_lookup_insert_ne in Hch by done.
      apply (frame_inv_sessions (world s)); [done|by apply Hinv].
  - intros conns h Hconns Hh. destruct (Hend conns h Hconns Hh) as (fr & Hfh & Hp).
    destruct (decide (h = ssm)) as [->|Hne].
    + eexists. by rewrite list_lookup_insert_eq.
    + exists fr. by rewrite list_lookup_insert_ne.
Qed.

Lemma scan_well_formed tags (s : Process D) conns w' :
  well_formed s ->
  endAllSessions_scan tags (world s) = Ok conns w' ->
  well_formed (MkProcess w' (frames s) (ending s ++ [conns])) /\
  conns = to_terminate tags (world s) /\
  _sessions w' = _sessions (world s) /\ drivers w' = drivers (world s).
Proof.
  intros Hwf Hrun.
  rewrite endAllSessions_scan_run in Hrun by (by apply well_formed_consistent).
  injection Hrun as <- <-. split; [|done].
  pose proof (well_formed_add_events s
    ([EvLock] ++ map (scan_event tags (world s)) (_sessions (world s)) ++ [EvUnlock])
    Hwf) as [Hfr Hmx Hnd Hal Hinv Hend].
  split; try done. cbn.
  intros connsToEnd h Hconns Hh.
  apply elem_of_app in Hconns as [Hold|Hnew].
  - by apply (Hend connsToEnd).
  - apply list_elem_of_singleton in Hnew as ->.
    apply list_elem_of_filter in Hh as [_ Hh]. by apply registered_past_lock.
Qed.

(** ** Counting the nodes *)





Section ContractClaims.

Context `{!DriverContract D}.

Lemma create_well_formed session (s : Process D) ssm sync w' :
  well_formed s ->
  startSession_create session (world s) = Ok (ssm, sync) w' ->
  well_formed (MkProcess w' (frames s ++ [AtLock sync]) (ending s)).
Proof.
  intros [Hfr Hmx Hnd Hal Hinv Hend] Hrun.
  destruct (startSession_create_run _ _ _ _ _ Hrun)
    as (ra & la & _ & _ & -> & Hsync & ->).
  rewrite Forall_forall in Hal.
  split; cbn.
  - rewrite !length_app. cbn. lia.
  - done.
  - done.
  - apply Forall_forall. intros h Hh%Hal. rewrite length_app. lia.
  - intros h fr c Hf Hc.
    destruct (decide (h < length (drivers (world s)))%nat) as [Hlt|Hge].
    + rewrite lookup_app_l in Hc by done.
      rewrite lookup_app_l in Hf by (by rewrite Hfr).
      apply (frame_inv_sessions (world s)); [done|by apply Hinv].
    + rewrite lookup_app_r in Hc by lia. rewrite lookup_app_r in Hf by lia.
      rewrite Hfr in Hf.
      destruct (h - length (drivers (world s)))%nat as [|k] eqn:Hk; cbn in Hc, Hf;
        [|done].
      injection Hc as <-. injection Hf as <-. cbn. split; [|split; [done|]].
      { intros Hin%Hal. lia. }
      apply bool_decide_eq_true, create_not_Ended.
  - intros conns h Hconns Hh. destruct (Hend conns h Hconns Hh) as (fr & Hf & Hp).
    exists fr. split; [by apply lookup_app_l_Some|done].
Qed.

(** A call of a driver operation on a registered driver. *)
Lemma ssm_call_well_formed op ssm (s : Process D) w' fr e' :
  well_formed s -> frames s !! ssm = Some fr -> past_lock fr = true ->
  ssm_call op ssm (world s) = Ok tt w' ->
  (forall conns h, conns ∈ e' -> h ∈ conns ->
     exists conns0, conns0 ∈ ending s /\ h ∈ conns0) ->
  well_formed (MkProcess w' (frames s) e').
Proof.
  intros Hwf Hf Hpast Hrun He'.
  pose proof (well_formed_consistent s Hwf) as Hc.
  destruct Hwf as [Hfr Hmx Hnd Hal Hinv Hend].
  destruct (ssm_call_inv _ _ _ _ Hrun) as [c Hssm].
  destruct (ssm_call_spec op ssm (world s) c Hc Hssm)
    as (w1 & Hrun1 & Hc1 & _ & _ & Hd & Hcases). cbv zeta in Hd, Hcases.
  assert (w1 = w') as -> by congruence.
  pose proof (lookup_lt_Some _ _ _ Hssm) as Hlt.
  pose proof (Hinv ssm fr c Hf Hssm) as Hssm_inv.
  assert (forall h, h <> ssm -> h ∈ _sessions w' <-> h ∈ _sessions (world s)) as Hother.
  { intros h Hne. destruct Hcases as [(_ & _ & Hers & _)|(_ & -> & _)]; [|done].
    destruct (list_erase_NoDup _ _ _ Hnd Hers) as [_ Hin']. rewrite Hin'. tauto. }
  split; cbn.
  - by rewrite Hd, length_insert.
  - apply Hc1.
  - apply Hc1.
  - apply Hc1.
  - intros h fr' c' Hf' Hc'. rewrite Hd in Hc'.
    destruct (decide (h = ssm)) as [->|Hne]; cycle 1.
    { rewrite list_lookup_insert_ne in Hc' by done.
      apply (frame_inv_sessions (world s)); [by apply Hother|by apply Hinv]. }
    rewrite list_lookup_insert_eq in Hc' by done. injection Hc' as <-.
    assert (fr' = fr) as -> by congruence.
    destruct Hcases as [(Hends & Hhook & Hers & _)|(Hno & Hs & _)].
    + rewrite Hends. apply bool_decide_eq_true in Hends as [Hlive Hend'].
      destruct (list_erase_NoDup _ _ _ Hnd Hers) as [_ Hin'].
      destruct fr; cbn in Hssm_inv, Hpast |- *; try done.
      * destruct Hssm_inv as (_ & _ & ?). congruence.
      * split; [by left|]. split.
        -- rewrite Hin'. split; [by intros [_ ?]|done].
        -- unfold live. cbn. rewrite bool_decide_eq_true. done.
      * split; [by left|]. split.
        -- rewrite Hin'. split; [by intros [_ ?]|done].
        -- unfold live. cbn. rewrite bool_decide_eq_true. done.
    + assert (forall sync : bool,
               (cleanupHook c = None \/ cleanupHook c = Some (EraseSession ssm)) /\
               (ssm ∈ _sessions (world s) <-> cleanupHook c <> None) /\
               (live c = true -> cleanupHook c <> None) ->
               frame_inv w' ssm (AtStart sync)
                 (MkSSM (driver_op op (driver c))
                    (if bool_decide (ssm_state (driver c) <> Ended /\
                                     ssm_state (driver_op op (driver c)) = Ended)
                     then None else cleanupHook c))) as Hstart.
      { intros sync0 (Hshape & Hin & Hlh). cbn. rewrite Hs.
        case_bool_decide as Hends.
        - destruct Hends as [Hlive _]. exfalso.
          destruct Hno as [?|Hno]; [done|]. apply Hlh; [|done].
          by apply bool_decide_eq_true.
        - split; [done|]. split; [done|].
          unfold live. cbn. rewrite bool_decide_eq_true. intros Hlive'.
          apply Hlh. apply bool_decide_eq_true. intros Hended.
          apply Hlive'. by apply driver_op_Ended. }
      destruct fr; cbn in Hssm_inv, Hpast; try done.
      * destruct Hssm_inv as (-> & Hin & Hnone). cbn. rewrite Hs, Hnone.
        repeat split; try done. by case_bool_decide.
      * by apply (Hstart sync).
      * by apply (Hstart sync).
  - intros conns h Hconns Hh. destruct (He' conns h Hconns Hh) as (conns0 & ? & ?).
    by apply (Hend conns0).
Qed.

Lemma returns_Some {A} (r : Result D A) a w :
  returns r = Some (a, w) -> r = Ok a w.
Proof. destruct r; cbn; congruence. Qed.

Lemma start_well_formed (s : Process D) ssm sync w' :
  well_formed s -> frames s !! ssm = Some (AtStart sync) ->
  startSession_start sync ssm (world s) = Ok tt w' ->
  well_formed (MkProcess w' (<[ssm := Returned sync]> (frames s)) (ending s)).
Proof.
  intros Hwf Hf Hrun. unfold startSession_start in Hrun.
  destruct sync; cbn [negb] in Hrun.
  - unfold launchServiceWorkerThread, emit in Hrun. injection Hrun as <-.
    apply (well_formed_retag (MkProcess _ (frames s) (ending s))); [|done].
    by apply well_formed_add_events.
  - apply bind_inv in Hrun as (svcCtx & w1 & H1 & Hrun).
    unfold get_svcCtx in H1. injection H1 as <- <-.
    apply bind_inv in Hrun as ([] & w1 & H1 & Hrun).
    unfold invariant in H1. destruct (bool_decide _); [|done].
    unfold ret in H1. injection H1 as <-.
    apply (well_formed_retag (MkProcess w' (frames s) (ending s))); [|done].
    apply (ssm_call_well_formed OpScheduleNext ssm s w' (AtStart false)); try done.
    apply ending_same.
Qed.

Lemma worker_well_formed (s : Process D) ssm cores w' :
  well_formed s -> frames s !! ssm = Some (Returned true) ->
  run_step (WorkerIterates ssm cores) (world s) = Ok tt w' ->
  well_formed (MkProcess w' (frames s) (ending s)).
Proof.
  intros Hwf Hf Hrun. cbn in Hrun.
  apply bind_inv in Hrun as (c & w1 & H1 & Hrun).
  unfold get_ssm in H1. destruct (drivers (world s) !! ssm); [|done].
  injection H1 as <- <-.
  destruct (decide _); [unfold ret in Hrun; injection Hrun as <-; by destruct s|].
  unfold workerIteration in Hrun.
  apply bind_inv in Hrun as ([] & w1 & H1 & Hrun).
  apply bind_inv in Hrun as (k & w2 & H2 & Hrun).
  unfold nWorkers_load in H2. injection H2 as <- <-.
  pose proof (ssm_call_well_formed OpRunNext ssm s w1 (Returned true) (ending s)
                Hwf Hf eq_refl H1 (ending_same s)) as Hwf1.
  destruct (_ >? cores).
  - unfold emit in Hrun. injection Hrun as <-.
    by apply (well_formed_add_events (MkProcess w1 (frames s) (ending s))).
  - unfold ret in Hrun. by injection Hrun as <-.
Qed.

(** Every turn keeps the process well formed. *)
Lemma turn_well_formed a (s s' : Process D) :
  well_formed s -> turn a s = Some s' -> well_formed s'.
Proof.
  intros Hwf Hturn. destruct a; cbn [turn] in Hturn.
  - destruct (returns _) as [[[ssm sync] w']|] eqn:Hrun; [|done].
    injection Hturn as <-. apply returns_Some in Hrun.
    by eapply create_well_formed.
  - destruct (frames s !! ssm) as [[sync| | |]|] eqn:Hf; try done.
    destruct (returns _) as [[ssmIt w']|] eqn:Hrun; [|done].
    injection Hturn as <-. apply returns_Some in Hrun.
    by destruct (register_well_formed s ssm sync ssmIt w' Hwf Hf Hrun).
  - destruct (frames s !! ssm) as [[|sync ssmIt| |]|] eqn:Hf; try done.
    destruct (returns _) as [[[] w']|] eqn:Hrun; [|done].
    injection Hturn as <-. apply returns_Some in Hrun.
    by destruct (hook_well_formed s ssm sync ssmIt w' Hwf Hf Hrun).
  - destruct (frames s !! ssm) as [[| |sync|]|] eqn:Hf; try done.
    destruct (returns _) as [[[] w']|] eqn:Hrun; [|done].
    injection Hturn as <-. apply returns_Some in Hrun.
    by apply start_well_formed.
  - destruct (returns _) as [[conns w']|] eqn:Hrun; [|done].
    injection Hturn as <-. apply returns_Some in Hrun.
    by destruct (scan_well_formed tags s conns w' Hwf Hrun).
  - destruct (ending s !! call) as [[|ssm rest]|] eqn:Hcall; try done.
    destruct (returns _) as [[[] w']|] eqn:Hrun; [|done].
    injection Hturn as <-. apply returns_Some in Hrun.
    destruct (wf_ending s Hwf (ssm :: rest) ssm) as (fr & Hf & Hp);
      [by apply (list_elem_of_lookup_2 _ call)|by left|].
    apply (ssm_call_well_formed OpTerminate ssm s w' fr); try done.
    intros conns h. by apply (ending_tail s call ssm rest).
  - destruct (returns _) as [[n w']|] eqn:Hrun; [|done].
    injection Hturn as <-. apply returns_Some in Hrun.
    rewrite getNumberOfConnections_run in Hrun by apply Hwf.
    injection Hrun as _ <-. by apply well_formed_add_events.
  - destruct (returns _) as [[[] w']|] eqn:Hrun; [|done].
    injection Hturn as <-. apply returns_Some in Hrun.
    cbn in Hrun. injection Hrun as <-.
    by apply well_formed_world; [| | | |apply ending_same].
  - destruct (frames s !! ssm) as [[| | |[|]]|] eqn:Hf; try done.
    destruct (returns _) as [[[] w']|] eqn:Hrun; [|done].
    injection Hturn as <-. apply returns_Some in Hrun.
    by apply (worker_well_formed s ssm cores).
  - destruct (returns _) as [[[] w']|] eqn:Hrun; [|done].
    injection Hturn as <-. apply returns_Some in Hrun.
    cbn in Hrun. injection Hrun as <-.
    by apply well_formed_world; [| | | |apply ending_same].
  - destruct (frames s !! ssm) as [[| | |[|]]|] eqn:Hf; try done.
    destruct (returns _) as [[[] w']|] eqn:Hrun; [|done].
    injection Hturn as <-. apply returns_Some in Hrun.
    apply (ssm_call_well_formed op ssm s w' (Returned false)); try done.
    apply ending_same.
Qed.

(** ** What a turn does *)







Lemma run_turns_interleaving schedule : forall (s s' : Process D),
  interleaving s -> run_turns schedule s = Some s' -> interleaving s'.
Proof.
  induction schedule as [|a schedule IH]; intros s s' Hs Hrun; cbn in Hrun.
  - by injection Hrun as <-.
  - destruct (turn a s) as [s1|] eqn:Hturn; [|done].
    apply (IH s1 s'); [|done]. by apply (interleaving_turn s a).
Qed.

Lemma interleaving_well_formed (s : Process D) : interleaving s -> well_formed s.
Proof.
  induction 1 as [svcCtx|s a s' _ IH Hturn].
  - apply initial_well_formed.
  - by apply (turn_well_formed a s).
Qed.

(** X21: with calls that overlap, between any two turns of the threads the
    mutex is free, every node of the registry holds the handle of an allocated
    driver, no two nodes hold the same handle, and an installed hook denotes
    the node of its own driver, which is in the registry. *)
Theorem interleavings_keep_registry_consistent (s : Process D) :
  interleaving s -> consistent (world s).
Proof. intros Hs. by apply well_formed_consistent, interleaving_well_formed. Qed.



End ContractClaims.

Lemma run_steps_reachable sts : forall (w w' : World D),
  reachable w -> run_steps sts w = Ok tt w' -> reachable w'.
Proof.
  induction sts as [|st sts IH]; intros w w' Hr Hrun; cbn in Hrun.
  - unfold ret in Hrun. by injection Hrun as <-.
  - apply bind_inv in Hrun as ([] & w1 & H1 & H2).
    apply (IH w1 w'); [|done]. by apply (reachable_step w st).
Qed.

End Run.

(** ** The sample driver *)

Import Sample.

#[global] Instance conn_contract : DriverContract Conn.
Proof.
  split; cbn.
  - done.
  - auto.
  - intros d Hd. unfold conn_runNext. by rewrite Hd.
  - done.
Qed.

Lemma sync_world_reachable : reachable sync_world.
Proof.
  apply (run_steps_reachable two_sessions (initial_world (MkServiceContext None)));
    [constructor | vm_compute; reflexivity].
Qed.

Lemma async_world_reachable : reachable async_world.
Proof.
  apply (run_steps_reachable two_sessions
           (initial_world (MkServiceContext (Some 0%nat))));
    [constructor | vm_compute; reflexivity].
Qed.

Lemma endAllSessions_terminates_unmatched_witness :
  consistent sync_world /\
  exists w' evs,
    endAllSessions 1 sync_world = Ok tt w' /\
    trace w' = trace sync_world ++ evs /\
    driver_calls evs = [(OpTerminate, 1%nat)] /\
    logged evs = [1] /\
    drivers w' !! 0%nat = drivers sync_world !! 0%nat.
Proof.
  pose proof (reachable_consistent sync_world sync_world_reachable) as Hc.
  split; [exact Hc|].
  destruct (endAllSessions_terminates_unmatched 1 sync_world Hc)
    as (_ & _ & w' & evs & Hrun & Htr & Hcalls & _ & Hlog & _ & Hskip).
  exists w', evs. repeat split; try assumption.
  apply Hskip. vm_compute. left.
Defined.

Lemma endAllSessions_releases_before_terminate_witness :
  consistent async_world /\
  exists w' scan calls,
    endAllSessions 1 async_world = Ok tt w' /\
    trace w' = trace async_world ++ [EvLock] ++ scan ++ [EvUnlock] ++ calls /\
    scan = [EvSnapshot 1; EvLog 1] /\
    driver_calls scan = [] /\
    driver_calls calls = [(OpTerminate, 1%nat)] /\
    follow_mutex false calls = Some false.
Proof.
  pose proof (reachable_consistent async_world async_world_reachable) as Hc.
  split; [exact Hc|].
  destruct (endAllSessions_releases_before_terminate 1 async_world Hc)
    as (w' & scan & calls & Hrun & Htr & Hscan & _ & Hs & _ & _ & Hcalls & Hmx & _).
  exists w', scan, calls. repeat split; assumption.
Defined.

Lemma startSession_fails_iff_unresolved_witness :
  consistent sync_world /\
  startSession unresolved_session sync_world = Fail InvariantFailure /\
  exists w', startSession client_session sync_world = Ok tt w'.
Proof.
  pose proof (reachable_consistent sync_world sync_world_reachable) as Hc.
  split; [exact Hc|]. split.
  - apply (startSession_fails_iff_unresolved unresolved_session sync_world Hc).
    left. reflexivity.
  - apply (startSession_fails_iff_unresolved client_session sync_world Hc).
    split; eexists; reflexivity.
Defined.

Lemma startSession_execution_strategy_witness :
  (exists w' evs c',
     serviceWorker (MkProcessInfo (Some 0) 8) 10 1%nat sync_world = Ok tt w' /\
     trace w' = trace sync_world ++ evs /\
     driver_calls evs = [(OpRunNext, 1%nat); (OpRunNext, 1%nat); (OpRunNext, 1%nat)] /\
     yields evs = 3%nat /\
     drivers w' !! 1%nat = Some c' /\ ssm_state (driver c') = Ended /\
     _nWorkers w' = 0) /\
  (exists w' evs c',
     serviceWorker (MkProcessInfo None 8) 10 1%nat sync_world = Ok tt w' /\
     trace w' = trace sync_world ++ evs /\
     driver_calls evs = [(OpRunNext, 1%nat); (OpRunNext, 1%nat); (OpRunNext, 1%nat)] /\
     yields evs = 0%nat /\
     drivers w' !! 1%nat = Some c' /\ ssm_state (driver c') = Ended /\
     _nWorkers w' = 0) /\
  numCores (MkProcessInfo (Some 4) 8) = 4 /\
  numCores (MkProcessInfo None 8) = 8.
Proof.
  destruct startSession_execution_strategy as (_ & Hworker & Hcores & _).
  split; [|split; [|split]].
  - eapply (Hworker (MkProcessInfo (Some 0) 8) 10%nat 3%nat 1%nat sync_world).
    + apply (reachable_consistent sync_world sync_world_reachable).
    + vm_compute. reflexivity.
    + vm_compute. reflexivity.
    + lia.
  - eapply (Hworker (MkProcessInfo None 8) 10%nat 3%nat 1%nat sync_world).
    + apply (reachable_consistent sync_world sync_world_reachable).
    + vm_compute. reflexivity.
    + vm_compute. reflexivity.
    + lia.
  - apply Hcores; [lia|]. left. reflexivity.
  - apply Hcores; [lia|]. right. split; reflexivity.
Defined.

Lemma process_after_interleaving svcCtx schedule s :
  run_turns schedule (initial_process svcCtx) = Some s ->
  interleaving (process_after svcCtx schedule).
Proof.
  intros Hrun. unfold process_after. rewrite Hrun. cbn.
  apply (run_turns_interleaving schedule (initial_process svcCtx)); [constructor|done].
Qed.

Lemma overtaken_and_served_interleaving :
  interleaving (process_after (MkServiceContext None) overtaken_and_served).
Proof.
  assert (exists s, run_turns overtaken_and_served
                      (initial_process (MkServiceContext None)) = Some s) as [s Hs]
    by (eexists; vm_compute; reflexivity).
  by apply (process_after_interleaving _ _ s).
Qed.


Lemma interleavings_keep_registry_consistent_witness :
  interleaving (process_after (MkServiceContext None) overtaken_and_served) /\
  consistent (world (process_after (MkServiceContext None) overtaken_and_served)).
Proof.
  split; [exact overtaken_and_served_interleaving|].
  apply (interleavings_keep_registry_consistent
           (process_after (MkServiceContext None) overtaken_and_served)
           overtaken_and_served_interleaving).
Defined.





End RegistryProps.

(** * More properties of the registry *)

Module RegistryMore.

Import Session ServiceEntryPoint RegistryProps.

Section More.

Context {D : Type} `{Driver D} `{SessionTags}.

(** ** What executions keep and what they never do *)

(** X2: in every world that an execution passes through, the mutex is free
    (no step returns holding it), no two nodes of the registry hold the same
    driver, every node holds an allocated driver, and an installed cleanup
    hook erases the node of its own driver, which is in the registry. *)
Theorem executions_keep_registry_consistent (w : World D) :
  reachable w ->
  _sessionsMutex w = false /\
  NoDup (_sessions w) /\
  (forall ssm, ssm ∈ _sessions w -> is_Some (drivers w !! ssm)) /\
  (forall ssm c ssmIt,
     drivers w !! ssm = Some c -> cleanupHook c = Some (EraseSession ssmIt) ->
     ssmIt = ssm /\ ssm ∈ _sessions w).
Proof.
  intros [Hmx Hal Hnd Hhk]%reachable_consistent.
  split; [done|]. split; [done|]. split; [|done].
  intros ssm Hin. apply lookup_lt_is_Some. rewrite Forall_forall in Hal. by apply Hal.
Qed.

Lemma set_nWorkers_consistent n (w : World D) :
  consistent w -> exists w', set_nWorkers n w = Ok tt w' /\ consistent w'.
Proof. intros [? ? ? ?]. eexists. split; [reflexivity|]. by split. Qed.

(** X3: a step taken in a consistent world returns, in a consistent world,
    with two exceptions: [startSession] on a session with an unresolved address
    fails the invariant, and a step that follows a handle to no driver fails on
    the dangling handle.  So no step relocks the mutex, releases a free mutex,
    erases through a stale iterator or dereferences an absent address. *)
Theorem steps_never_undefined st (w : World D) :
  consistent w ->
  (exists w', run_step st w = Ok tt w' /\ consistent w') \/
  (run_step st w = Fail InvariantFailure /\
   exists session, st = CallStartSession session /\
     (sockAddr (remote session) = None \/ sockAddr (local session) = None)) \/
  (run_step st w = Fail DanglingHandle /\
   exists ssm, step_handle st = Some ssm /\ drivers w !! ssm = None).
Proof.
  intros Hc.
  destruct st as [session|tags| | |ssm cores| |op ssm]; cbn [run_step step_handle].
  - destruct (sockAddr (remote session)) as [ra|] eqn:Hra;
      [destruct (sockAddr (local session)) as [la|] eqn:Hla|].
    + destruct (startSession_run session ra la w Hc Hra Hla)
        as (w' & tail & c & Hrun & Hc' & _). left. eauto.
    + right. left. split; [apply startSession_unresolved; auto|]. eauto.
    + right. left. split; [apply startSession_unresolved; auto|]. eauto.
  - destruct (endAllSessions_run tags w Hc) as (w' & evss & Hrun & Hc' & _).
    left. eauto.
  - left. unfold bind. rewrite getNumberOfConnections_run by apply Hc.
    eexists. split; [reflexivity|]. by apply consistent_add_events.
  - left. unfold nWorkers_addAndFetch, bind, nWorkers_load.
    destruct (set_nWorkers_consistent (addAndFetch (_nWorkers w) 1) w Hc)
      as (w' & -> & Hc'). eauto.
  - destruct (drivers w !! ssm) as [c|] eqn:Hssm.
    + left. unfold bind at 1, get_ssm. rewrite Hssm.
      destruct (decide _); [unfold ret; eauto|].
      destruct (workerIteration_spec ssm cores w c Hc Hssm)
        as (w' & evs & hook & Hrun & Hc' & _). eauto.
    + right. right. split; [|eauto]. unfold bind, get_ssm. by rewrite Hssm.
  - left. unfold nWorkers_subtractAndFetch, bind, nWorkers_load.
    destruct (set_nWorkers_consistent (subtractAndFetch (_nWorkers w) 1) w Hc)
      as (w' & -> & Hc'). eauto.
  - destruct (drivers w !! ssm) as [c|] eqn:Hssm.
    + left. destruct (ssm_call_spec op ssm w c Hc Hssm) as (w' & Hrun & Hc' & _).
      eauto.
    + right. right. split; [by apply ssm_call_dangling|eauto].
Qed.

(** X4: [startSession] changes the registry only while it holds the mutex and
    calls the driver only while the mutex is free: it creates the driver, adds
    the node under the lock, and installs the hook and starts the execution
    after the release; it returns with the mutex free. *)
Theorem startSession_locks_only_registry session remoteAddr localAddr (w : World D) :
  consistent w ->
  sockAddr (remote session) = Some remoteAddr ->
  sockAddr (local session) = Some localAddr ->
  exists w' evs,
    startSession session w = Ok tt w' /\
    trace w' = trace w ++ evs /\
    follow_mutex false evs = Some false /\
    _sessionsMutex w' = false.
Proof.
  intros Hc Hra Hla.
  destruct (startSession_run session remoteAddr localAddr w Hc Hra Hla)
    as (w' & tail & c & Hrun & Hc' & Htr & _ & Hcase).
  eexists w', _. split; [done|].
  split; [by rewrite Htr; cbn; rewrite <- app_assoc|].
  split; [|apply Hc'].
  rewrite follow_mutex_app. cbn.
  destruct (getServiceExecutor (_svcCtx w)).
  - by destruct Hcase as [-> | ->].
  - by destruct Hcase as (-> & _).
Qed.

(** ** [endAllSessions] *)

(** X5: with the empty tag mask [endAllSessions] skips nothing: it calls
    [terminate] on every registered driver, in the order of the registry, and
    writes no log line. *)
Theorem endAllSessions_empty_mask_terminates_all (w : World D) :
  consistent w ->
  exists w' evs,
    endAllSessions 0 w = Ok tt w' /\
    trace w' = trace w ++ evs /\
    driver_calls evs = map (fun ssm => (OpTerminate, ssm)) (_sessions w) /\
    logged evs = [].
Proof.
  intros Hc.
  destruct (endAllSessions_run 0 w Hc)
    as (w' & evss & Hrun & _ & _ & _ & _ & Htr & Hevs & _).
  destruct (endAllSessions_empty_mask w Hc) as [Hall Hnone].
  destruct (calls_concat _ _ _ Hevs) as (Hcalls & Hlog & _).
  destruct (scan_events_spec 0 w (_sessions w)) as (Hs1 & _ & _ & Hs4).
  eexists w', _. split; [done|]. split; [done|]. split.
  - rewrite !driver_calls_app, Hs1, Hcalls, Hall. reflexivity.
  - rewrite !logged_app, Hs4, Hlog. fold (to_skip 0 w). by rewrite Hnone.
Qed.

Lemma list_erase_sublist (x : Handle) (l l' : SSMList) :
  list_erase x l = Some l' -> l' `sublist_of` l.
Proof.
  intros (l1 & l2 & -> & -> & _)%list_erase_Some.
  apply sublist_app; [done|]. by apply sublist_cons.
Qed.

Lemma list_erase_other (x y : Handle) (l l' : SSMList) :
  list_erase x l = Some l' -> y ∈ l -> y <> x -> y ∈ l'.
Proof.
  intros (l1 & l2 & -> & -> & _)%list_erase_Some.
  rewrite !elem_of_app, elem_of_cons. tauto.
Qed.

(** What a call of a driver operation does to the registry. *)
Lemma ssm_call_sessions op ssm (w w' : World D) :
  consistent w -> ssm_call op ssm w = Ok tt w' ->
  _sessions w' `sublist_of` _sessions w /\
  forall ssm', ssm' ∈ _sessions w -> ssm' <> ssm -> ssm' ∈ _sessions w'.
Proof.
  intros Hc Hrun. destruct (ssm_call_inv _ _ _ _ Hrun) as [c Hssm].
  destruct (ssm_call_spec op ssm w c Hc Hssm)
    as (w1 & Hrun1 & _ & _ & _ & _ & Hcases). cbv zeta in Hcases.
  assert (w1 = w') as -> by congruence.
  destruct Hcases as [(_ & _ & Hers & _)|(_ & -> & _)]; [|done].
  split; [by eapply list_erase_sublist|].
  intros ssm' Hin Hne. by eapply list_erase_other.
Qed.

Lemma terminate_all_sessions conns : forall (w w' : World D),
  consistent w -> terminate_all conns w = Ok tt w' ->
  _sessions w' `sublist_of` _sessions w /\
  forall ssm, ssm ∈ _sessions w -> ssm ∉ conns -> ssm ∈ _sessions w'.
Proof.
  induction conns as [|ssm conns IH]; intros w w' Hc Hrun; cbn in Hrun.
  - unfold ret in Hrun. by injection Hrun as <-.
  - apply bind_inv in Hrun as ([] & w1 & H1 & H2).
    pose proof (ssm_call_consistent _ _ _ _ Hc H1) as Hc1.
    destruct (ssm_call_sessions _ _ _ _ Hc H1) as [Hsub1 Hin1].
    destruct (IH w1 w' Hc1 H2) as [Hsub Hin]. split.
    + by etrans.
    + intros h Hh [Hne Hnin]%not_elem_of_cons. apply Hin; [|done]. by apply Hin1.
Qed.

(** X6: [endAllSessions] only ever removes nodes from the registry, and the
    remaining nodes keep their order; the node of every skipped driver is still
    there when it returns. *)
Theorem endAllSessions_keeps_skipped tags (w : World D) :
  consistent w ->
  exists w',
    endAllSessions tags w = Ok tt w' /\
    _sessions w' `sublist_of` _sessions w /\
    forall ssm, ssm ∈ to_skip tags w -> ssm ∈ _sessions w'.
Proof.
  intros Hc.
  destruct (endAllSessions_run tags w Hc) as (w' & evss & Hrun & _).
  exists w'. split; [done|].
  rewrite endAllSessions_unfold in Hrun by done.
  destruct (terminate_all_sessions _ _ _
              (consistent_add_events w _ Hc) Hrun) as [Hsub Hin].
  split; [done|]. intros ssm [Hs Hreg]%list_elem_of_filter.
  apply Hin; [done|]. intros [Hs' _]%list_elem_of_filter. congruence.
Qed.

(** ** The worker *)

(** What one pass of the worker does to the driver and to the registry. *)
Lemma workerIteration_effect ssm cores (w w' : World D) c :
  consistent w -> drivers w !! ssm = Some c ->
  workerIteration ssm cores w = Ok tt w' ->
  consistent w' /\
  exists hook,
    drivers w' !! ssm = Some (MkSSM (ssm_runNext (driver c)) hook) /\
    ((ssm_state (driver c) <> Ended /\ ssm_state (ssm_runNext (driver c)) = Ended /\
      (cleanupHook c = Some (EraseSession ssm) ->
       list_erase ssm (_sessions w) = Some (_sessions w'))) \/
     (~ (ssm_state (driver c) <> Ended /\ ssm_state (ssm_runNext (driver c)) = Ended) /\
      hook = cleanupHook c /\ _sessions w' = _sessions w)).
Proof.
  intros Hc Hssm Hrun.
  destruct (ssm_call_spec OpRunNext ssm w c Hc Hssm)
    as (w1 & Hrun1 & Hc1 & _ & _ & Hd1 & Hev1). cbv zeta in Hd1, Hev1. cbn in Hd1, Hev1.
  pose proof (lookup_lt_Some _ _ _ Hssm) as Hlt.
  unfold workerIteration in Hrun. rewrite (bind_Ok _ _ _ _ _ Hrun1) in Hrun.
  assert (consistent w' /\ drivers w' = drivers w1 /\ _sessions w' = _sessions w1)
    as (Hc' & Hd' & Hs').
  { unfold bind, nWorkers_load in Hrun.
    destruct (_ >? _); unfold emit, ret in Hrun; injection Hrun as <-; [|done].
    split; [by apply consistent_add_events|done]. }
  split; [done|]. eexists. rewrite Hd', Hd1, Hs'.
  split; [by apply list_lookup_insert_eq|].
  case_bool_decide as Hends.
  - left. destruct Hends as [Hlive Hend]. split; [done|]. split; [done|].
    intros Hhook. destruct Hev1 as [(_ & _ & Hers & _)|([?|Hno] & _)];
      [done|done|congruence].
  - right. split; [done|]. split; [done|].
    by destruct Hev1 as [(? & _)|(_ & -> & _)].
Qed.

Lemma ends_after_Ended k (d : D) :
  ends_after k d = true -> ssm_state d = Ended -> k = 0%nat.
Proof.
  destruct k as [|k]; [done|]. cbn. intros [Hlive _]%andb_true_iff Hd.
  by apply bool_decide_eq_true in Hlive.
Qed.

Lemma workerLoop_erases ssm cores k : forall fuel (w w' : World D) c,
  consistent w -> drivers w !! ssm = Some c ->
  cleanupHook c = Some (EraseSession ssm) ->
  ends_after (S k) (driver c) = true ->
  workerLoop fuel ssm cores w = Ok tt w' ->
  list_erase ssm (_sessions w) = Some (_sessions w').
Proof.
  induction k as [|k IH]; intros fuel w w' c Hc Hssm Hhook Hends Hrun;
    (destruct fuel as [|fuel]; [done|]); cbn [workerLoop] in Hrun;
    unfold bind at 1, get_ssm in Hrun; rewrite Hssm in Hrun;
    cbn [ends_after] in Hends;
    apply andb_true_iff in Hends as [Hlive%bool_decide_eq_true Hends];
    rewrite decide_False in Hrun by done;
    apply bind_inv in Hrun as ([] & w1 & H1 & H2);
    destruct (workerIteration_effect ssm cores w w1 c Hc Hssm H1)
      as (Hc1 & hook & Hssm1 & Hcase).
  - apply bool_decide_eq_true in Hends.
    destruct Hcase as [(_ & _ & Hers)|(Hno & _)]; [|by destruct Hno].
    destruct fuel as [|fuel]; [done|]. cbn [workerLoop] in H2.
    unfold bind at 1, get_ssm in H2. rewrite Hssm1 in H2. cbn [driver] in H2.
    rewrite decide_True in H2 by done. unfold ret in H2. injection H2 as <-. auto.
  - pose proof Hends as Hends'. cbn [ends_after] in Hends'.
    apply andb_true_iff in Hends' as [Hlive1%bool_decide_eq_true _].
    destruct Hcase as [(_ & Hend & _)|(_ & -> & Hs)]; [done|].
    rewrite <- Hs. by apply (IH fuel w1 w' _ Hc1 Hssm1).
Qed.

(** X7: the round trip of a connection served by a dedicated worker.  Without
    a service executor, [startSession] puts the node of the new driver in front
    of the registry; when the worker has made the calls of [runNext] that the
    driver needs to reach [Ended], the registry is again the list it was before
    [startSession], without any call of [terminate]. *)
Theorem session_round_trip session remoteAddr localAddr p fuel k (w : World D) :
  consistent w ->
  getServiceExecutor (_svcCtx w) = None ->
  sockAddr (remote session) = Some remoteAddr ->
  sockAddr (local session) = Some localAddr ->
  ends_after (S k) (ssm_create (_svcCtx w) session true) = true ->
  (S k < fuel)%nat ->
  exists w1 w2 evs,
    startSession session w = Ok tt w1 /\
    _sessions w1 = length (drivers w) :: _sessions w /\
    serviceWorker p fuel (length (drivers w)) w1 = Ok tt w2 /\
    _sessions w2 = _sessions w /\
    trace w2 = trace w1 ++ evs /\
    driver_calls evs = replicate (S k) (OpRunNext, length (drivers w)).
Proof.
  intros Hc Hex Hra Hla Hends Hfuel.
  destruct (startSession_run session remoteAddr localAddr w Hc Hra Hla)
    as (w1 & tail & c & Hrun1 & Hc1 & _ & _ & Hcase).
  rewrite Hex in Hcase. destruct Hcase as (_ & Hs1 & Hd1).
  cbn in Hs1, Hd1. rewrite Hex in Hd1. rewrite bool_decide_eq_true_2 in Hd1 by done.
  set (ssm := length (drivers w)) in *.
  set (c0 := MkSSM (ssm_create (_svcCtx w) session true) (Some (EraseSession ssm))).
  assert (drivers w1 !! ssm = Some c0) as Hssm
    by (rewrite Hd1; by apply list_lookup_middle).
  destruct (serviceWorker_spec p fuel ssm (S k) w1 c0 Hc1 Hssm Hends Hfuel)
    as (w2 & evss & c' & Hrun2 & _ & _ & Htr & Hlen & Hevs & _).
  destruct (iterations_concat _ _ _ _ Hevs) as (Hcalls & _).
  rewrite Hlen in Hcalls.
  exists w1, w2, (concat evss). do 3 (split; [done|]). split; [|done].
  set (w0 := {| _svcCtx := _svcCtx w1; _nWorkers := addAndFetch (_nWorkers w1) 1;
                _sessionsMutex := _sessionsMutex w1; _sessions := _sessions w1;
                drivers := drivers w1; trace := trace w1 |}).
  assert (consistent w0) as Hc0 by (destruct Hc1; by split).
  assert (serviceWorker p fuel ssm w1 =
          match workerLoop fuel ssm (numCores p) w0 with
          | Ok _ w3 =>
              Ok tt {| _svcCtx := _svcCtx w3;
                       _nWorkers := subtractAndFetch (_nWorkers w3) 1;
                       _sessionsMutex := _sessionsMutex w3; _sessions := _sessions w3;
                       drivers := drivers w3; trace := trace w3 |}
          | Fail f => Fail f
          end) as Heq by reflexivity.
  rewrite Heq in Hrun2.
  destruct (workerLoop fuel ssm (numCores p) w0) as [[] w3|] eqn:Hloop; [|done].
  injection Hrun2 as <-. cbn.
  pose proof (workerLoop_erases ssm (numCores p) k fuel w0 w3 c0 Hc0 Hssm
                eq_refl Hends Hloop) as Hers.
  cbn in Hers. rewrite Hs1 in Hers. cbn in Hers.
  rewrite decide_True in Hers by done. by injection Hers as <-.
Qed.

Lemma workerLoop_out_of_fuel ssm cores fuel : forall (w : World D) c,
  consistent w -> drivers w !! ssm = Some c ->
  (forall n, (n <= fuel)%nat -> ssm_state (runNext_times n (driver c)) <> Ended) ->
  workerLoop fuel ssm cores w = Fail OutOfFuel.
Proof.
  induction fuel as [|fuel IH]; intros w c Hc Hssm Hlive; [done|].
  cbn [workerLoop]. unfold bind at 1, get_ssm. rewrite Hssm.
  rewrite decide_False by (apply (Hlive 0%nat); lia).
  destruct (workerIteration_spec ssm cores w c Hc Hssm)
    as (w1 & evs & hook & Hrun & Hc1 & _ & _ & _ & Hssm1).
  rewrite (bind_Ok _ _ _ _ _ Hrun). apply (IH w1 _ Hc1 Hssm1).
  intros n Hn. cbn [driver]. unfold runNext_times.
  rewrite <- Nat.iter_succ_r. apply (Hlive (S n)). lia.
Qed.

(** X8: the worker stays in its loop as long as the driver has not reached
    [Ended]: if the driver is not at [Ended] after any of its first [fuel] calls
    of [runNext], the worker has not returned after [fuel] passes. *)
Theorem worker_runs_while_driver_lives p fuel ssm (w : World D) c :
  consistent w -> drivers w !! ssm = Some c ->
  (forall n, (n <= fuel)%nat -> ssm_state (runNext_times n (driver c)) <> Ended) ->
  serviceWorker p fuel ssm w = Fail OutOfFuel.
Proof.
  intros Hc Hssm Hlive.
  set (w0 := {| _svcCtx := _svcCtx w; _nWorkers := addAndFetch (_nWorkers w) 1;
                _sessionsMutex := _sessionsMutex w; _sessions := _sessions w;
                drivers := drivers w; trace := trace w |}).
  assert (consistent w0) as Hc0 by (destruct Hc; by split).
  assert (serviceWorker p fuel ssm w =
          match workerLoop fuel ssm (numCores p) w0 with
          | Ok _ w3 =>
              Ok tt {| _svcCtx := _svcCtx w3;
                       _nWorkers := subtractAndFetch (_nWorkers w3) 1;
                       _sessionsMutex := _sessionsMutex w3; _sessions := _sessions w3;
                       drivers := drivers w3; trace := trace w3 |}
          | Fail f => Fail f
          end) as -> by reflexivity.
  by rewrite (workerLoop_out_of_fuel ssm (numCores p) fuel w0 c Hc0 Hssm Hlive).
Qed.

(** ** Terminating drivers that end at once *)

Lemma ssm_call_registered_live op ssm (w w' : World D) :
  consistent w -> registered_live w ->
  ssm_call op ssm w = Ok tt w' -> registered_live w'.
Proof.
  intros Hc Hrl Hrun. destruct (ssm_call_inv _ _ _ _ Hrun) as [c Hssm].
  destruct (ssm_call_spec op ssm w c Hc Hssm)
    as (w1 & Hrun1 & Hc1 & _ & _ & Hd & Hcases). cbv zeta in Hd, Hcases.
  assert (w1 = w') as -> by congruence.
  pose proof (lookup_lt_Some _ _ _ Hssm) as Hlt.
  destruct (ssm_call_sessions _ _ _ _ Hc Hrun) as [Hsub _].
  intros h Hh. pose proof (elem_of_sublist _ _ _ Hh Hsub) as Hh0.
  destruct (Hrl h Hh0) as (ch & Hch & Hlive & Hhook).
  destruct (decide (h = ssm)) as [->|Hne].
  - assert (ch = c) as -> by congruence.
    apply bool_decide_eq_true in Hlive.
    destruct Hcases as [(_ & _ & Hers & _)|(Hno & _)].
    + destruct (list_erase_NoDup _ _ _ (sessions_NoDup w Hc) Hers) as [_ Hin'].
      by apply Hin' in Hh as [_ ?].
    + destruct Hno as [Hno|Hno]; [|congruence].
      rewrite Hno in Hd. apply bool_decide_eq_false in Hno.
      eexists. rewrite Hd. split; [by apply list_lookup_insert_eq|].
      split; [|done]. apply bool_decide_eq_true. cbn. tauto.
  - exists ch. rewrite Hd, list_lookup_insert_ne by done. done.
Qed.

Lemma sublist_filter_eq (P : Handle -> Prop) `{!forall x, Decision (P x)}
    (l' l : list Handle) :
  l' `sublist_of` l -> NoDup l ->
  (forall h, h ∈ l' <-> h ∈ l /\ P h) ->
  l' = filter P l.
Proof.
  induction 1 as [|x l1 l2 Hsub IH|x l1 l2 Hsub IH]; intros Hnd Hmem.
  - done.
  - apply NoDup_cons in Hnd as [Hx Hnd].
    assert (P x) as HP by (apply Hmem; left).
    rewrite filter_cons_True by done. f_equal. apply IH; [done|].
    intros h. split.
    + intros Hh. assert (h <> x) as Hne.
      { intros ->. apply Hx. by eapply elem_of_sublist. }
      assert (h ∈ x :: l1) as Hh' by (by right).
      apply Hmem in Hh' as [Hh2 HPh]. apply elem_of_cons in Hh2 as [?|?]; done.
    + intros [Hh HPh]. assert (h <> x) as Hne by (by intros ->).
      assert (h ∈ x :: l1) as Hh' by (apply Hmem; split; [by right|done]).
      apply elem_of_cons in Hh' as [?|?]; done.
  - apply NoDup_cons in Hnd as [Hx Hnd].
    assert (~ P x) as HP.
    { intros HPx. apply Hx. eapply elem_of_sublist; [|done].
      apply Hmem. split; [by left|done]. }
    rewrite filter_cons_False by done. apply IH; [done|].
    intros h. split.
    + intros Hh. assert (h <> x) as Hne.
      { intros ->. apply Hx. by eapply elem_of_sublist. }
      apply Hmem in Hh as [Hh2 HPh]. apply elem_of_cons in Hh2 as [?|?]; done.
    + intros [Hh HPh]. apply Hmem. split; [by right|done].
Qed.

Lemma terminate_all_forced conns : forall (w w' : World D),
  (forall d, ssm_state (ssm_terminate d) = Ended) ->
  consistent w -> registered_live w -> NoDup conns ->
  (forall ssm, ssm ∈ conns -> ssm ∈ _sessions w) ->
  terminate_all conns w = Ok tt w' ->
  forall ssm, ssm ∈ conns -> ssm ∉ _sessions w'.
Proof.
  induction conns as [|ssm conns IH]; intros w w' Hforce Hc Hrl Hnd Hreg Hrun;
    [by intros ? ?%elem_of_nil|].
  cbn in Hrun. apply bind_inv in Hrun as ([] & w1 & H1 & H2).
  apply NoDup_cons in Hnd as [Hnin Hnd].
  pose proof (ssm_call_consistent _ _ _ _ Hc H1) as Hc1.
  pose proof (ssm_call_registered_live _ _ _ _ Hc Hrl H1) as Hrl1.
  destruct (ssm_call_sessions _ _ _ _ Hc H1) as [Hsub1 Hin1].
  destruct (terminate_all_sessions _ _ _ Hc1 H2) as [Hsub2 _].
  assert (forall h, h ∈ conns -> h ∈ _sessions w1) as Hreg1.
  { intros h Hh. apply Hin1; [apply Hreg; by right|]. by intros ->. }
  intros h [->|Hh]%elem_of_cons; [|by apply (IH w1 w')].
  intros Hin. pose proof (elem_of_sublist _ _ _ Hin Hsub2) as Hin1'.
  destruct (Hrl ssm (Hreg ssm ltac:(by left))) as (c & Hssm & Hlive & Hhook).
  apply bool_decide_eq_true in Hlive.
  destruct (ssm_call_spec OpTerminate ssm w c Hc Hssm)
    as (w1' & Hrun1 & _ & _ & _ & _ & Hcases). cbv zeta in Hcases. cbn in Hcases.
  assert (w1' = w1) as -> by congruence.
  destruct Hcases as [(_ & _ & Hers & _)|([Hno|Hno] & _)].
  - destruct (list_erase_NoDup _ _ _ (sessions_NoDup w Hc) Hers) as [_ Hin'].
    by apply Hin' in Hin1' as [_ ?].
  - apply bool_decide_eq_false in Hno. apply Hno. by split.
  - congruence.
Qed.

Section Forced.

Context `{!DriverContract D}.

Lemma registered_registered_live session remoteAddr localAddr (w : World D) :
  consistent w -> registered_live w ->
  registered_live (registered session remoteAddr localAddr w).
Proof.
  intros Hc Hrl h Hh. cbn in Hh. cbn [registered drivers].
  apply elem_of_cons in Hh as [->|Hh].
  - eexists. split; [by apply list_lookup_middle|].
    split; [|done]. apply bool_decide_eq_true, create_not_Ended.
  - destruct (Hrl h Hh) as (c & Hc' & ?). exists c.
    split; [|done]. by apply lookup_app_l_Some.
Qed.

Lemma reachable_registered_live (w : World D) :
  reachable w -> consistent w /\ registered_live w.
Proof.
  apply (reachable_invariant (fun w => consistent w /\ registered_live w)).
  - intros svcCtx. split; [apply initial_consistent|].
    by intros ssm ?%elem_of_nil.
  - apply run_step_preserves.
    + by intros w0 [? _].
    + intros w0 evs [? ?]. split; [by apply consistent_add_events|done].
    + intros w0 n w' [[? ? ? ?] ?] Hs. unfold set_nWorkers in Hs.
      injection Hs as <-. split; [by split|done].
    + intros op ssm w0 w' [? ?] Hrun.
      split; [by eapply ssm_call_consistent|by eapply ssm_call_registered_live].
    + intros s ra la w0 [? ?].
      split; [by apply registered_consistent|by apply registered_registered_live].
Qed.

(** X9: a call of [endAllSessions] that is not overtaken, made in a world
    where every node of the registry holds a driver that has not reached
    [Ended] and has its cleanup hook installed (no call of [startSession] is
    between l.63 and l.65, and no driver was ended there), with a driver whose
    [terminate] takes it to [Ended] at once: the drivers that the call
    terminates remove themselves from the registry during the call, which
    leaves exactly the nodes of the skipped drivers, in their order, and
    [getNumberOfConnections] then returns their number. *)
Theorem endAllSessions_leaves_skipped tags (w : World D) :
  consistent w -> registered_live w ->
  (forall d, ssm_state (ssm_terminate d) = Ended) ->
  exists w',
    endAllSessions tags w = Ok tt w' /\
    _sessions w' = to_skip tags w /\
    getNumberOfConnections w' =
      Ok (Z.of_nat (length (to_skip tags w))) (add_events w' [EvLock; EvUnlock]).
Proof.
  intros Hc Hrl Hforce.
  destruct (endAllSessions_run tags w Hc) as (w' & evss & Hrun & Hc' & _).
  exists w'. split; [done|].
  rewrite endAllSessions_unfold in Hrun by done.
  set (w2 := add_events w _) in Hrun.
  assert (consistent w2) as Hc2 by (by apply consistent_add_events).
  destruct (terminate_all_sessions _ _ _ Hc2 Hrun) as [Hsub Hstay].
  assert (forall ssm, ssm ∈ to_terminate tags w -> ssm ∉ _sessions w') as Hgone.
  { apply (terminate_all_forced (to_terminate tags w) w2 w'); try done.
    - apply NoDup_filter, Hc.
    - by intros ssm [_ ?]%list_elem_of_filter. }
  assert (_sessions w' = to_skip tags w) as Hs.
  { apply sublist_filter_eq; [done|apply Hc|].
    intros h. split.
    - intros Hh. pose proof (elem_of_sublist _ _ _ Hh Hsub) as Hh0.
      split; [done|]. destruct (skips tags w h) eqn:Hsk; [done|].
      exfalso. apply (Hgone h); [|done]. by apply list_elem_of_filter.
    - intros [Hh Hsk]. apply Hstay; [done|].
      intros [Hsk' _]%list_elem_of_filter. congruence. }
  split; [done|].
  rewrite getNumberOfConnections_run by apply Hc'. by rewrite Hs.
Qed.

End Forced.

End More.

(** ** The sample drivers *)

Import Sample.

Lemma sync_world_consistent : consistent sync_world.
Proof. apply reachable_consistent, sync_world_reachable. Qed.

Lemma endless_world_reachable : reachable (H:=endless_driver) endless_world.
Proof.
  apply (run_steps_reachable (H:=endless_driver) [CallStartSession client_session]
           (initial_world (MkServiceContext None)));
    [constructor | vm_compute; reflexivity].
Qed.

Lemma executions_keep_registry_consistent_witness :
  reachable sync_world /\
  _sessionsMutex sync_world = false /\ NoDup (_sessions sync_world).
Proof.
  split; [exact sync_world_reachable|].
  destruct (executions_keep_registry_consistent sync_world sync_world_reachable)
    as (Hmx & Hnd & _).
  by split.
Defined.

Lemma steps_never_undefined_witness :
  consistent sync_world /\
  ((exists w', run_step (DriverCall OpTerminate 7%nat) sync_world = Ok tt w' /\
               consistent w') \/
   (run_step (DriverCall OpTerminate 7%nat) sync_world = Fail InvariantFailure /\
    exists session, DriverCall OpTerminate 7%nat = CallStartSession session /\
      (sockAddr (remote session) = None \/ sockAddr (local session) = None)) \/
   (run_step (DriverCall OpTerminate 7%nat) sync_world = Fail DanglingHandle /\
    exists ssm, step_handle (DriverCall OpTerminate 7%nat) = Some ssm /\
                drivers sync_world !! ssm = None)).
Proof.
  split; [exact sync_world_consistent|].
  apply (steps_never_undefined (DriverCall OpTerminate 7%nat) sync_world
           sync_world_consistent).
Defined.

Lemma startSession_locks_only_registry_witness :
  consistent async_world /\
  exists w' evs,
    startSession client_session async_world = Ok tt w' /\
    trace w' = trace async_world ++ evs /\
    follow_mutex false evs = Some false /\
    _sessionsMutex w' = false.
Proof.
  pose proof (reachable_consistent async_world async_world_reachable) as Hc.
  split; [exact Hc|].
  apply (startSession_locks_only_registry client_session
           (MkSockAddr 5002) (MkSockAddr 27017) async_world Hc);
    reflexivity.
Defined.

Lemma endAllSessions_empty_mask_terminates_all_witness :
  consistent sync_world /\
  exists w' evs,
    endAllSessions 0 sync_world = Ok tt w' /\
    trace w' = trace sync_world ++ evs /\
    driver_calls evs = [(OpTerminate, 1%nat); (OpTerminate, 0%nat)] /\
    logged evs = [].
Proof.
  split; [exact sync_world_consistent|].
  apply (endAllSessions_empty_mask_terminates_all sync_world sync_world_consistent).
Defined.

Lemma endAllSessions_keeps_skipped_witness :
  consistent sync_world /\
  exists w',
    endAllSessions 1 sync_world = Ok tt w' /\
    _sessions w' `sublist_of` _sessions sync_world /\
    0%nat ∈ _sessions w'.
Proof.
  split; [exact sync_world_consistent|].
  destruct (endAllSessions_keeps_skipped 1 sync_world sync_world_consistent)
    as (w' & Hrun & Hsub & Hin).
  exists w'. split; [done|]. split; [done|].
  apply Hin. vm_compute. left.
Defined.

Lemma session_round_trip_witness :
  exists w1 w2 evs,
    startSession client_session sync_world = Ok tt w1 /\
    _sessions w1 = 2%nat :: _sessions sync_world /\
    serviceWorker (MkProcessInfo None 4) 10 2%nat w1 = Ok tt w2 /\
    _sessions w2 = _sessions sync_world /\
    trace w2 = trace w1 ++ evs /\
    driver_calls evs = [(OpRunNext, 2%nat); (OpRunNext, 2%nat); (OpRunNext, 2%nat)].
Proof.
  apply (session_round_trip client_session (MkSockAddr 5002) (MkSockAddr 27017)
           (MkProcessInfo None 4) 10 2 sync_world sync_world_consistent);
    [reflexivity | reflexivity | reflexivity | vm_compute; reflexivity | lia].
Defined.

Lemma worker_runs_while_driver_lives_witness :
  serviceWorker (H:=endless_driver) (MkProcessInfo None 4) 25 0%nat endless_world =
  Fail OutOfFuel.
Proof.
  eapply (worker_runs_while_driver_lives (H:=endless_driver)
            (MkProcessInfo None 4) 25 0%nat endless_world).
  - apply (reachable_consistent (H:=endless_driver)), endless_world_reachable.
  - vm_compute. reflexivity.
  - intros n _. cbn. discriminate.
Defined.

Lemma endAllSessions_leaves_skipped_witness :
  (consistent sync_world /\ registered_live sync_world) /\
  exists w',
    endAllSessions 1 sync_world = Ok tt w' /\
    _sessions w' = [0%nat] /\
    getNumberOfConnections w' = Ok 1 (add_events w' [EvLock; EvUnlock]).
Proof.
  pose proof (reachable_registered_live sync_world sync_world_reachable) as [Hc Hrl].
  split; [by split|].
  assert (to_skip 1 sync_world = [0%nat]) as Hskip by (vm_compute; reflexivity).
  destruct (endAllSessions_leaves_skipped 1 sync_world Hc Hrl) as (w' & Hrun & Hs & Hn);
    [intros d; reflexivity|].
  rewrite Hskip in Hs, Hn. by exists w'.
Defined.

End RegistryMore.

(** * Properties of the JSON Schema parser *)

Module JSONSchemaProps.

Import JSONSchema.

Section Props.

Context `{MatcherLibrary}.

(** ** The keyword map *)

Lemma keywords_free_cons elt schema m :
  keywords_free (elt :: schema) m <->
  m !! fieldNameStringData elt = Some None /\ keywords_free schema (store m elt).
Proof.
  unfold keywords_free, store. rewrite Forall_cons. cbn [map].
  rewrite NoDup_cons, !Forall_forall. split.
  - intros ((Hm & Hall) & Hnin & Hnd). split; [done|]. split; [|done].
    intros x Hx. rewrite lookup_insert_ne; [by apply Hall|].
    intros Heq. apply Hnin. rewrite Heq. apply list_elem_of_fmap. by exists x.
  - intros (Hm & Hall & Hnd). split; [split; [done|]|split; [|done]].
    + intros x Hx. specialize (Hall x Hx).
      destruct (decide (fieldNameStringData elt = fieldNameStringData x)) as [Heq|Hne].
      * rewrite Heq, lookup_insert_eq in Hall. done.
      * by rewrite lookup_insert_ne in Hall.
    + intros (x & Heq & Hx)%list_elem_of_fmap. specialize (Hall x Hx).
      rewrite Heq, lookup_insert_eq in Hall. done.
Qed.

(** The first loop of [_parse] fills the map when every field is a keyword
    that is still unset and no field is repeated, and fails otherwise. *)
Lemma collect_keywords_spec schema : forall m,
  (keywords_free schema m ->
   collect_keywords schema m = Returns (Value (foldl store m schema))) /\
  (~ keywords_free schema m ->
   exists reason, collect_keywords schema m = Returns (Error FailedToParse reason)).
Proof.
  induction schema as [|elt schema IH]; intros m.
  - split; [done|]. intros Hno. exfalso. apply Hno. split; constructor.
  - cbn [collect_keywords foldl]. rewrite keywords_free_cons.
    destruct (m !! fieldNameStringData elt) as [[e|]|] eqn:Hm.
    + split; [by intros [? _]|eauto].
    + destruct (IH (store m elt)) as [IH1 IH2]. split.
      * intros [_ Hfree]. by apply IH1.
      * intros Hno. apply IH2. intros Hfree. by apply Hno.
    + split; [by intros [? _]|eauto].
Qed.

Lemma keywordMap_init_lookup k :
  keywordMap_init !! k = Some None <-> known_keyword k.
Proof.
  unfold keywordMap_init, known_keyword.
  destruct (decide (k = kSchemaTypeKeyword)) as [->|H1];
    [rewrite lookup_insert_eq; tauto|].
  rewrite lookup_insert_ne by done.
  destruct (decide (k = kSchemaPropertiesKeyword)) as [->|H2];
    [rewrite lookup_insert_eq; tauto|].
  rewrite lookup_insert_ne by done.
  destruct (decide (k = kSchemaMaximumKeyword)) as [->|H3];
    [rewrite lookup_insert_eq; tauto|].
  rewrite lookup_insert_ne, lookup_empty by done. split; [done|tauto].
Qed.

Lemma keywords_free_init schema :
  keywords_free schema keywordMap_init <-> keywords_well_formed schema.
Proof.
  unfold keywords_free, keywords_well_formed.
  rewrite !Forall_forall. split; intros [Hall Hnd]; (split; [|done]);
    intros x Hx; apply keywordMap_init_lookup; by apply Hall.
Qed.

Lemma store_lookup_other schema : forall m k,
  k ∉ map fieldNameStringData schema -> foldl store m schema !! k = m !! k.
Proof.
  induction schema as [|elt schema IH]; intros m k Hk; [done|].
  cbn [foldl]. cbn [map] in Hk. apply not_elem_of_cons in Hk as [Hne Hk].
  rewrite IH by done. unfold store. by rewrite lookup_insert_ne.
Qed.

Lemma store_lookup_elt schema : forall m elt,
  NoDup (map fieldNameStringData schema) -> elt ∈ schema ->
  foldl store m schema !! fieldNameStringData elt = Some (Some elt).
Proof.
  induction schema as [|x schema IH]; intros m elt Hnd Hin;
    [by apply elem_of_nil in Hin|].
  cbn [foldl]. cbn [map] in Hnd. apply NoDup_cons in Hnd as [Hx Hnd].
  apply elem_of_cons in Hin as [->|Hin]; [|by apply IH].
  rewrite store_lookup_other by done. unfold store. by rewrite lookup_insert_eq.
Qed.

(** What [keywordMap[k]] holds after the loop. *)
Lemma keyword_of_schema schema elt :
  keywords_well_formed schema -> elt ∈ schema ->
  keyword (foldl store keywordMap_init schema) (fieldNameStringData elt) = Some elt.
Proof.
  intros [_ Hnd] Hin. unfold keyword. by rewrite store_lookup_elt.
Qed.

Lemma keyword_absent schema k :
  k ∉ map fieldNameStringData schema ->
  keyword (foldl store keywordMap_init schema) k = None.
Proof.
  intros Hk. unfold keyword. rewrite store_lookup_other by done.
  destruct (keywordMap_init !! k) as [[e|]|] eqn:Hl; try done.
  exfalso. revert Hl. unfold keywordMap_init.
  repeat (rewrite lookup_insert; case_decide; [done|]). by rewrite lookup_empty.
Qed.

Lemma keyword_in_schema schema k elt :
  keywords_well_formed schema ->
  keyword (foldl store keywordMap_init schema) k = Some elt ->
  elt ∈ schema /\ fieldNameStringData elt = k.
Proof.
  intros Hwf Hk.
  destruct (decide (k ∈ map fieldNameStringData schema)) as [Hin|Hnin].
  - apply list_elem_of_fmap in Hin as (x & -> & Hx).
    rewrite keyword_of_schema in Hk by done. by injection Hk as <-.
  - by rewrite keyword_absent in Hk.
Qed.

Lemma store_permutation schema schema' :
  schema ≡ₚ schema' -> forall m,
  NoDup (map fieldNameStringData schema) ->
  foldl store m schema = foldl store m schema'.
Proof.
  induction 1 as [|x l l' Hp IH|x y l|l l' l'' Hp1 IH1 Hp2 IH2]; intros m Hnd.
  - done.
  - cbn [foldl]. cbn [map] in Hnd. apply NoDup_cons in Hnd as [_ Hnd]. by apply IH.
  - cbn [foldl]. cbn [map] in Hnd.
    apply NoDup_cons in Hnd as [Hy _]. apply not_elem_of_cons in Hy as [Hne _].
    f_equal. unfold store. by apply insert_insert_ne.
  - rewrite IH1 by done. apply IH2. by rewrite <- Hp1.
Qed.

Lemma keywords_well_formed_permutation schema schema' :
  schema ≡ₚ schema' -> keywords_well_formed schema -> keywords_well_formed schema'.
Proof. intros Hp [Hall Hnd]. split; by rewrite <- Hp. Qed.

(** ** The parser *)

Lemma and_then_Value {A B} (m : Run A) (k : A -> Run B) b :
  and_then m k = Returns (Value b) ->
  exists a, m = Returns (Value a) /\ k a = Returns (Value b).
Proof. destruct m as [[a|? ?]| |]; [eauto|done..]. Qed.

Lemma _parse_unfold fuel path schema :
  _parse (S fuel) path schema =
  and_then (collect_keywords schema keywordMap_init)
           (parse_keywords (_parse fuel) path).
Proof. reflexivity. Qed.

Lemma _parse_ill_formed fuel path schema :
  ~ keywords_well_formed schema ->
  exists reason, _parse (S fuel) path schema = Returns (Error FailedToParse reason).
Proof.
  intros Hno. rewrite _parse_unfold.
  destruct (proj2 (collect_keywords_spec schema keywordMap_init)) as [reason ->];
    [by rewrite keywords_free_init|].
  by exists reason.
Qed.

Lemma collect_keywords_error schema : forall m,
  (forall k, is_Some (m !! k) <-> known_keyword k) ->
  ~ keywords_free schema m ->
  exists elt,
    elt ∈ schema /\
    collect_keywords schema m =
    Returns (Error FailedToParse
      ((if decide (known_keyword (fieldNameStringData elt))
        then "Duplicate $jsonSchema keyword: "
        else "Unknown $jsonSchema keyword: ") +:+ fieldNameStringData elt)).
Proof.
  induction schema as [|elt schema IH]; intros m Hdom Hno.
  - exfalso. apply Hno. split; constructor.
  - cbn [collect_keywords]. rewrite keywords_free_cons in Hno.
    destruct (m !! fieldNameStringData elt) as [[e|]|] eqn:Hm.
    + exists elt. split; [by left|].
      rewrite decide_True; [done|]. apply Hdom. by rewrite Hm.
    + destruct (IH (store m elt)) as (x & Hx & Hr).
      * intros k. rewrite <- Hdom. unfold store.
        destruct (decide (k = fieldNameStringData elt)) as [->|Hne].
        -- by rewrite lookup_insert_eq, Hm.
        -- by rewrite lookup_insert_ne.
      * intros Hfree. by apply Hno.
      * exists x. split; [by right|done].
    + exists elt. split; [by left|].
      rewrite decide_False; [done|]. rewrite <- Hdom, Hm. by intros [? ?].
Qed.

(** X10: a schema with a field that is not one of the keywords [type],
    [properties] and [maximum], or with a keyword that occurs twice, fails
    to parse with [FailedToParse], whatever else it holds; the reason names
    one of its fields, as unknown if it is not a keyword and as duplicate if
    it is one. *)
Theorem unknown_or_duplicate_keyword_fails fuel path schema :
  ~ keywords_well_formed schema ->
  exists elt,
    elt ∈ schema /\
    _parse (S fuel) path schema =
    Returns (Error FailedToParse
      ((if decide (known_keyword (fieldNameStringData elt))
        then "Duplicate $jsonSchema keyword: "
        else "Unknown $jsonSchema keyword: ") +:+ fieldNameStringData elt)).
Proof.
  intros Hno.
  destruct (collect_keywords_error schema keywordMap_init) as (elt & Hin & Hr).
  - intros k. rewrite <- keywordMap_init_lookup. unfold keywordMap_init.
    repeat (rewrite lookup_insert; case_decide;
            [split; [done|by eexists]|]).
    rewrite lookup_empty. split; [by intros [? ?]|done].
  - by rewrite keywords_free_init.
  - exists elt. split; [done|]. by rewrite _parse_unfold, Hr.
Qed.

Lemma _parse_well_formed fuel path schema :
  keywords_well_formed schema ->
  _parse (S fuel) path schema =
  parse_keywords (_parse fuel) path (foldl store keywordMap_init schema).
Proof.
  intros Hwf. rewrite _parse_unfold.
  by rewrite (proj1 (collect_keywords_spec schema keywordMap_init))
    by (by apply keywords_free_init).
Qed.

Lemma _parse_Value_well_formed fuel path schema e :
  _parse fuel path schema = Returns (Value e) -> keywords_well_formed schema.
Proof.
  intros Hp. destruct fuel as [|fuel]; [done|].
  destruct (decide (keywords_well_formed schema)) as [Hwf|Hno]; [done|].
  destruct (_parse_ill_formed fuel path schema Hno) as [r Hr].
  congruence.
Qed.

(** X11: the order of the keywords does not matter: two schemas with the same
    well-formed elements in different orders parse to the same result. *)
Theorem parse_order_independent fuel path schema schema' :
  keywords_well_formed schema -> schema ≡ₚ schema' ->
  _parse fuel path schema = _parse fuel path schema'.
Proof.
  intros Hwf Hp. destruct fuel as [|fuel]; [done|].
  rewrite !_parse_well_formed
    by (done || by eapply keywords_well_formed_permutation).
  f_equal. apply store_permutation; [done|apply Hwf].
Qed.

(** X12: the value of [type] must be a string: a well-formed schema whose
    [type] is of another type fails with [TypeMismatch], before anything else
    is looked at. *)
Theorem type_must_be_a_string fuel path schema typeElt :
  keywords_well_formed schema -> typeElt ∈ schema ->
  fieldNameStringData typeElt = kSchemaTypeKeyword ->
  type typeElt <> String ->
  _parse (S fuel) path schema =
  Returns (Error TypeMismatch "$jsonSchema keyword 'type' must be a string").
Proof.
  intros Hwf Hin Hname Hty. rewrite _parse_well_formed by done.
  unfold parse_keywords. rewrite <- Hname, keyword_of_schema by done.
  unfold parseType. by rewrite decide_True.
Qed.

(** X13: a top-level schema whose [type] is an alias of a type other than
    [Object] matches nothing: if it parses, it parses to the expression that
    is always false. *)
Theorem top_level_type_not_object fuel schema typeElt te e :
  typeElt ∈ schema ->
  fieldNameStringData typeElt = kSchemaTypeKeyword ->
  type typeElt = String ->
  parseTypeFromAlias "" (valueStringData typeElt) = Value te ->
  getBSONType te <> Object ->
  parse fuel schema = Returns (Value e) ->
  e = FalseMatchExpression "".
Proof.
  intros Hin Hname Hty Halias Hte Hp. unfold parse in Hp.
  pose proof (_parse_Value_well_formed _ _ _ _ Hp) as Hwf.
  destruct fuel as [|fuel]; [done|].
  rewrite _parse_well_formed in Hp by done.
  unfold parse_keywords in Hp. rewrite <- Hname, keyword_of_schema in Hp by done.
  unfold parseType in Hp. rewrite decide_False in Hp by (by intros ?).
  rewrite Halias in Hp. cbn [and_then] in Hp.
  apply and_then_Value in Hp as (andExpr & _ & Hp).
  apply and_then_Value in Hp as (andExpr' & _ & Hp).
  rewrite decide_True, decide_True in Hp by done.
  by injection Hp as <-.
Qed.

(** ** Termination *)

Lemma value_depth_object elements :
  value_depth (ValObject elements) = S (object_depth elements).
Proof. reflexivity. Qed.

Lemma object_depth_elem (elt : BSONElement) obj :
  elt ∈ obj -> (value_depth (snd elt) <= object_depth obj)%nat.
Proof.
  induction obj as [|[k x] rest IH]; intros Hin; [by apply elem_of_nil in Hin|].
  cbn [object_depth]. apply elem_of_cons in Hin as [->|Hin]; [cbn [snd]; lia|].
  specialize (IH Hin). lia.
Qed.

Lemma embeddedObject_depth (elt : BSONElement) obj :
  elt ∈ obj -> type elt = Object ->
  (object_depth (embeddedObject elt) < object_depth obj)%nat.
Proof.
  intros Hin Hty. apply object_depth_elem in Hin.
  destruct elt as [k [elements|s|t raw]]; [|done..].
  cbn [snd] in Hin. rewrite value_depth_object in Hin.
  change (embeddedObject (k, ValObject elements)) with elements. lia.
Qed.

Lemma makeRestriction_fuel restrictionType restrictionExpr statedType :
  makeRestriction restrictionType restrictionExpr statedType <> OutOfFuel.
Proof.
  unfold makeRestriction. destruct statedType as [stated|].
  - by destruct (_ || _).
  - by destruct (TypeMatchExpression_init _ _).
Qed.

Lemma parseType_fuel path typeElt : parseType path typeElt <> OutOfFuel.
Proof.
  unfold parseType. destruct typeElt as [typeElt|]; [|done].
  case_decide; [done|]. by destruct (parseTypeFromAlias _ _).
Qed.

Lemma parseMaximum_fuel path maximum typeExpr :
  parseMaximum path maximum typeExpr <> OutOfFuel.
Proof.
  unfold parseMaximum. destruct (negb _); [done|]. case_decide; [done|].
  destruct (LTEMatchExpression_init _ _); [|done]. apply makeRestriction_fuel.
Qed.

Lemma and_then_fuel {A B} (m : Run A) (k : A -> Run B) :
  m <> OutOfFuel -> (forall a, m = Returns (Value a) -> k a <> OutOfFuel) ->
  and_then m k <> OutOfFuel.
Proof. destruct m as [[a|? ?]| |]; cbn; [eauto|done..]. Qed.

Lemma parseProperties_loop_fuel f properties : forall andExpr,
  (forall property, property ∈ properties -> type property = Object ->
   f (fieldNameStringData property) (embeddedObject property) <> OutOfFuel) ->
  parseProperties_loop f properties andExpr <> OutOfFuel.
Proof.
  induction properties as [|property rest IH]; intros andExpr Hf; [done|].
  cbn [parseProperties_loop]. case_decide as Hty; [done|]. apply and_then_fuel.
  - apply Hf; [by left|done].
  - intros e _. apply IH. intros p Hp. apply Hf. by right.
Qed.

Lemma parse_keywords_fuel f path keywordMap :
  (forall propertiesElt property,
     keyword keywordMap kSchemaPropertiesKeyword = Some propertiesElt ->
     type propertiesElt = Object ->
     property ∈ embeddedObject propertiesElt -> type property = Object ->
     f (fieldNameStringData property) (embeddedObject property) <> OutOfFuel) ->
  parse_keywords f path keywordMap <> OutOfFuel.
Proof.
  intros Hf. unfold parse_keywords.
  apply and_then_fuel; [apply parseType_fuel|]. intros typeExpr _.
  apply and_then_fuel.
  - destruct (keyword keywordMap kSchemaPropertiesKeyword) as [propertiesElt|];
      [|done].
    apply and_then_fuel; [|done]. unfold _parseProperties_with.
    case_decide as Hty; [done|].
    apply and_then_fuel; [apply parseProperties_loop_fuel; by eauto|].
    intros children _. case_decide; [done|].
    destruct (InternalSchemaObjectMatchExpression_init _ _); [|done].
    apply makeRestriction_fuel.
  - intros andExpr _. apply and_then_fuel.
    + destruct (keyword keywordMap kSchemaMaximumKeyword) as [maximumElt|]; [|done].
      apply and_then_fuel; [apply parseMaximum_fuel|done].
    + intros andExpr' _. destruct typeExpr as [te|]; [|done].
      by repeat case_decide.
Qed.

Lemma _parse_enough_fuel fuel : forall path schema,
  (object_depth schema < fuel)%nat -> _parse fuel path schema <> OutOfFuel.
Proof.
  induction fuel as [|fuel IH]; intros path schema Hd; [lia|].
  destruct (decide (keywords_well_formed schema)) as [Hwf|Hno].
  - rewrite _parse_well_formed by done. apply parse_keywords_fuel.
    intros propertiesElt property Hk Hty Hin Hty'. apply IH.
    apply keyword_in_schema in Hk as [Hk _]; [|done].
    pose proof (embeddedObject_depth _ _ Hk Hty).
    pose proof (embeddedObject_depth _ _ Hin Hty'). lia.
  - destruct (_parse_ill_formed fuel path schema Hno) as [r ->].
    done.
Qed.

Lemma and_then_ext {A B} (m m' : Run A) (k k' : A -> Run B) :
  (m <> OutOfFuel -> m' = m) ->
  (forall a, m = Returns (Value a) -> k a <> OutOfFuel -> k' a = k a) ->
  and_then m k <> OutOfFuel -> and_then m' k' = and_then m k.
Proof.
  intros Hm Hk Hne. destruct m as [[a|? ?]| |]; cbn in *; try done.
  - rewrite Hm by done. cbn. by apply Hk.
  - by rewrite Hm.
  - by rewrite Hm.
Qed.

Lemma parseProperties_loop_more_fuel f g properties : forall andExpr,
  (forall path schema, f path schema <> OutOfFuel -> g path schema = f path schema) ->
  parseProperties_loop f properties andExpr <> OutOfFuel ->
  parseProperties_loop g properties andExpr = parseProperties_loop f properties andExpr.
Proof.
  induction properties as [|property rest IH]; intros andExpr Hfg; [done|].
  cbn [parseProperties_loop]. case_decide; [done|].
  apply and_then_ext; [apply Hfg|]. intros e _. by apply IH.
Qed.

Lemma parse_keywords_more_fuel f g path keywordMap :
  (forall path schema, f path schema <> OutOfFuel -> g path schema = f path schema) ->
  parse_keywords f path keywordMap <> OutOfFuel ->
  parse_keywords g path keywordMap = parse_keywords f path keywordMap.
Proof.
  intros Hfg. unfold parse_keywords.
  apply and_then_ext; [done|]. intros typeExpr _.
  apply and_then_ext; [|done].
  destruct (keyword keywordMap kSchemaPropertiesKeyword) as [propertiesElt|];
    [|done].
  apply and_then_ext; [|done]. unfold _parseProperties_with.
  case_decide; [done|].
  apply and_then_ext; [|done]. by apply parseProperties_loop_more_fuel.
Qed.

Lemma _parse_more_fuel fuel : forall path schema,
  _parse fuel path schema <> OutOfFuel ->
  _parse (S fuel) path schema = _parse fuel path schema.
Proof.
  induction fuel as [|fuel IH]; intros path schema Hne; [done|].
  rewrite (_parse_unfold (S fuel)), (_parse_unfold fuel).
  rewrite (_parse_unfold fuel) in Hne.
  revert Hne. apply and_then_ext; [done|].
  intros keywordMap _. by apply parse_keywords_more_fuel.
Qed.

(** X14: parsing terminates: with more nested calls allowed than objects are
    nested in the schema, the parser is not cut off, and allowing still more
    calls does not change what it returns. *)
Theorem parse_terminates fuel fuel' path schema :
  (object_depth schema < fuel)%nat -> (fuel <= fuel')%nat ->
  _parse fuel path schema <> OutOfFuel /\
  _parse fuel' path schema = _parse fuel path schema.
Proof.
  intros Hd Hle. pose proof (_parse_enough_fuel fuel path schema Hd) as Hne.
  split; [done|]. induction Hle as [|fuel' Hle IH]; [done|].
  rewrite _parse_more_fuel; [done|]. by rewrite IH.
Qed.

(** ** Properties *)

Lemma parseProperties_loop_Value f properties : forall andExpr result,
  parseProperties_loop f properties andExpr = Returns (Value result) <->
  exists children,
    result = andExpr ++ children /\ nested_matches f properties children.
Proof.
  unfold nested_matches.
  induction properties as [|property rest IH]; intros andExpr result.
  - cbn. split.
    + intros [= <-]. exists []. by rewrite app_nil_r.
    + intros (children & -> & ->%Forall2_nil_inv_l). by rewrite app_nil_r.
  - cbn [parseProperties_loop]. split.
    + case_decide as Hty; [done|].
      intros (child & Hchild & Hrest)%and_then_Value.
      apply IH in Hrest as (children & -> & Hall).
      exists (child :: children). split; [by rewrite <- app_assoc|].
      by constructor.
    + intros (children & -> & Hall).
      apply Forall2_cons_inv_l in Hall as (child & rest' & [Hty Hchild] & Hall & ->).
      rewrite decide_False by (by intros ?). rewrite Hchild. cbn [and_then].
      apply IH. exists rest'. split; [by rewrite <- app_assoc|done].
Qed.

(** X15: at the top level, [properties] parses exactly when it is an object
    whose elements are objects that parse as schemas, and the result is the
    conjunction of the nested schemas, in the order of the properties, each
    parsed with the name of its property as path. *)
Theorem top_level_properties_compose fuel propertiesElt typeExpr e :
  _parseProperties fuel "" propertiesElt typeExpr = Returns (Value e) <->
  type propertiesElt = Object /\
  exists children,
    e = AndMatchExpression children /\
    nested_matches (_parse fuel) (embeddedObject propertiesElt) children.
Proof.
  unfold _parseProperties, _parseProperties_with. split.
  - case_decide as Hty; [done|].
    intros (children & Hloop & He)%and_then_Value.
    rewrite decide_True in He by done. injection He as <-.
    apply parseProperties_loop_Value in Hloop as (children' & -> & Hall).
    split; [done|]. by exists children'.
  - intros (Hty & children & -> & Hall).
    rewrite decide_False by (by intros ?).
    assert (parseProperties_loop (_parse fuel) (embeddedObject propertiesElt) [] =
            Returns (Value children)) as ->
      by (apply parseProperties_loop_Value; by exists children).
    cbn [and_then]. by rewrite decide_True.
Qed.

Lemma parseProperties_loop_Error f before property after : forall andExpr children code reason,
  nested_matches f before children ->
  type property = Object ->
  f (fieldNameStringData property) (embeddedObject property) =
    Returns (Error code reason) ->
  parseProperties_loop f (before ++ property :: after) andExpr =
    Returns (Error code reason).
Proof.
  unfold nested_matches.
  induction before as [|p before IH]; intros andExpr children code reason Hall Hty Hf.
  - cbn. rewrite decide_False by (by intros ?). by rewrite Hf.
  - apply Forall2_cons_inv_l in Hall as (child & rest' & [Hty' Hchild] & Hall & ->).
    cbn. rewrite decide_False by (by intros ?). rewrite Hchild. cbn [and_then].
    by eapply IH.
Qed.

(** X16: the first property whose nested schema is rejected decides the
    error: when the properties before it parse, [_parseProperties] returns
    the error of that nested schema, whatever follows it. *)
Theorem nested_error_is_returned fuel path propertiesElt typeExpr
    before property after children code reason :
  type propertiesElt = Object ->
  embeddedObject propertiesElt = before ++ property :: after ->
  nested_matches (_parse fuel) before children ->
  type property = Object ->
  _parse fuel (fieldNameStringData property) (embeddedObject property) =
    Returns (Error code reason) ->
  _parseProperties fuel path propertiesElt typeExpr = Returns (Error code reason).
Proof.
  intros Hty Hobj Hall Hty' Hf. unfold _parseProperties, _parseProperties_with.
  rewrite decide_False by (by intros ?). rewrite Hobj.
  by rewrite (parseProperties_loop_Error _ _ _ _ _ children code reason).
Qed.

Lemma parseProperties_Value_typed f path propertiesElt typeExpr e :
  _parseProperties_with f path propertiesElt typeExpr = Returns (Value e) ->
  type propertiesElt = Object /\
  Forall (fun property => type property = Object) (embeddedObject propertiesElt).
Proof.
  unfold _parseProperties_with. case_decide as Hty; [done|].
  intros (children & Hloop & _)%and_then_Value. split; [done|].
  apply parseProperties_loop_Value in Hloop as (children' & _ & Hall).
  unfold nested_matches in Hall.
  induction Hall as [|p c ps cs [Hp _] _ IH]; by constructor.
Qed.

(** X17: what a schema needs to parse: its fields are keywords, each used at
    most once, [type] is a string, [properties] is an object all of whose
    elements are objects, and [maximum] is a number. *)
Theorem parsed_schema_is_well_typed fuel path schema e :
  _parse fuel path schema = Returns (Value e) ->
  keywords_well_formed schema /\ Forall well_typed_keyword schema.
Proof.
  intros Hp. pose proof (_parse_Value_well_formed _ _ _ _ Hp) as Hwf.
  split; [done|]. destruct fuel as [|fuel]; [done|].
  rewrite _parse_well_formed in Hp by done. unfold parse_keywords in Hp.
  apply and_then_Value in Hp as (typeExpr & Htype & Hp).
  apply and_then_Value in Hp as (andExpr & Hprops & Hp).
  apply and_then_Value in Hp as (andExpr' & Hmax & _).
  apply Forall_forall. intros elt Hin.
  pose proof (keyword_of_schema schema elt Hwf Hin) as Hk.
  split; [|split]; intros Hname; rewrite Hname in Hk.
  - rewrite Hk in Htype. unfold parseType in Htype.
    by case_decide.
  - rewrite Hk in Hprops.
    apply and_then_Value in Hprops as (propertiesExpr & Hprops & _).
    by eapply parseProperties_Value_typed.
  - rewrite Hk in Hmax.
    apply and_then_Value in Hmax as (maxExpr & Hmax & _).
    unfold parseMaximum in Hmax. by destruct (isNumber elt).
Qed.

Lemma keywords_well_formed_tail elt schema :
  keywords_well_formed (elt :: schema) -> keywords_well_formed schema.
Proof.
  intros [Hall Hnd]. cbn [map] in Hnd.
  apply Forall_cons in Hall as [_ Hall]. apply NoDup_cons in Hnd as [_ Hnd].
  by split.
Qed.

Lemma keyword_tail elt schema k :
  keywords_well_formed (elt :: schema) -> k <> fieldNameStringData elt ->
  keyword (foldl store keywordMap_init (elt :: schema)) k =
  keyword (foldl store keywordMap_init schema) k.
Proof.
  intros Hwf Hne. pose proof (keywords_well_formed_tail _ _ Hwf) as Hwf'.
  destruct (keyword (foldl store keywordMap_init schema) k) as [x|] eqn:Hk.
  - apply keyword_in_schema in Hk as [Hin <-]; [|done].
    apply keyword_of_schema; [done|by right].
  - apply keyword_absent. cbn [map]. apply not_elem_of_cons. split; [done|].
    intros (x & -> & Hx)%list_elem_of_fmap.
    by rewrite keyword_of_schema in Hk.
Qed.

Lemma keyword_head elt schema :
  keywords_well_formed (elt :: schema) ->
  keyword (foldl store keywordMap_init (elt :: schema)) (fieldNameStringData elt) =
    Some elt /\
  keyword (foldl store keywordMap_init schema) (fieldNameStringData elt) = None.
Proof.
  intros Hwf. split; [apply keyword_of_schema; [done|by left]|].
  apply keyword_absent. destruct Hwf as [_ Hnd]. cbn [map] in Hnd.
  by apply NoDup_cons in Hnd as [Hnin _].
Qed.

(** X18: in a top-level schema a [maximum] restricts nothing: the schema
    parses as it does without the [maximum], with one more conjunct that has
    no children, and is rejected if it is rejected without the [maximum]. *)
Theorem top_level_maximum_adds_empty_conjunct fuel maximumElt schema :
  keywords_well_formed (maximumElt :: schema) ->
  fieldNameStringData maximumElt = kSchemaMaximumKeyword ->
  isNumber maximumElt = true ->
  parse fuel (maximumElt :: schema) =
  match parse fuel schema with
  | Returns (Value (AndMatchExpression children)) =>
      Returns (Value (AndMatchExpression (children ++ [AndMatchExpression []])))
  | result => result
  end.
Proof.
  intros Hwf Hname Hnum. unfold parse. destruct fuel as [|fuel]; [done|].
  pose proof (keywords_well_formed_tail _ _ Hwf) as Hwf'.
  rewrite !_parse_well_formed by done. unfold parse_keywords.
  destruct (keyword_head _ _ Hwf) as [Hmax Hmax']. rewrite Hname in Hmax, Hmax'.
  rewrite !(keyword_tail maximumElt schema) by (done || by rewrite Hname).
  rewrite Hmax, Hmax'.
  destruct (parseType _ _) as [[typeExpr|? ?]| |]; [|done..]. cbn [and_then].
  match goal with
  | |- and_then ?m _ = _ => destruct m as [[andExpr|? ?]| |]; [|done..]
  end.
  cbn [and_then]. unfold parseMaximum. rewrite Hnum. cbn [negb].
  rewrite decide_True by done. cbn [and_then].
  destruct typeExpr as [te|]; [|done].
  rewrite decide_True by done. by case_decide.
Qed.

(** X19: a nested schema keeps its [type]: when the schema of a property
    with a [type] parses, the result is a conjunction whose last conjunct is
    the type expression that the library made of the alias, for the path of
    the property. *)
Theorem nested_type_is_last_conjunct fuel path schema typeElt e :
  path <> "" ->
  typeElt ∈ schema ->
  fieldNameStringData typeElt = kSchemaTypeKeyword ->
  _parse fuel path schema = Returns (Value e) ->
  exists children te,
    parseTypeFromAlias path (valueStringData typeElt) = Value te /\
    e = AndMatchExpression (children ++ [TypeMatchExpression te]).
Proof.
  intros Hpath Hin Hname Hp.
  pose proof (_parse_Value_well_formed _ _ _ _ Hp) as Hwf.
  destruct fuel as [|fuel]; [done|].
  rewrite _parse_well_formed in Hp by done. unfold parse_keywords in Hp.
  rewrite <- Hname, keyword_of_schema in Hp by done.
  apply and_then_Value in Hp as (typeExpr & Htype & Hp).
  apply and_then_Value in Hp as (andExpr & _ & Hp).
  apply and_then_Value in Hp as (andExpr' & _ & Hp).
  unfold parseType in Htype.
  destruct (decide (type typeElt <> String)); [done|].
  apply and_then_Value in Htype as (te & Halias & [= <-]).
  rewrite decide_False in Hp by done. injection Hp as <-.
  exists andExpr', te. split; [|done]. by injection Halias.
Qed.

(** ** The invariants of [makeRestriction] *)

Lemma and_then_invariant {A B} (m : Run A) (k : A -> Run B) :
  m <> InvariantFailure ->
  (forall a, m = Returns (Value a) -> k a <> InvariantFailure) ->
  and_then m k <> InvariantFailure.
Proof. destruct m as [[a|? ?]| |]; cbn; [eauto|done..]. Qed.

Lemma makeRestriction_stated restrictionType restrictionExpr stated :
  makeRestriction restrictionType restrictionExpr (Some stated) <> InvariantFailure.
Proof. unfold makeRestriction. by destruct (_ || _). Qed.

Lemma parseType_invariant path typeElt : parseType path typeElt <> InvariantFailure.
Proof.
  unfold parseType. destruct typeElt as [typeElt|]; [|done].
  case_decide; [done|]. by destruct (parseTypeFromAlias _ _).
Qed.

Lemma parseType_stated path typeElt typeExpr :
  parseType path (Some typeElt) = Returns (Value typeExpr) -> is_Some typeExpr.
Proof.
  unfold parseType. case_decide; [done|].
  destruct (parseTypeFromAlias _ _); cbn; [|done]. intros [= <-]. eauto.
Qed.

Lemma has_keyword_lookup schema k :
  keywords_well_formed schema -> has_keyword k schema = true ->
  exists elt, keyword (foldl store keywordMap_init schema) k = Some elt.
Proof.
  intros Hwf Hk. apply bool_decide_eq_true in Hk.
  apply list_elem_of_fmap in Hk as (elt & -> & Hin).
  exists elt. by apply keyword_of_schema.
Qed.

Lemma lookup_has_keyword schema k elt :
  keywords_well_formed schema ->
  keyword (foldl store keywordMap_init schema) k = Some elt ->
  has_keyword k schema = true.
Proof.
  intros Hwf [Hin <-]%keyword_in_schema; [|done].
  apply bool_decide_eq_true, list_elem_of_fmap. by exists elt.
Qed.

Lemma parseProperties_loop_invariant f properties : forall andExpr,
  (forall property, property ∈ properties ->
     f (fieldNameStringData property) (embeddedObject property) <> InvariantFailure) ->
  parseProperties_loop f properties andExpr <> InvariantFailure.
Proof.
  induction properties as [|property rest IH]; intros andExpr Hf; [done|].
  cbn [parseProperties_loop]. case_decide; [done|].
  apply and_then_invariant; [apply Hf; by left|].
  intros e _. apply IH. intros p Hp. apply Hf. by right.
Qed.

Lemma parse_keywords_invariant f path schema :
  keywords_well_formed schema ->
  (path <> "" ->
   has_keyword kSchemaMaximumKeyword schema ||
   has_keyword kSchemaPropertiesKeyword schema = true ->
   has_keyword kSchemaTypeKeyword schema = true) ->
  (forall propertiesElt property,
     propertiesElt ∈ schema ->
     fieldNameStringData propertiesElt = kSchemaPropertiesKeyword ->
     property ∈ embeddedObject propertiesElt ->
     f (fieldNameStringData property) (embeddedObject property) <> InvariantFailure) ->
  parse_keywords f path (foldl store keywordMap_init schema) <> InvariantFailure.
Proof.
  intros Hwf Htyped Hf. unfold parse_keywords.
  apply and_then_invariant; [apply parseType_invariant|].
  intros typeExpr Htype.
  assert (path <> "" ->
          has_keyword kSchemaMaximumKeyword schema ||
          has_keyword kSchemaPropertiesKeyword schema = true ->
          exists stated, typeExpr = Some stated) as Hstated.
  { intros Hpath Hhas.
    destruct (has_keyword_lookup schema kSchemaTypeKeyword Hwf (Htyped Hpath Hhas))
      as [typeElt Hk].
    rewrite Hk in Htype. by apply parseType_stated in Htype as [stated ->]; eauto. }
  apply and_then_invariant.
  - destruct (keyword _ kSchemaPropertiesKeyword) as [propertiesElt|] eqn:Hk;
      [|done].
    pose proof (lookup_has_keyword _ _ _ Hwf Hk) as Hhas.
    apply keyword_in_schema in Hk as [Hin Hname]; [|done].
    apply and_then_invariant; [|done]. unfold _parseProperties_with.
    case_decide; [done|].
    apply and_then_invariant; [apply parseProperties_loop_invariant; by eauto|].
    intros children _. case_decide as Hpath; [done|].
    destruct (InternalSchemaObjectMatchExpression_init _ _); [|done].
    destruct Hstated as [stated ->]; [done|by rewrite Hhas, orb_true_r|].
    apply makeRestriction_stated.
  - intros andExpr _. apply and_then_invariant.
    + destruct (keyword _ kSchemaMaximumKeyword) as [maximumElt|] eqn:Hk; [|done].
      pose proof (lookup_has_keyword _ _ _ Hwf Hk) as Hhas.
      apply and_then_invariant; [|done]. unfold parseMaximum.
      destruct (negb _); [done|]. case_decide as Hpath; [done|].
      destruct (LTEMatchExpression_init _ _); [|done].
      destruct Hstated as [stated ->]; [done|by rewrite Hhas|].
      apply makeRestriction_stated.
    + intros andExpr' _. destruct typeExpr as [te|]; [|done].
      by repeat case_decide.
Qed.

(** X20: the invariants of [makeRestriction] hold in every parse of a schema
    whose nested schemas have [type] wherever they have [maximum] or
    [properties], whatever the library's functions return: the restriction is
    then made for the stated type, and no [TypeMatchExpression] is initialised
    under [invariantOK]. *)
Theorem typed_restrictions_keep_invariants fuel : forall path schema,
  states_types fuel path schema = true ->
  _parse fuel path schema <> InvariantFailure.
Proof.
  induction fuel as [|fuel IH]; intros path schema Htyped; [done|].
  destruct (decide (keywords_well_formed schema)) as [Hwf|Hno]; cycle 1.
  { by destruct (_parse_ill_formed fuel path schema Hno) as [r ->]. }
  rewrite _parse_well_formed by done.
  cbn [states_types] in Htyped. apply andb_true_iff in Htyped as [Hhere Hnested].
  apply parse_keywords_invariant; [done| |].
  - intros Hpath Hhas. rewrite bool_decide_eq_false_2 in Hhere by done.
    rewrite Hhas in Hhere. done.
  - intros propertiesElt property Hin Hname Hp. apply IH.
    rewrite forallb_forall in Hnested.
    specialize (Hnested propertiesElt ltac:(by apply list_elem_of_In)).
    rewrite bool_decide_eq_true_2 in Hnested by done. cbn in Hnested.
    rewrite forallb_forall in Hnested. apply Hnested. by apply list_elem_of_In.
Qed.

End Props.

Lemma person_schema_well_formed : keywords_well_formed person_schema.
Proof. apply (bool_decide_unpack _). vm_compute. exact I. Qed.

Lemma unknown_or_duplicate_keyword_fails_witness :
  exists elt,
    elt ∈ minimum_schema /\
    _parse 1 "" minimum_schema =
    Returns (Error FailedToParse
      ((if decide (known_keyword (fieldNameStringData elt))
        then "Duplicate $jsonSchema keyword: "
        else "Unknown $jsonSchema keyword: ") +:+ fieldNameStringData elt)).
Proof.
  apply (unknown_or_duplicate_keyword_fails 0 "" minimum_schema).
  apply (bool_decide_unpack _). vm_compute. exact I.
Defined.

Lemma parse_order_independent_witness :
  _parse 2 "" person_schema = _parse 2 "" (reverse person_schema).
Proof.
  apply (parse_order_independent 2 "" person_schema (reverse person_schema)).
  - exact person_schema_well_formed.
  - symmetry. apply reverse_Permutation.
Defined.

Lemma type_must_be_a_string_witness :
  _parse 1 "" numeric_type_schema =
  Returns (Error TypeMismatch "$jsonSchema keyword 'type' must be a string").
Proof.
  apply (type_must_be_a_string 0 "" numeric_type_schema ("type", ValOther NumberInt [2])).
  - apply (bool_decide_unpack _). vm_compute. exact I.
  - by left.
  - reflexivity.
  - discriminate.
Defined.

Lemma top_level_type_not_object_witness :
  exists e, parse 1 string_schema = Returns (Value e) /\ e = FalseMatchExpression "".
Proof.
  eexists. split; [vm_compute; reflexivity|].
  apply (top_level_type_not_object 1 string_schema ("type", ValString "string")
           (MkTypeMatch "" (MkType false String))).
  - by left.
  - reflexivity.
  - reflexivity.
  - reflexivity.
  - discriminate.
  - vm_compute. reflexivity.
Defined.

Lemma parse_terminates_witness :
  _parse 3 "" person_schema <> OutOfFuel /\
  _parse 10 "" person_schema = _parse 3 "" person_schema.
Proof.
  apply (parse_terminates 3 10 "" person_schema); [vm_compute; lia | lia].
Defined.

Lemma nested_error_is_returned_witness :
  _parseProperties 1 "" broken_properties None =
  Returns (Error FailedToParse "Unknown $jsonSchema keyword: minimum").
Proof.
  apply (nested_error_is_returned 1 "" broken_properties None
           [("a", ValObject [])] ("b", ValObject minimum_schema)
           [("c", ValString "x")] [AndMatchExpression []]).
  - reflexivity.
  - reflexivity.
  - constructor; [split; reflexivity | constructor].
  - reflexivity.
  - vm_compute. reflexivity.
Defined.

Lemma parsed_schema_is_well_typed_witness :
  keywords_well_formed person_schema /\ Forall well_typed_keyword person_schema.
Proof.
  eapply (parsed_schema_is_well_typed 2 "" person_schema).
  vm_compute. reflexivity.
Defined.

Lemma typed_restrictions_keep_invariants_witness :
  _parse (H:=refusing_library) 3 "" person_schema <> InvariantFailure.
Proof.
  apply (typed_restrictions_keep_invariants (H:=refusing_library) 3 "" person_schema).
  vm_compute. reflexivity.
Defined.

(** Without a [type] the restriction is made with a [TypeMatchExpression] of
    its own, and the parse fails the invariant when the library refuses it. *)
Lemma untyped_restriction_fails_invariant :
  states_types 3 "" untyped_schema = false /\
  _parse (H:=refusing_library) 3 "" untyped_schema = InvariantFailure.
Proof. split; vm_compute; reflexivity. Qed.

Lemma top_level_maximum_adds_empty_conjunct_witness :
  parse 2 (("maximum", ValOther NumberInt [150]) :: person_schema) =
  match parse 2 person_schema with
  | Returns (Value (AndMatchExpression children)) =>
      Returns (Value (AndMatchExpression (children ++ [AndMatchExpression []])))
  | result => result
  end.
Proof.
  apply (top_level_maximum_adds_empty_conjunct 2
           ("maximum", ValOther NumberInt [150]) person_schema).
  - apply (bool_decide_unpack _). vm_compute. exact I.
  - reflexivity.
  - reflexivity.
Defined.

Lemma nested_type_is_last_conjunct_witness :
  exists children te,
    parseTypeFromAlias "age" (valueStringData ("type", ValString "int")) = Value te /\
    AndMatchExpression
      [LTEMatchExpression "age" ("maximum", ValOther NumberInt [150]);
       TypeMatchExpression (MkTypeMatch "age" (MkType false (Other NumberInt)))] =
    AndMatchExpression (children ++ [TypeMatchExpression te]).
Proof.
  apply (nested_type_is_last_conjunct 1 "age" age_schema ("type", ValString "int")).
  - discriminate.
  - by left.
  - reflexivity.
  - vm_compute. reflexivity.
Defined.

End JSONSchemaProps.
